(** * Pinokio: aggregation and escalation engine

    A shallow embedding of the message aggregator ([src/redis_client.py]),
    the ingress router and escalation monitor ([src/producer.py]), the
    working-hours gate ([src/utils/time_manager.py]) and the LLM reply
    handling ([src/llm.py]), with the properties the specification states
    about them.

    Modelling conventions.
    - Wall-clock readings ([time.time()]) are POSIX times counted in
      microsecond ticks ([Z]); a configuration value given in whole seconds
      is converted with [seconds].  Rounding of the source's binary floats
      is not modelled.  Every source function that reads the clock takes the
      reading as its argument [now].
    - The Redis store is a record of finite maps, one per key family
      (the key templates are instantiated by the chat id, so each family is
      keyed by chat id).  A hash is a [gmap string string]; a missing key
      and an empty hash are the same thing, as in Redis.
    - Stream ids are the ordinals of the entries (Redis ids are strictly
      increasing tokens).
    - Python exceptions are results [Exc e]; stateful code runs in the
      state-and-exception monad [M].
    - A Python [str] is the string of the bytes of its UTF-8 encoding; the
      operations that work on characters ([str.strip], the character
      classes of the regular expressions) read the encoded characters. *)

From Stdlib Require Import ZArith String Ascii List DecimalString DecimalZ Lia.
From stdpp Require Import gmap strings list fin_maps sorting.

Set Warnings "-register-all".

Open Scope string_scope.
Open Scope list_scope.
Open Scope Z_scope.

(** ** Time *)

Definition ticks_per_second : Z := 1000000.

Definition seconds (n : Z) : Z := n * ticks_per_second.

(** [int(x)] on a float: truncation towards zero, in whole seconds. *)
Definition int_seconds (d : Z) : Z := Z.quot d ticks_per_second.

(** ** Exceptions and results *)

Inductive exn : Set :=
| ValueError | KeyError | TypeError | AttributeError
| JSONDecodeError | DataError | ResponseError | RuntimeError | APIError.

Inductive res (A : Type) : Type :=
| Ok (a : A)
| Exc (e : exn).

Arguments Ok {A} a.
Arguments Exc {A} e.

(** ** Number/string conversions: [str(x)], [float(s)], [int(s)] *)

Definition py_str (z : Z) : string := NilZero.string_of_int (Z.to_int z).

Definition py_float (s : string) : res Z :=
  match NilZero.int_of_string s with
  | Some d => Ok (Z.of_int d)
  | None => Exc ValueError
  end.

Definition py_int (s : string) : res Z := py_float s.

(** The line feed, ["\n"]. *)
Definition NL : string := String "010"%char EmptyString.

(** Truthiness of a string: [if s]. *)
Definition truthy (s : string) : bool :=
  match s with EmptyString => false | _ => true end.

(** ** Chat configuration ([configs/config_chats.yaml]) *)

(** A wall-clock time of day, [datetime.time(h, m, s)]. *)
Record time_of_day : Set := mkTime { tm_hour : Z; tm_min : Z; tm_sec : Z }.

(** The parts of a parsed [datetime] the working-hours gate reads. *)
Record datetime : Set := mkDatetime { dt_weekday : nat; dt_time : time_of_day }.

(** Keys read with [.get] or tested with [in] are optional. *)
Record pinger_config : Type := mkPinger {
  whitelist : list string;
  bot_enabled : bool;
  message_timeout : option Z;
  redis_buffer_window : option Z;
  pinger_output_chat_id : string;
  enabled : option bool;
  start_time : option time_of_day;
  end_time : option time_of_day;
  days : option (list string)
}.

Record silencer_config : Type := mkSilencer {
  silencer_enabled : bool;
  silence_timeout : option Z;
  silencer_output_chat_id : string
}.

Record chat_config : Type := mkChatConfig {
  input_chat_name : string;
  pinger : pinger_config;
  silencer : silencer_config
}.

(** ** The world: the Redis store and the in-memory state of the service *)

(** An outbound request to the Kafka sender and whether the call succeeded.
    [sent_about] is a ghost annotation: the chat and stream id of the final
    message a reminder is about ([None] for a silence notification). *)
Record sent : Type := mkSent {
  sent_about : option (string * Z);
  sent_chats__id : string;
  sent_text : string;
  sent_ok : bool
}.

Record World : Type := mkWorld {
  (* Redis *)
  raw_stream : gmap string (list (Z * gmap string string));
  final_stream : gmap string (list (Z * gmap string string));
  agg_hash : gmap string (gmap string string);
  sched_zset : gmap string Z;
  conf_hash : gmap string (gmap string string);
  metrics_hash : gmap string (gmap string Z);
  last_stream_id : Z;
  (* RedisClient *)
  window_seconds_default : Z;
  worker_max_batch : Z;
  _stop_events : list string;
  _flush_locks : list string;
  (* ProducerPinokIO and settings *)
  CONFIG_CHATS : gmap string chat_config;
  DEFAULT_USER_ID_BOT : string;
  last_silence_notification : gmap string Z;
  (* the outside: requests posted and LLM prompts issued so far *)
  outbox : list sent;
  llm_log : list (string * string)
}.

Definition set_raw_stream f (w : World) : World :=
  mkWorld (f (raw_stream w)) (final_stream w) (agg_hash w) (sched_zset w)
    (conf_hash w) (metrics_hash w) (last_stream_id w)
    (window_seconds_default w) (worker_max_batch w) (_stop_events w)
    (_flush_locks w) (CONFIG_CHATS w) (DEFAULT_USER_ID_BOT w)
    (last_silence_notification w) (outbox w) (llm_log w).

Definition set_final_stream f (w : World) : World :=
  mkWorld (raw_stream w) (f (final_stream w)) (agg_hash w) (sched_zset w)
    (conf_hash w) (metrics_hash w) (last_stream_id w)
    (window_seconds_default w) (worker_max_batch w) (_stop_events w)
    (_flush_locks w) (CONFIG_CHATS w) (DEFAULT_USER_ID_BOT w)
    (last_silence_notification w) (outbox w) (llm_log w).

Definition set_agg_hash f (w : World) : World :=
  mkWorld (raw_stream w) (final_stream w) (f (agg_hash w)) (sched_zset w)
    (conf_hash w) (metrics_hash w) (last_stream_id w)
    (window_seconds_default w) (worker_max_batch w) (_stop_events w)
    (_flush_locks w) (CONFIG_CHATS w) (DEFAULT_USER_ID_BOT w)
    (last_silence_notification w) (outbox w) (llm_log w).

Definition set_sched_zset f (w : World) : World :=
  mkWorld (raw_stream w) (final_stream w) (agg_hash w) (f (sched_zset w))
    (conf_hash w) (metrics_hash w) (last_stream_id w)
    (window_seconds_default w) (worker_max_batch w) (_stop_events w)
    (_flush_locks w) (CONFIG_CHATS w) (DEFAULT_USER_ID_BOT w)
    (last_silence_notification w) (outbox w) (llm_log w).

Definition set_conf_hash f (w : World) : World :=
  mkWorld (raw_stream w) (final_stream w) (agg_hash w) (sched_zset w)
    (f (conf_hash w)) (metrics_hash w) (last_stream_id w)
    (window_seconds_default w) (worker_max_batch w) (_stop_events w)
    (_flush_locks w) (CONFIG_CHATS w) (DEFAULT_USER_ID_BOT w)
    (last_silence_notification w) (outbox w) (llm_log w).

Definition set_metrics_hash f (w : World) : World :=
  mkWorld (raw_stream w) (final_stream w) (agg_hash w) (sched_zset w)
    (conf_hash w) (f (metrics_hash w)) (last_stream_id w)
    (window_seconds_default w) (worker_max_batch w) (_stop_events w)
    (_flush_locks w) (CONFIG_CHATS w) (DEFAULT_USER_ID_BOT w)
    (last_silence_notification w) (outbox w) (llm_log w).

Definition set_last_stream_id f (w : World) : World :=
  mkWorld (raw_stream w) (final_stream w) (agg_hash w) (sched_zset w)
    (conf_hash w) (metrics_hash w) (f (last_stream_id w))
    (window_seconds_default w) (worker_max_batch w) (_stop_events w)
    (_flush_locks w) (CONFIG_CHATS w) (DEFAULT_USER_ID_BOT w)
    (last_silence_notification w) (outbox w) (llm_log w).

Definition set_stop_events f (w : World) : World :=
  mkWorld (raw_stream w) (final_stream w) (agg_hash w) (sched_zset w)
    (conf_hash w) (metrics_hash w) (last_stream_id w)
    (window_seconds_default w) (worker_max_batch w) (f (_stop_events w))
    (_flush_locks w) (CONFIG_CHATS w) (DEFAULT_USER_ID_BOT w)
    (last_silence_notification w) (outbox w) (llm_log w).

Definition set_flush_locks f (w : World) : World :=
  mkWorld (raw_stream w) (final_stream w) (agg_hash w) (sched_zset w)
    (conf_hash w) (metrics_hash w) (last_stream_id w)
    (window_seconds_default w) (worker_max_batch w) (_stop_events w)
    (f (_flush_locks w)) (CONFIG_CHATS w) (DEFAULT_USER_ID_BOT w)
    (last_silence_notification w) (outbox w) (llm_log w).

Definition set_last_silence_notification f (w : World) : World :=
  mkWorld (raw_stream w) (final_stream w) (agg_hash w) (sched_zset w)
    (conf_hash w) (metrics_hash w) (last_stream_id w)
    (window_seconds_default w) (worker_max_batch w) (_stop_events w)
    (_flush_locks w) (CONFIG_CHATS w) (DEFAULT_USER_ID_BOT w)
    (f (last_silence_notification w)) (outbox w) (llm_log w).

Definition set_outbox f (w : World) : World :=
  mkWorld (raw_stream w) (final_stream w) (agg_hash w) (sched_zset w)
    (conf_hash w) (metrics_hash w) (last_stream_id w)
    (window_seconds_default w) (worker_max_batch w) (_stop_events w)
    (_flush_locks w) (CONFIG_CHATS w) (DEFAULT_USER_ID_BOT w)
    (last_silence_notification w) (f (outbox w)) (llm_log w).

Definition set_llm_log f (w : World) : World :=
  mkWorld (raw_stream w) (final_stream w) (agg_hash w) (sched_zset w)
    (conf_hash w) (metrics_hash w) (last_stream_id w)
    (window_seconds_default w) (worker_max_batch w) (_stop_events w)
    (_flush_locks w) (CONFIG_CHATS w) (DEFAULT_USER_ID_BOT w)
    (last_silence_notification w) (outbox w) (f (llm_log w)).

(** ** The state-and-exception monad *)

Definition M (A : Type) : Type := World -> res A * World.

Definition ret {A} (a : A) : M A := fun w => (Ok a, w).

Definition raise {A} (e : exn) : M A := fun w => (Exc e, w).

Definition bind {A B} (m : M A) (k : A -> M B) : M B :=
  fun w =>
    match m w with
    | (Ok a, w') => k a w'
    | (Exc e, w') => (Exc e, w')
    end.

Definition lift {A} (r : res A) : M A := fun w => (r, w).

Definition gets {A} (f : World -> A) : M A := fun w => (Ok (f w), w).

Definition modify (f : World -> World) : M unit := fun w => (Ok tt, f w).

(** [try: m except Exception: h] *)
Definition try_except {A} (m : M A) (h : exn -> M A) : M A :=
  fun w =>
    match m w with
    | (Ok a, w') => (Ok a, w')
    | (Exc e, w') => h e w'
    end.

Notation "'let*' x ':=' m 'in' k" := (bind m (fun x => k))
  (at level 10, x name, m at level 200, k at level 200).
Notation "m '>>' k" := (bind m (fun _ => k))
  (at level 100, k at level 200, right associativity).

(** [for x in xs: body x] *)
Fixpoint for_each {A} (xs : list A) (body : A -> M unit) : M unit :=
  match xs with
  | [] => ret tt
  | x :: xs' => body x >> for_each xs' body
  end.

(** ** Redis commands *)

(** [HGETALL] on a key: a missing key reads as the empty hash. *)
Definition hgetall (hs : gmap string (gmap string string)) (key : string)
  : gmap string string :=
  default ∅ (hs !! key).

(** [HSET key mapping]: the given fields overwrite, the others stay. *)
Definition hset (key : string) (mapping : gmap string string)
    (hs : gmap string (gmap string string))
  : gmap string (gmap string string) :=
  <[key := mapping ∪ hgetall hs key]> hs.

(** [d.get(k, dflt)] *)
Definition dict_get (d : gmap string string) (k dflt : string) : string :=
  default dflt (d !! k).

(** [XADD]: a fresh id, the entry goes to the end of the stream. *)
Definition xadd (key : string) (id : Z) (fs : gmap string string)
    (ss : gmap string (list (Z * gmap string string)))
  : gmap string (list (Z * gmap string string)) :=
  <[key := default [] (ss !! key) ++ [(id, fs)]]> ss.

(** [XDEL key id] *)
Definition xdel (key : string) (id : Z)
    (ss : gmap string (list (Z * gmap string string)))
  : gmap string (list (Z * gmap string string)) :=
  match ss !! key with
  | Some l => <[key := filter (fun e => e.1 ≠ id) l]> ss
  | None => ss
  end.

(** [XREVRANGE key count=n]: the [n] newest entries, newest first. *)
Definition xrevrange (ss : gmap string (list (Z * gmap string string)))
    (key : string) (count : nat) : list (Z * gmap string string) :=
  take count (reverse (default [] (ss !! key))).

(** Order of a sorted set: by score, ties by member. *)
Definition zset_le (a b : string * Z) : Prop :=
  a.2 < b.2 ∨ (a.2 = b.2 ∧ String.leb a.1 b.1 = true).

#[global] Instance zset_le_dec a b : Decision (zset_le a b).
Proof. unfold zset_le. apply _. Defined.

(** [ZRANGE key 0 -1] *)
Definition zrange_all (z : gmap string Z) : list string :=
  (merge_sort zset_le (map_to_list z)).*1.

(** [ZRANGEBYSCORE key lo hi LIMIT 0 num] *)
Definition zrangebyscore (z : gmap string Z) (lo hi : Z) (num : Z)
  : list string :=
  let hits :=
    (merge_sort zset_le
       (filter (fun e => lo <= e.2 ∧ e.2 <= hi) (map_to_list z))).*1 in
  if num <? 0 then hits else take (Z.to_nat num) hits.

Definition redis_xadd_raw (chat_id : string) (fs : gmap string string) : M Z :=
  fun w =>
    let id := last_stream_id w + 1 in
    (Ok id, set_raw_stream (xadd chat_id id fs) (set_last_stream_id (fun _ => id) w)).

Definition redis_xadd_final (chat_id : string) (fs : gmap string string) : M Z :=
  fun w =>
    let id := last_stream_id w + 1 in
    (Ok id, set_final_stream (xadd chat_id id fs) (set_last_stream_id (fun _ => id) w)).

(** ** RedisClient ([src/redis_client.py]) *)

Definition set_window (chat_id : string) (secs : Z) : M unit :=
  modify (set_conf_hash (hset chat_id {["window_s" := py_str secs]})).

Definition get_window (chat_id : string) : M Z :=
  let* value := gets (fun w => hgetall (conf_hash w) chat_id !! "window_s") in
  match value with
  | Some v => if truthy v then lift (py_int v) else gets window_seconds_default
  | None => gets window_seconds_default
  end.

(** [HINCRBY] on the metrics hash of the chat. *)
Definition _increment_metric (chat_id field : string) (by_ : Z) : M unit :=
  modify (set_metrics_hash (fun ms =>
    let m := default ∅ (ms !! chat_id) in
    <[chat_id := <[field := default 0 (m !! field) + by_]> m]> ms)).

Definition add_message (now : Z)
    (chat_id messages_id user_id username user_type text : string)
    (timestamp : option Z) : M Z :=
  let timestamp := default now timestamp in
  let message_data : gmap string string :=
    <["user_id" := user_id]> (<["messages_id" := messages_id]> (
    <["username" := username]> (<["user_type" := user_type]> (
    <["text" := text]> (<["timestamp" := py_str timestamp]> (
    <["type" := "short"]> ∅)))))) in
  let* message_id := redis_xadd_raw chat_id message_data in
  _increment_metric chat_id "messages_received" 1 >>
  ret message_id.

(** The per-chat lock is created on first use; the model is sequential, so
    taking and releasing it has no further effect. *)
Definition ensure_flush_lock (chat_id : string) : M unit :=
  modify (set_flush_locks (fun ls =>
    if bool_decide (chat_id ∈ ls) then ls else ls ++ [chat_id])).

(** [float(d.get(k, dflt))] with a float default. *)
Definition float_field (d : gmap string string) (k : string) (dflt : Z) : res Z :=
  match d !! k with
  | Some s => py_float s
  | None => Ok dflt
  end.

Definition _flush_series (now : Z) (chat_id : string) (current_time : option Z)
  : M (option Z) :=
  let current_time := default now current_time in
  ensure_flush_lock chat_id >>
  let* series_data := gets (fun w => hgetall (agg_hash w) chat_id) in
  if bool_decide (series_data = ∅) then ret None
  else
    let user_id := dict_get series_data "user_id" EmptyString in
    let messages_id := dict_get series_data "messages_id" EmptyString in
    let username := dict_get series_data "username" EmptyString in
    let user_type := dict_get series_data "user_type" EmptyString in
    let text := dict_get series_data "text" EmptyString in
    let* start_ts := lift (float_field series_data "start_ts" current_time) in
    let* last_ts := lift (float_field series_data "last_ts" current_time) in
    let* count := lift (py_int (dict_get series_data "count" "1")) in
    let final_message_data : gmap string string :=
      <["user_id" := user_id]> (<["messages_id" := messages_id]> (
      <["username" := username]> (<["user_type" := user_type]> (
      <["text" := text]> (<["start_ts" := py_str start_ts]> (
      <["end_ts" := py_str last_ts]> (<["count" := py_str count]> (
      <["type" := "long"]> ∅)))))))) in
    let* final_message_id := redis_xadd_final chat_id final_message_data in
    modify (set_agg_hash (delete chat_id)) >>
    modify (set_sched_zset (delete chat_id)) >>
    _increment_metric chat_id "series_flushed" 1 >>
    _increment_metric chat_id "messages_aggregated" count >>
    ret (Some final_message_id).

(** [ZADD sched {chat_id: deadline}] *)
Definition _schedule_deadline (chat_id : string) (deadline_timestamp : Z) : M unit :=
  modify (set_sched_zset <[chat_id := deadline_timestamp]>).

(** The eight fields of a series that starts with this message. *)
Definition new_series_data (current_time : Z)
    (messages_id user_id username user_type text : string) : gmap string string :=
  <["user_id" := user_id]> (<["messages_id" := messages_id]> (
  <["username" := username]> (<["user_type" := user_type]> (
  <["text" := text]> (<["start_ts" := py_str current_time]> (
  <["last_ts" := py_str current_time]> (<["count" := "1"]> ∅))))))).

Definition process_message (now : Z)
    (chat_id messages_id user_id username user_type text : string)
    (window_seconds : option Z) : M unit :=
  let current_time := now in
  let* window_seconds :=
    match window_seconds with
    | None => get_window chat_id
    | Some w => ret w
    end in
  let* current_series := gets (fun w => hgetall (agg_hash w) chat_id) in
  if bool_decide (current_series = ∅) then
    let series_data :=
      new_series_data current_time messages_id user_id username user_type text in
    modify (set_agg_hash (hset chat_id series_data)) >>
    let next_deadline := current_time + seconds window_seconds in
    _schedule_deadline chat_id next_deadline
  else
    let same_author := bool_decide (current_series !! "user_id" = Some user_id) in
    let* last_message_time := lift (float_field current_series "last_ts" current_time) in
    let time_since_last := current_time - last_message_time in
    if same_author && (time_since_last <=? seconds window_seconds) then
      let existing_text := dict_get current_series "text" EmptyString in
      let new_text :=
        if truthy existing_text then existing_text +:+ NL +:+ text else text in
      let* count := lift (py_int (dict_get current_series "count" "1")) in
      let new_count := py_str (count + 1) in
      let update_data : gmap string string :=
        <["text" := new_text]> (<["last_ts" := py_str current_time]> (
        <["count" := new_count]> ∅)) in
      modify (set_agg_hash (hset chat_id update_data)) >>
      let next_deadline := current_time + seconds window_seconds in
      _schedule_deadline chat_id next_deadline
    else
      _flush_series now chat_id (Some current_time) >>
      let new_series :=
        new_series_data current_time messages_id user_id username user_type text in
      modify (set_agg_hash (hset chat_id new_series)) >>
      let next_deadline := current_time + seconds window_seconds in
      _schedule_deadline chat_id next_deadline.

(** The loop of [scheduler_tick] over the expired chats. *)
Fixpoint flush_expired (now : Z) (expired_chats : list string) (flushed_count : Z)
  : M Z :=
  match expired_chats with
  | [] => ret flushed_count
  | chat_id :: rest =>
      let* r := _flush_series now chat_id (Some now) in
      flush_expired now rest
        (if r is Some _ then flushed_count + 1 else flushed_count)
  end.

Definition scheduler_tick (now : Z) (max_batch : option Z) : M Z :=
  let* max_batch :=
    match max_batch with
    | None => gets worker_max_batch
    | Some n => ret n
    end in
  let current_time := now in
  let* expired_chats :=
    gets (fun w => zrangebyscore (sched_zset w) 0 current_time max_batch) in
  flush_expired current_time expired_chats 0.

Definition get_final_messages (chat_id : string) (count : nat)
  : M (list (Z * gmap string string)) :=
  gets (fun w => xrevrange (final_stream w) chat_id count).

(** The entries of the status dictionary that the callers read. *)
Record chat_status : Type := mkStatus {
  active_series : gmap string string;
  deadline_timestamp : option Z;
  worker_running : bool
}.

Definition get_chat_status (chat_id : string) : M chat_status :=
  gets (fun w =>
    mkStatus (hgetall (agg_hash w) chat_id) (sched_zset w !! chat_id)
      (bool_decide (chat_id ∈ _stop_events w))).

(** The chats of [get_all_chats_status], in the order of its result. *)
Definition all_chats (w : World) : list string :=
  let scheduled := zrange_all (sched_zset w) in
  scheduled ++
  filter (fun c => c ≠ "scheduler" ∧ c ∉ scheduled) (_stop_events w).

Fixpoint get_statuses (chats : list string) : M (list (string * chat_status)) :=
  match chats with
  | [] => ret []
  | c :: rest =>
      let* s := get_chat_status c in
      let* r := get_statuses rest in
      ret ((c, s) :: r)
  end.

Definition get_all_chats_status : M (list (string * chat_status)) :=
  let* chats := gets all_chats in
  get_statuses chats.

(** Registers the worker of the chat; the worker thread itself runs
    [process_message] on the raw events it reads. *)
Definition start_worker (chat_id : string) : M unit :=
  let* running := gets (fun w => bool_decide (chat_id ∈ _stop_events w)) in
  if running then ret tt
  else modify (set_stop_events (fun l => l ++ [chat_id])).

(** ** Series and final messages, as the data model names them *)

Record series : Set := mkSeries {
  s_user_id : string;
  s_messages_id : string;
  s_username : string;
  s_user_type : string;
  s_text : string;
  s_start_ts : Z;
  s_last_ts : Z;
  s_count : Z
}.

Definition num_field (h : gmap string string) (k : string) : option Z :=
  match h !! k with
  | Some v => match py_float v with Ok z => Some z | Exc _ => None end
  | None => None
  end.

(** The series a hash holds: all eight fields present, the numbers readable. *)
Definition series_of (h : gmap string string) : option series :=
  match h !! "user_id", h !! "messages_id", h !! "username", h !! "user_type",
        h !! "text", num_field h "start_ts", num_field h "last_ts",
        num_field h "count" with
  | Some u, Some m, Some n, Some t, Some x, Some a, Some b, Some c =>
      Some (mkSeries u m n t x a b c)
  | _, _, _, _, _, _, _, _ => None
  end.

(** The final message a flush writes for a series. *)
Definition final_message_of (s : series) : gmap string string :=
  <["user_id" := s_user_id s]> (<["messages_id" := s_messages_id s]> (
  <["username" := s_username s]> (<["user_type" := s_user_type s]> (
  <["text" := s_text s]> (<["start_ts" := py_str (s_start_ts s)]> (
  <["end_ts" := py_str (s_last_ts s)]> (<["count" := py_str (s_count s)]> (
  <["type" := "long"]> ∅)))))))).

(** [a + "\n" + b], without the line feed when [a] is empty. *)
Definition join_text (a b : string) : string :=
  if truthy a then a +:+ NL +:+ b else b.

(** The window [process_message] works with: its argument, or the chat's. *)
Definition window_is (w : World) (chat_id : string) (window_seconds : option Z)
    (win : Z) : Prop :=
  match window_seconds with
  | None => (get_window chat_id w).1 = Ok win
  | Some x => x = win
  end.

(** ** Worlds and invariants the properties speak of *)

Definition lock_taken (chat_id : string) (ls : list string) : list string :=
  if bool_decide (chat_id ∈ ls) then ls else ls ++ [chat_id].

(** The world after the flush of the series [s] of the chat. *)
Definition flushed (chat_id : string) (s : series) (w : World) : World :=
  let id := last_stream_id w + 1 in
  let w1 := set_flush_locks (lock_taken chat_id) w in
  let w2 := set_final_stream (xadd chat_id id (final_message_of s))
              (set_last_stream_id (fun _ => id) w1) in
  let w3 := set_sched_zset (delete chat_id) (set_agg_hash (delete chat_id) w2) in
  set_metrics_hash (fun ms =>
      let m := default ∅ (ms !! chat_id) in
      <[chat_id := <["messages_aggregated" :=
                      default 0 (m !! "messages_aggregated") + s_count s]> m]> ms)
    (set_metrics_hash (fun ms =>
      let m := default ∅ (ms !! chat_id) in
      <[chat_id := <["series_flushed" :=
                      default 0 (m !! "series_flushed") + 1]> m]> ms) w3).

(** The world after the series hash of the chat got the fields [h] and the
    chat's deadline was set to [t]. *)
Definition stored (chat_id : string) (h : gmap string string) (t : Z) (w : World)
  : World :=
  set_sched_zset <[chat_id := t]> (set_agg_hash (hset chat_id h) w).

(** The three fields an extension overwrites. *)
Definition update_data (s : series) (text : string) (now : Z) : gmap string string :=
  <["text" := join_text (s_text s) text]> (<["last_ts" := py_str now]> (
  <["count" := py_str (s_count s + 1)]> ∅)).

(** For the chat [c]: without a series there is no deadline; with a series
    [s] there is a deadline [t] (the sorted set holds one score per member)
    and [last_ts <= t <= last_ts + window]. *)
Definition deadline_ok (W : string -> Z) (w : World) (c : string) : Prop :=
  if decide (hgetall (agg_hash w) c = ∅) then sched_zset w !! c = None
  else ∃ s t, series_of (hgetall (agg_hash w) c) = Some s
              ∧ sched_zset w !! c = Some t
              ∧ s_last_ts s <= t ∧ t <= s_last_ts s + seconds (W c).

Definition Inv (W : string -> Z) (w : World) : Prop := ∀ c, deadline_ok W w c.

(** ** Python values ([json.loads] results) *)

Inductive pyfloat : Set :=
| FDec (m e : Z)          (* the decimal m * 10^e *)
| FNaN
| FInf (negative : bool).

Inductive pyval : Type :=
| PNone
| PBool (b : bool)
| PInt (z : Z)
| PFloat (f : pyfloat)
| PStr (s : string)
| PList (l : list pyval)
| PDict (d : list (string * pyval)).

(** [d[k] = v] on an insertion-ordered dictionary. *)
Fixpoint dict_set (k : string) (v : pyval) (d : list (string * pyval))
  : list (string * pyval) :=
  match d with
  | [] => [(k, v)]
  | (k', v') :: d' =>
      if String.eqb k' k then (k, v) :: d' else (k', v') :: dict_set k v d'
  end.

(** [d.get(k)]: [None] when the key is missing. *)
Fixpoint dict_lookup (k : string) (d : list (string * pyval)) : pyval :=
  match d with
  | [] => PNone
  | (k', v) :: d' => if String.eqb k' k then v else dict_lookup k d'
  end.

(** [isinstance(v, int)]; Python's [bool] is a subclass of [int]. *)
Definition isinstance_int (v : pyval) : bool :=
  match v with
  | PInt _ | PBool _ => true
  | _ => false
  end.

Definition isinstance_dict (v : pyval) : bool :=
  match v with
  | PDict _ => true
  | _ => false
  end.

(** [v == 1] *)
Definition eq_one (v : pyval) : bool :=
  match v with
  | PInt z => z =? 1
  | PBool b => b
  | PFloat (FDec m e) =>
      if 0 <=? e then m * 10 ^ e =? 1 else m =? 10 ^ (- e)
  | _ => false
  end.

(** ** String operations *)

(** A class of characters, as a test on the one, two or three bytes that
    encode a character. *)
Record charclass : Type := mkClass {
  in1 : ascii -> bool;
  in2 : ascii -> ascii -> bool;
  in3 : ascii -> ascii -> ascii -> bool
}.

(** A class of ASCII characters. *)
Definition ascii_class (p : ascii -> bool) : charclass :=
  mkClass p (fun _ _ => false) (fun _ _ _ => false).

Definition byte_is (c : ascii) (n : nat) : bool := (nat_of_ascii c =? n)%nat.

(** [str.isspace] on an ASCII character. *)
Definition is_space (c : ascii) : bool :=
  let n := nat_of_ascii c in
  ((9 <=? n) && (n <=? 13) || (28 <=? n) && (n <=? 31) || (n =? 32))%nat.

(** The white space of [str.strip()] and of the class [\s] of a [str]
    pattern: U+0009 to U+000D, U+001C to U+0020, U+0085, U+00A0, U+1680,
    U+2000 to U+200A, U+2028, U+2029, U+202F, U+205F and U+3000. *)
Definition space : charclass :=
  mkClass is_space
    (fun a b => byte_is a 194 && (byte_is b 133 || byte_is b 160))
    (fun a b c =>
       byte_is a 225 && byte_is b 154 && byte_is c 128
       || byte_is a 226 && byte_is b 128
          && ((128 <=? nat_of_ascii c)%nat && (nat_of_ascii c <=? 138)%nat
              || byte_is c 168 || byte_is c 169 || byte_is c 175)
       || byte_is a 226 && byte_is b 129 && byte_is c 159
       || byte_is a 227 && byte_is b 128 && byte_is c 128).

(** The class [[a-zA-Z]] on an ASCII character. *)
Definition is_letter (c : ascii) : bool :=
  let n := nat_of_ascii c in
  ((65 <=? n) && (n <=? 90) || (97 <=? n) && (n <=? 122))%nat.

(** The class [[a-zA-Z]] under [re.IGNORECASE] in a [str] pattern: the 52
    ASCII letters and the four characters that case-fold onto one of them,
    U+0130, U+0131, U+017F and U+212A. *)
Definition letter_ignorecase : charclass :=
  mkClass is_letter
    (fun a b => byte_is a 196 && (byte_is b 176 || byte_is b 177)
                || byte_is a 197 && byte_is b 191)
    (fun a b c => byte_is a 226 && byte_is b 132 && byte_is c 170).

Definition is_backtick (c : ascii) : bool := Ascii.eqb c "`"%char.

(** The string without its longest prefix of characters of the class. *)
Fixpoint lstrip_class (k : charclass) (s : string) : string :=
  match s with
  | EmptyString => EmptyString
  | String a s1 =>
      if in1 k a then lstrip_class k s1
      else
        match s1 with
        | EmptyString => s
        | String b s2 =>
            if in2 k a b then lstrip_class k s2
            else
              match s2 with
              | EmptyString => s
              | String c s3 => if in3 k a b c then lstrip_class k s3 else s
              end
        end
  end.

(** The same from the other end, on the reversed string: [r] holds the last
    byte first. *)
Fixpoint lstrip_class_rev (k : charclass) (r : string) : string :=
  match r with
  | EmptyString => EmptyString
  | String c r1 =>
      if in1 k c then lstrip_class_rev k r1
      else
        match r1 with
        | EmptyString => r
        | String b r2 =>
            if in2 k b c then lstrip_class_rev k r2
            else
              match r2 with
              | EmptyString => r
              | String a r3 => if in3 k a b c then lstrip_class_rev k r3 else r
              end
        end
  end.

(** The string without its longest suffix of characters of the class. *)
Definition rstrip_class (k : charclass) (s : string) : string :=
  String.rev (lstrip_class_rev k (String.rev s)).

Definition lstrip (p : ascii -> bool) (s : string) : string :=
  lstrip_class (ascii_class p) s.

Definition rstrip (p : ascii -> bool) (s : string) : string :=
  rstrip_class (ascii_class p) s.

(** [s.strip(chars)] for ASCII [chars] *)
Definition strip_by (p : ascii -> bool) (s : string) : string :=
  rstrip p (lstrip p s).

(** [s.strip()] *)
Definition strip (s : string) : string :=
  rstrip_class space (lstrip_class space s).

Definition lower_char (c : ascii) : ascii :=
  let n := nat_of_ascii c in
  if ((65 <=? n) && (n <=? 90))%nat then ascii_of_nat (n + 32) else c.

(** [s.lower()] *)
Fixpoint lower (s : string) : string :=
  match s with
  | EmptyString => EmptyString
  | String c s' => String (lower_char c) (lower s')
  end.

Fixpoint ends_with (suffix s : string) : bool :=
  String.eqb s suffix ||
  match s with
  | EmptyString => false
  | String _ s' => ends_with suffix s'
  end.

(** [s[:-n]] for [n <= len(s)] *)
Definition drop_last (n : nat) (s : string) : string :=
  String.substring 0 (String.length s - n) s.

(** [sep.join(parts)] *)
Fixpoint join (sep : string) (parts : list string) : string :=
  match parts with
  | [] => EmptyString
  | [p] => p
  | p :: rest => p +:+ sep +:+ join sep rest
  end.

(** [re.match(r"^```[a-zA-Z]*\s*([\s\S]*?)\s*```$", content)], its group 1.

    The pattern matches exactly when [content] opens with three backticks
    and closes with three further ones.  The letters and the white space
    after the opening fence are matched greedily and hold no backtick, so
    the first alternative the matcher tries already succeeds when any does;
    the lazy group is then the rest up to the closing fence without its
    trailing white space. *)
Definition fenced_group (content : string) : option string :=
  if String.prefix "```" content && ends_with "```" content
     && (6 <=? String.length content)%nat
  then
    let inner := drop_last 3 (String.substring 3 (String.length content - 3) content) in
    Some (rstrip_class space
            (lstrip_class space (lstrip_class letter_ignorecase inner)))
  else None.

(** The suffix of [s] that starts at the first [c]. *)
Fixpoint from_first (c : ascii) (s : string) : option string :=
  match s with
  | EmptyString => None
  | String a s' => if Ascii.eqb a c then Some s else from_first c s'
  end.

(** The prefix of [s] that ends at the last [c]. *)
Fixpoint upto_last (c : ascii) (s : string) : option string :=
  match s with
  | EmptyString => None
  | String a s' =>
      match upto_last c s' with
      | Some r => Some (String a r)
      | None => if Ascii.eqb a c then Some (String a EmptyString) else None
      end
  end.

(** [re.search(r"\{.*\}", s, re.DOTALL)], its group 0: from the first
    opening brace to the last closing brace after it. *)
Definition brace_span (s : string) : option string :=
  match from_first "{"%char s with
  | Some t => upto_last "}"%char t
  | None => None
  end.

(** ** A model of the standard [json.loads]

    The grammar of RFC 8259 as the standard decoder reads it (including
    [NaN], [Infinity] and [-Infinity]); a [\uXXXX] escape yields the UTF-8
    bytes of that code unit. *)

Definition DQ : ascii := "034"%char.

Definition BACKSLASH : ascii := "092"%char.

Definition is_json_ws (c : ascii) : bool :=
  let n := nat_of_ascii c in
  ((n =? 32) || (n =? 9) || (n =? 10) || (n =? 13))%nat.

Definition is_digit (c : ascii) : bool :=
  let n := nat_of_ascii c in ((48 <=? n) && (n <=? 57))%nat.

Definition digit_val (c : ascii) : Z := Z.of_nat (nat_of_ascii c) - 48.

Definition hex_val (c : ascii) : option Z :=
  let n := nat_of_ascii c in
  if ((48 <=? n) && (n <=? 57))%nat then Some (Z.of_nat n - 48)
  else if ((65 <=? n) && (n <=? 70))%nat then Some (Z.of_nat n - 55)
  else if ((97 <=? n) && (n <=? 102))%nat then Some (Z.of_nat n - 87)
  else None.

Definition byte_of (z : Z) : ascii := ascii_of_nat (Z.to_nat z).

Definition utf8 (cp : Z) (rest : string) : string :=
  if cp <? 128 then String (byte_of cp) rest
  else if cp <? 2048 then
    String (byte_of (192 + cp / 64)) (String (byte_of (128 + cp mod 64)) rest)
  else
    String (byte_of (224 + cp / 4096))
      (String (byte_of (128 + (cp / 64) mod 64))
         (String (byte_of (128 + cp mod 64)) rest)).

(** A maximal run of digits: its value after [acc], its length, the rest. *)
Fixpoint read_digits (s : string) (acc : Z) (n : Z) : Z * Z * string :=
  match s with
  | String c s' =>
      if is_digit c then read_digits s' (acc * 10 + digit_val c) (n + 1)
      else (acc, n, s)
  | EmptyString => (acc, n, s)
  end.

Definition strip_prefix (p s : string) : option string :=
  if String.prefix p s
  then Some (String.substring (String.length p) (String.length s - String.length p) s)
  else None.

(** A number: an optional minus, an integer part without leading zeros, an
    optional fraction and an optional exponent. *)
Definition parse_number (s : string) : option (pyval * string) :=
  let '(neg, s1) :=
    match s with
    | String c s' => if Ascii.eqb c "-"%char then (true, s') else (false, s)
    | EmptyString => (false, s)
    end in
  let int_part :=
    match s1 with
    | String c s' =>
        if Ascii.eqb c "0"%char then Some (0, s')
        else if is_digit c then
          let '(v, _, r) := read_digits s1 0 0 in Some (v, r)
        else None
    | EmptyString => None
    end in
  match int_part with
  | None => None
  | Some (i, s2) =>
      let '(m, e, has_frac, s3) :=
        match s2 with
        | String c s' =>
            if Ascii.eqb c "."%char then
              let '(v, k, r) := read_digits s' i 0 in
              if 0 <? k then (v, - k, true, r) else (i, 0, false, s2)
            else (i, 0, false, s2)
        | EmptyString => (i, 0, false, s2)
        end in
      let '(x, has_exp, s4) :=
        match s3 with
        | String c s' =>
            if Ascii.eqb c "e"%char || Ascii.eqb c "E"%char then
              let '(sign, s'') :=
                match s' with
                | String d t =>
                    if Ascii.eqb d "-"%char then (-1, t)
                    else if Ascii.eqb d "+"%char then (1, t)
                    else (1, s')
                | EmptyString => (1, s')
                end in
              let '(v, k, r) := read_digits s'' 0 0 in
              if 0 <? k then (sign * v, true, r) else (0, false, s3)
            else (0, false, s3)
        | EmptyString => (0, false, s3)
        end in
      let sgn := if neg : bool then -1 else 1 in
      if has_frac || has_exp
      then Some (PFloat (FDec (sgn * m) (e + x)), s4)
      else Some (PInt (sgn * i), s4)
  end.

(** The characters of a string literal after its opening quote. *)
Fixpoint parse_string_body (s : string) : option (string * string) :=
  match s with
  | EmptyString => None
  | String c s' =>
      if Ascii.eqb c DQ then Some (EmptyString, s')
      else if Ascii.eqb c BACKSLASH then
        match s' with
        | EmptyString => None
        | String e s'' =>
            let simple (b : ascii) :=
              match parse_string_body s'' with
              | Some (r, t) => Some (String b r, t)
              | None => None
              end in
            if Ascii.eqb e DQ then simple DQ
            else if Ascii.eqb e BACKSLASH then simple BACKSLASH
            else if Ascii.eqb e "/"%char then simple "/"%char
            else if Ascii.eqb e "b"%char then simple "008"%char
            else if Ascii.eqb e "f"%char then simple "012"%char
            else if Ascii.eqb e "n"%char then simple "010"%char
            else if Ascii.eqb e "r"%char then simple "013"%char
            else if Ascii.eqb e "t"%char then simple "009"%char
            else if Ascii.eqb e "u"%char then
              match s'' with
              | String h1 (String h2 (String h3 (String h4 s5))) =>
                  match hex_val h1, hex_val h2, hex_val h3, hex_val h4,
                        parse_string_body s5 with
                  | Some a, Some b, Some c', Some d, Some (r, t) =>
                      Some (utf8 (((a * 16 + b) * 16 + c') * 16 + d) r, t)
                  | _, _, _, _, _ => None
                  end
              | _ => None
              end
            else None
        end
      else if (nat_of_ascii c <? 32)%nat then None
      else
        match parse_string_body s' with
        | Some (r, t) => Some (String c r, t)
        | None => None
        end
  end.

Inductive parse_mode : Type :=
| PValue
| PElems (acc : list pyval)
| PMembers (acc : list (string * pyval)).

Fixpoint parse_json (fuel : nat) (mode : parse_mode) (s : string)
  : option (pyval * string) :=
  match fuel with
  | O => None
  | S fuel' =>
      match mode with
      | PValue =>
          match lstrip is_json_ws s with
          | EmptyString => None
          | String c rest as t =>
              if Ascii.eqb c "["%char then
                match lstrip is_json_ws rest with
                | String c' rest' =>
                    if Ascii.eqb c' "]"%char then Some (PList [], rest')
                    else parse_json fuel' (PElems []) rest
                | EmptyString => None
                end
              else if Ascii.eqb c "{"%char then
                match lstrip is_json_ws rest with
                | String c' rest' =>
                    if Ascii.eqb c' "}"%char then Some (PDict [], rest')
                    else parse_json fuel' (PMembers []) rest
                | EmptyString => None
                end
              else if Ascii.eqb c DQ then
                match parse_string_body rest with
                | Some (x, r) => Some (PStr x, r)
                | None => None
                end
              else
                match strip_prefix "null" t, strip_prefix "true" t,
                      strip_prefix "false" t, strip_prefix "NaN" t,
                      strip_prefix "Infinity" t, strip_prefix "-Infinity" t with
                | Some r, _, _, _, _, _ => Some (PNone, r)
                | _, Some r, _, _, _, _ => Some (PBool true, r)
                | _, _, Some r, _, _, _ => Some (PBool false, r)
                | _, _, _, Some r, _, _ => Some (PFloat FNaN, r)
                | _, _, _, _, Some r, _ => Some (PFloat (FInf false), r)
                | _, _, _, _, _, Some r => Some (PFloat (FInf true), r)
                | _, _, _, _, _, _ => parse_number t
                end
          end
      | PElems acc =>
          match parse_json fuel' PValue s with
          | Some (v, r) =>
              match lstrip is_json_ws r with
              | String c r' =>
                  if Ascii.eqb c ","%char then parse_json fuel' (PElems (acc ++ [v])) r'
                  else if Ascii.eqb c "]"%char then Some (PList (acc ++ [v]), r')
                  else None
              | EmptyString => None
              end
          | None => None
          end
      | PMembers acc =>
          match lstrip is_json_ws s with
          | String q r =>
              if Ascii.eqb q DQ then
                match parse_string_body r with
                | Some (k, r1) =>
                    match lstrip is_json_ws r1 with
                    | String c r2 =>
                        if Ascii.eqb c ":"%char then
                          match parse_json fuel' PValue r2 with
                          | Some (v, r3) =>
                              match lstrip is_json_ws r3 with
                              | String d r4 =>
                                  if Ascii.eqb d ","%char
                                  then parse_json fuel' (PMembers (dict_set k v acc)) r4
                                  else if Ascii.eqb d "}"%char
                                  then Some (PDict (dict_set k v acc), r4)
                                  else None
                              | EmptyString => None
                              end
                          | None => None
                          end
                        else None
                    | EmptyString => None
                    end
                | None => None
                end
              else None
          | EmptyString => None
          end
      end
  end.

Definition json_loads_model (s : string) : res pyval :=
  match parse_json (2 * String.length s + 2) PValue s with
  | Some (v, r) =>
      match lstrip is_json_ws r with
      | EmptyString => Ok v
      | _ => Exc JSONDecodeError
      end
  | None => Exc JSONDecodeError
  end.

(** ** The environment: the external services and the prompts

    The LLM completion and the HTTP call are oracles; their first argument
    is the number of calls made before, so that equal requests may get
    different answers. *)

Record Env : Type := mkEnv {
  fromisoformat : string -> res datetime;
  fromtimestamp_isoformat : Z -> string;
  json_loads : string -> res pyval;
  chat_completion : nat -> string -> string -> res (option string);
  http_post : nat -> string -> string -> bool;
  system_prompt : string;
  qa_link_system_prompt : string
}.

(** ** LLM ([src/llm.py]) *)

(** [self.client.chat.completions.create(...)], the content of its first
    choice. *)
Definition chat_completions_create (env : Env) (system_msg user_msg : string)
  : M (option string) :=
  fun w =>
    (chat_completion env (length (llm_log w)) system_msg user_msg,
     set_llm_log (fun l => l ++ [(system_msg, user_msg)]) w).

Definition classify_prompt (text : string) : string :=
  "Классифицируй следующий текст:" +:+ NL +:+ NL +:+ text.

Definition classify_text (env : Env) (text : string) : M pyval :=
  let* raw_content :=
    chat_completions_create env (system_prompt env) (classify_prompt text) in
  match raw_content with
  | None => raise TypeError
  | Some raw_content =>
      match brace_span raw_content with
      | Some json_str => lift (json_loads env json_str)
      | None => lift (json_loads env raw_content)
      end
  end.

(** [try: r except Exception: h] on a pure result. *)
Definition try_res {A} (r : res A) (h : exn -> res A) : res A :=
  match r with
  | Ok a => Ok a
  | Exc e => h e
  end.

Definition _parse_llm_json (env : Env) (raw_content : option string) : res pyval :=
  match raw_content with
  | None => Ok PNone
  | Some raw_content =>
      let content := strip raw_content in
      if negb (truthy content) then Ok PNone
      else
        let content :=
          match fenced_group content with
          | Some g => strip g
          | None => content
          end in
        let content := strip (strip_by is_backtick content) in
        if String.eqb (lower content) "null" || String.eqb (lower content) "none"
        then Ok PNone
        else try_res (json_loads env content) (fun _ => Ok PNone)
  end.

(** A merchant message as [_get_merchant_messages] lists it. *)
Record merchant_message : Type := mkMerchantMessage {
  mm_messages_id : option string;
  mm_user_id : option string;
  mm_username : option string;
  mm_text : option string;
  mm_end_ts : option string;
  mm_start_ts : option string;
  redis_stream_id : Z
}.

(** [f"{x}"] for an optional string. *)
Definition fmt (x : option string) : string := default "None" x.

Definition retry_note : string :=
  "Last attempt failed. Try again:" +:+ NL +:+ NL.

(** The loop [for _ in range(max_attempts)] of [match_answer_to_question]
    from attempt [i] on. *)
Fixpoint match_attempts (env : Env) (attempts : list nat) (user_msg : string)
    (last_parsed : pyval) : M pyval :=
  match attempts with
  | [] => ret last_parsed
  | i :: rest =>
      let user_msg := if (0 <? i)%nat then retry_note +:+ user_msg else user_msg in
      let* raw_content :=
        chat_completions_create env (qa_link_system_prompt env) user_msg in
      let* parsed_any := lift (_parse_llm_json env raw_content) in
      match parsed_any with
      | PDict d =>
          let matched := dict_lookup "matched_message_id" d in
          if match matched with PNone => true | _ => false end
             || isinstance_int matched
          then ret parsed_any
          else
            match_attempts env rest user_msg
              (PDict (dict_set "matched_message_id" PNone d))
      | _ => match_attempts env rest user_msg last_parsed
      end
  end.

(** The first user message of [match_answer_to_question]. *)
Definition qa_user_msg (messages : list merchant_message) (answer : string)
  : string :=
  let candidates_str :=
    join NL (map (fun m => py_str (redis_stream_id m) +:+ ": merchant: "
                           +:+ fmt (mm_text m)) messages) in
  let answer_str := "PP: " +:+ answer in
  "Candidates:" +:+ NL +:+ candidates_str +:+ NL +:+ NL +:+ "Answer:" +:+ NL
  +:+ answer_str +:+ NL +:+ NL +:+ "Return strict JSON only.".

Definition match_answer_to_question (env : Env)
    (messages : list merchant_message) (answer : string) : M pyval :=
  let user_msg := qa_user_msg messages answer in
  let max_attempts := 3%nat in
  match_attempts env (seq 0 max_attempts) user_msg
    (PDict [("matched_message_id", PNone)]).

(** ** Working-hours gate ([src/utils/time_manager.py]) *)

Definition time_leb (a b : time_of_day) : bool :=
  (tm_hour a <? tm_hour b)
  || ((tm_hour a =? tm_hour b)
      && ((tm_min a <? tm_min b)
          || ((tm_min a =? tm_min b) && (tm_sec a <=? tm_sec b)))).

Definition day_names : list string :=
  ["mon"; "tue"; "wed"; "thu"; "fri"; "sat"; "sun"].

Definition should_process_message_by_time (env : Env) (message_time : string)
    (chat_config : pinger_config) : res bool :=
  if negb (default true (enabled chat_config)) then Ok false
  else
    match fromisoformat env message_time with
    | Exc e => Exc e
    | Ok msg_dt =>
        let msg_time := dt_time msg_dt in
        let in_hours :=
          match start_time chat_config, end_time chat_config with
          | Some start, Some end_ => time_leb start msg_time && time_leb msg_time end_
          | _, _ => true
          end in
        if negb in_hours then Ok false
        else
          match nth_error day_names (dt_weekday msg_dt) with
          | None => Exc KeyError
          | Some current_day =>
              match days chat_config with
              | Some ds => if bool_decide (current_day ∈ ds) then Ok true else Ok false
              | None => Ok true
              end
          end
    end.

(** ** ProducerPinokIO ([src/producer.py]) *)

(** The fields of [IncomingFromMsRequest] that the router reads. *)
Record payload : Type := mkPayload {
  messages__id : string;
  messages__parent_message_id : option string;
  messages__user_id : string;
  messages__username : option string;
  messages__date : string;
  text_histories__text : option string;
  text_histories__change_id : option string;
  messages__chat_id : string
}.

(** The two shapes of the dictionary the router returns:
    [{"status": s, "reason": r}] and [{"status": s, "message_id": id}]. *)
Inductive response : Type :=
| Reason (status reason : string)
| MessageId (status : string) (message_id : Z).

Definition status_of (r : response) : string :=
  match r with
  | Reason s _ => s
  | MessageId s _ => s
  end.

(** [x or dflt] for an optional string. *)
Definition py_or (x : option string) (dflt : string) : string :=
  match x with
  | Some s => if truthy s then s else dflt
  | None => dflt
  end.

(** [self.CONFIG_CHATS[chat_id]] *)
Definition config_of (chat_id : string) : M chat_config :=
  fun w =>
    match CONFIG_CHATS w !! chat_id with
    | Some c => (Ok c, w)
    | None => (Exc KeyError, w)
    end.

Definition _get_merchant_messages (chat_id : string) : M (list merchant_message) :=
  let* final_messages := get_final_messages chat_id 50 in
  ret (omap (fun e : Z * gmap string string =>
              let '(stream_id, fields) := e in
              if bool_decide (fields !! "user_type" = Some "merchant")
              then Some (mkMerchantMessage (fields !! "messages_id")
                           (fields !! "user_id") (fields !! "username")
                           (fields !! "text") (fields !! "end_ts")
                           (fields !! "start_ts") stream_id)
              else None) final_messages).

Definition _ensure_worker_for_chat (chat_id : string) : M unit :=
  try_except
    (let* cfg := config_of chat_id in
     let window_cfg := default 20 (redis_buffer_window (pinger cfg)) in
     set_window chat_id window_cfg)
    (fun _ => ret tt) >>
  let* st := get_chat_status chat_id in
  if negb (worker_running st) then start_worker chat_id else ret tt.

(** The record that replaces the final message [fields] when [text] is
    appended to it at time [now]. *)
Definition combined_entry (now : Z) (user_id username text : string)
    (fields : gmap string string) : gmap string string :=
  let existing_text := dict_get fields "text" EmptyString in
  let new_text :=
    if truthy existing_text then existing_text +:+ NL +:+ text else text in
  let start_ts := fields !! "start_ts" in
  let last_ts := now in
  let count_prev :=
    match py_int (dict_get fields "count" "1") with
    | Ok c => c
    | Exc _ => 1
    end in
  let new_count := py_str (count_prev + 1) in
  <["user_id" := user_id]> (
  <["messages_id" := dict_get fields "messages_id" EmptyString]> (
  <["username" := if truthy username then username
                  else dict_get fields "username" "unknown"]> (
  <["user_type" := "merchant"]> (<["text" := new_text]> (
  <["start_ts" := fmt start_ts]> (<["end_ts" := py_str last_ts]> (
  <["count" := new_count]> (<["type" := "long"]> ∅)))))))).

Definition _append_to_last_long_for_user (now : Z)
    (chat_id user_id username text : string) : M (option Z) :=
  let* final_messages := get_final_messages chat_id 100 in
  match List.find (fun e : Z * gmap string string =>
                     bool_decide (e.2 !! "user_type" = Some "merchant")
                     && bool_decide (e.2 !! "user_id" = Some user_id))
          final_messages with
  | None => ret None
  | Some (old_stream_id, fields) =>
      let new_entry := combined_entry now user_id username text fields in
      let* new_id := redis_xadd_final chat_id new_entry in
      modify (set_final_stream (xdel chat_id old_stream_id)) >>
      ret (Some new_id)
  end.

Definition process_message_if_reply_exist
    (chat_id : string) (redis_message_id : Z) (parent_message_id : string)
  : M unit :=
  modify (set_raw_stream (xdel chat_id redis_message_id)) >>
  let* final_messages := get_final_messages chat_id 100 in
  match List.find (fun e : Z * gmap string string =>
                     bool_decide (e.2 !! "messages_id" = Some parent_message_id))
          final_messages with
  | Some (stream_id, _) => modify (set_final_stream (xdel chat_id stream_id))
  | None => ret tt
  end.

(** The id argument of [XDEL]: the client library encodes an integer and
    refuses the other values; the server refuses a negative id. *)
Definition redis_id_of (v : pyval) : res Z :=
  match v with
  | PInt z => if z <? 0 then Exc ResponseError else Ok z
  | _ => Exc DataError
  end.

Definition process_message_with_pp_response (env : Env)
    (chat_id : string) (redis_message_id : Z) (username text : string) : M unit :=
  modify (set_raw_stream (xdel chat_id redis_message_id)) >>
  let* current_merchant_messages := _get_merchant_messages chat_id in
  match current_merchant_messages with
  | [] => ret tt
  | _ =>
      let* outcome := match_answer_to_question env current_merchant_messages text in
      let matched_local_id :=
        match outcome with
        | PDict d => dict_lookup "matched_message_id" d
        | _ => PNone
        end in
      match matched_local_id with
      | PNone => ret tt
      | _ =>
          let* id := lift (redis_id_of matched_local_id) in
          modify (set_final_stream (xdel chat_id id))
      end
  end.

(** [post_httpx_request] to the Kafka sender: the request goes out, and a
    failure raises. *)
Definition post_httpx_request (env : Env) (about : option (string * Z))
    (chats__id text : string) : M unit :=
  fun w =>
    let ok := http_post env (length (outbox w)) chats__id text in
    (if ok then Ok tt else Exc RuntimeError,
     set_outbox (fun l => l ++ [mkSent about chats__id text ok]) w).

Definition reminder_text (cfg : chat_config) (username text : string)
    (age_seconds : Z) : string :=
  let message_timeout := default 30 (message_timeout (pinger cfg)) in
  "[PINOKIO] [" +:+ input_chat_name cfg +:+ "] Напоминание для "
  +:+ join " @" (whitelist (pinger cfg)) +:+ ": " +:+ NL
  +:+ "Сообщение от @" +:+ username +:+ " висит уже " +:+ py_str age_seconds
  +:+ " секунд (таймаут " +:+ py_str message_timeout +:+ "):" +:+ NL +:+ NL
  +:+ "Текст сообщения:  " +:+ NL +:+ text +:+ NL.

Definition send_message (env : Env) (chat_id : string)
    (message : merchant_message) (age_seconds : Z) : M unit :=
  let username := fmt (mm_username message) in
  let text := fmt (mm_text message) in
  let* cfg := config_of chat_id in
  let output_text := reminder_text cfg username text age_seconds in
  try_except
    (post_httpx_request env (Some (chat_id, redis_stream_id message))
       (pinger_output_chat_id (pinger cfg)) output_text)
    (fun _ => ret tt) >>
  (* a stream id is a non-empty string, so [if redis_stream_id] holds *)
  modify (set_final_stream (xdel chat_id (redis_stream_id message))).

Definition silence_text (cfg : chat_config) (silence_duration : Z) : string :=
  "[PINOKIO] [" +:+ input_chat_name cfg +:+ "] Уведомление о тишине! " +:+ NL
  +:+ "Во входящем чате нет сообщений в очереди уже "
  +:+ py_str silence_duration +:+ " секунд." +:+ NL
  +:+ "Возможно, стоит проверить активность в чате.".

Definition send_silence_notification (env : Env) (chat_id : string)
    (silence_duration : Z) : M unit :=
  let* cfg := config_of chat_id in
  let output_text := silence_text cfg silence_duration in
  try_except
    (post_httpx_request env None (silencer_output_chat_id (silencer cfg))
       output_text)
    (fun _ => ret tt).

(** The reminder branch of [_check_pending_messages]: its loop over the
    merchant messages of one chat. *)
Definition remind_one (env : Env) (current_time : Z) (chat_id : string)
    (msg : merchant_message) : M unit :=
  let* end_ts :=
    match mm_end_ts msg with
    | Some end_ts_str => lift (py_float end_ts_str)
    | None => raise TypeError
    end in
  let age_seconds := int_seconds (current_time - end_ts) in
  let* cfg := config_of chat_id in
  let message_timeout := default 30 (message_timeout (pinger cfg)) in
  if message_timeout <? age_seconds
  then send_message env chat_id msg age_seconds
  else ret tt.

Definition reminder_branch (env : Env) (current_time : Z) (chat_id : string)
    (merchant_messages : list merchant_message) : M unit :=
  for_each merchant_messages (remind_one env current_time chat_id).

Definition silence_branch (env : Env) (current_time : Z) (chat_id : string)
    (merchant_messages : list merchant_message) : M unit :=
  let* cfg := config_of chat_id in
  let silence_mode := silencer_enabled (silencer cfg) in
  let* should_process :=
    lift (should_process_message_by_time env
            (fromtimestamp_isoformat env current_time) (pinger cfg)) in
  if silence_mode && should_process then
    match merchant_messages with
    | _ :: _ =>
        modify (set_last_silence_notification <[chat_id := current_time]>)
    | [] =>
        let* last_notification := gets (fun w => last_silence_notification w !! chat_id) in
        let silence_timeout := default 90 (silence_timeout (silencer cfg)) in
        match last_notification with
        | Some last =>
            if seconds silence_timeout <? current_time - last then
              send_silence_notification env chat_id silence_timeout >>
              modify (set_last_silence_notification <[chat_id := current_time]>)
            else ret tt
        | None => ret tt
        end
    end
  else ret tt.

(** The body of the loop of [_check_pending_messages] for one chat. *)
Definition check_pending_chat (env : Env) (current_time : Z)
    (entry : string * chat_status) : M unit :=
  let '(chat_id, chat_status) := entry in
  if negb (worker_running chat_status) then ret tt
  else
    let* merchant_messages := _get_merchant_messages chat_id in
    silence_branch env current_time chat_id merchant_messages >>
    reminder_branch env current_time chat_id merchant_messages.

Definition _check_pending_messages (env : Env) (now : Z) : M unit :=
  let current_time := now in
  let* all_chats := get_all_chats_status in
  for_each all_chats (check_pending_chat env current_time).

Definition process_incoming_message (env : Env) (now : Z) (p : payload)
  : M response :=
  let chat_id := messages__chat_id p in
  let* known := gets (fun w => CONFIG_CHATS w !! chat_id) in
  match known with
  | None => ret (Reason "ignored" "chat_not_found")
  | Some cfg =>
      let* in_time :=
        lift (should_process_message_by_time env (messages__date p) (pinger cfg)) in
      if negb in_time then ret (Reason "blocked" "time_blocked")
      else if text_histories__change_id p is Some _
      then ret (Reason "ignored" "change message")
      else
        (if silencer_enabled (silencer cfg)
         then modify (set_last_silence_notification <[chat_id := now]>)
         else ret tt) >>
        _ensure_worker_for_chat chat_id >>
        let messages_id := messages__id p in
        let user_id := messages__user_id p in
        let username := py_or (messages__username p) "unknown" in
        let text := py_or (text_histories__text p) EmptyString in
        let whitelist := whitelist (pinger cfg) in
        let bot_enabled := bot_enabled (pinger cfg) in
        let* default_bot := gets DEFAULT_USER_ID_BOT in
        let pp_path :=
          let* redis_message_id :=
            add_message now chat_id messages_id user_id username "pp" text None in
          match messages__parent_message_id p with
          | Some parent =>
              process_message_if_reply_exist chat_id redis_message_id parent >>
              ret (MessageId "in processing" redis_message_id)
          | None =>
              process_message_with_pp_response env chat_id redis_message_id
                username text >>
              ret (MessageId "in processing" redis_message_id)
          end in
        if bool_decide (("@" +:+ username) ∈ whitelist) then pp_path
        else if String.eqb user_id default_bot then
          if negb bot_enabled then ret (Reason "ignored" "bot_disabled")
          else pp_path
        else
          let* st := get_chat_status chat_id in
          let active_series := active_series st in
          if negb (bool_decide (active_series = ∅))
             && bool_decide (active_series !! "user_id" = Some user_id)
          then
            let* redis_message_id :=
              add_message now chat_id messages_id user_id username "merchant" text None in
            ret (MessageId "in processing" redis_message_id)
          else
            let* appended_id :=
              _append_to_last_long_for_user now chat_id user_id username text in
            match appended_id with
            | Some id => ret (MessageId "in processing" id)
            | None =>
                let* need_response := classify_text env text in
                match need_response with
                | PDict d =>
                    if eq_one (dict_lookup "class" d) then
                      let* redis_message_id :=
                        add_message now chat_id messages_id user_id username
                          "merchant" text None in
                      ret (MessageId "in processing" redis_message_id)
                    else ret (Reason "ignored" "no_response_needed")
                | _ => raise AttributeError
                end
            end
  end.

(** ** A sample deployment, for concrete runs *)

Definition demo_pinger : pinger_config :=
  mkPinger ["@opA"] false (Some 30) (Some 2) "out-reminders" (Some true)
    (Some (mkTime 9 0 0)) (Some (mkTime 17 0 0))
    (Some ["mon"; "tue"; "wed"; "thu"; "fri"]).

Definition demo_config : chat_config :=
  mkChatConfig "Support" demo_pinger (mkSilencer true (Some 90) "out-silence").

(** The empty store of a freshly started service with one configured chat. *)
Definition world0 : World :=
  mkWorld ∅ ∅ ∅ ∅ ∅ ∅ 0 2 64 [] [] {["c1" := demo_config]} "bot" ∅ [] [].

(** After merchant [u1] sent the text [a] at second 10 (window 2 s). *)
Definition world1 : World :=
  (process_message (seconds 10) "c1" "m1" "u1" "alice" "merchant" "a" (Some 2)
     world0).2.

Definition series1 : series :=
  mkSeries "u1" "m1" "alice" "merchant" "a" (seconds 10) (seconds 10) 1.

(** The Redis store of two worlds is the same. *)
Definition same_store (w w' : World) : Prop :=
  raw_stream w' = raw_stream w ∧ final_stream w' = final_stream w ∧
  agg_hash w' = agg_hash w ∧ sched_zset w' = sched_zset w ∧
  conf_hash w' = conf_hash w ∧ metrics_hash w' = metrics_hash w ∧
  last_stream_id w' = last_stream_id w.

(** The windows of the sample deployment: two seconds for every chat. *)
Definition demo_windows : string -> Z := fun _ => 2.

(** ** Notions the properties of the LLM handling speak of *)



Fixpoint has_char (c : ascii) (s : string) : bool :=
  match s with
  | EmptyString => false
  | String a s' => Ascii.eqb a c || has_char c s'
  end.

Definition brace_free (s : string) : Prop :=
  has_char "{"%char s = false ∧ has_char "}"%char s = false.

(** A string quoted for JSON (no escapes needed). *)
Definition q (s : string) : string := String DQ s +:+ String DQ EmptyString.

Definition demo_fromisoformat (s : string) : res datetime :=
  if String.eqb s "2025-01-15 10:00:00" then Ok (mkDatetime 2 (mkTime 10 0 0))
  else if String.eqb s "2025-01-18 10:00:00" then Ok (mkDatetime 5 (mkTime 10 0 0))
  else if String.eqb s "2025-01-15T10:00:30" then Ok (mkDatetime 2 (mkTime 10 0 30))
  else Exc ValueError.

(** An environment whose LLM gives the listed replies in turn and whose
    Kafka sender answers or fails as [http_ok] says. *)
Definition demo_env (replies : list (option string)) (http_ok : bool) : Env :=
  mkEnv demo_fromisoformat (fun _ => "2025-01-15T10:00:30") json_loads_model
    (fun n _ _ => match nth_error replies n with
                  | Some r => Ok r
                  | None => Exc APIError
                  end)
    (fun _ _ _ => http_ok) "system prompt" "qa link prompt".



(** The final message is a merchant's message of the user. *)
Definition merchant_final_of (user_id : string) (e : Z * gmap string string) : Prop :=
  e.2 !! "user_type" = Some "merchant" ∧ e.2 !! "user_id" = Some user_id.

(** A store whose final stream holds one merchant message with empty text. *)
Definition world_empty_text : World :=
  (_flush_series (seconds 13) "c1" None
     (process_message (seconds 10) "c1" "m1" "u1" "alice" "merchant" EmptyString
        (Some 2) world0).2).2.


(** The computation [m] leaves the component [f] of the world as it is,
    whether it returns or raises. *)
Definition keeps {A B} (f : World -> B) (m : M A) : Prop :=
  ∀ w, f (m w).2 = f w.

(** Every value [m] returns satisfies [P]. *)
Definition returns {A} (P : A -> Prop) (m : M A) : Prop :=
  ∀ w a w', m w = (Ok a, w') -> P a.

(** The store of [world1] after its series was flushed at second 13. *)
Definition world2 : World := (_flush_series (seconds 13) "c1" None world1).2.

(** An event of the whitelisted operator on a Wednesday morning. *)
Definition demo_pp_event : payload :=
  mkPayload "m9" None "u9" (Some "opA") "2025-01-15 10:00:00" (Some "done")
    None "c1".

(** An event on a Saturday, outside the working days of the chat. *)
Definition demo_saturday_event : payload :=
  mkPayload "m8" None "u1" (Some "alice") "2025-01-18 10:00:00" (Some "hello")
    None "c1".

(** ** Notions the properties of the escalation monitor speak of *)

(** The message's [end_ts], when it is there and readable. *)
Definition end_ts_of (m : merchant_message) : option Z :=
  match mm_end_ts m with
  | Some s => match py_float s with Ok z => Some z | Exc _ => None end
  | None => None
  end.

(** The monitor reminds of the message: the whole seconds since its
    [end_ts] exceed the chat's message timeout. *)
Definition overdue (cfg : chat_config) (now : Z) (m : merchant_message) : bool :=
  match end_ts_of m with
  | Some end_ts =>
      default 30 (message_timeout (pinger cfg)) <? int_seconds (now - end_ts)
  | None => false
  end.

(** The reminder the monitor posts for an overdue message. *)
Definition reminder_of (env : Env) (cfg : chat_config) (now : Z) (chat_id : string)
    (n : nat) (m : merchant_message) : sent :=
  let text :=
    reminder_text cfg (fmt (mm_username m)) (fmt (mm_text m))
      (int_seconds (now - default 0 (end_ts_of m))) in
  mkSent (Some (chat_id, redis_stream_id m)) (pinger_output_chat_id (pinger cfg)) text
    (http_post env n (pinger_output_chat_id (pinger cfg)) text).

(** The reminders for a list of overdue messages, the first being request
    number [n]. *)
Fixpoint reminders_of (env : Env) (cfg : chat_config) (now : Z) (chat_id : string)
    (n : nat) (ms : list merchant_message) : list sent :=
  match ms with
  | [] => []
  | m :: ms' =>
      reminder_of env cfg now chat_id n m
      :: reminders_of env cfg now chat_id (S n) ms'
  end.

(** The ids of the final messages of a chat. *)
Definition final_ids (w : World) (chat_id : string) : list Z :=
  (default [] (final_stream w !! chat_id)).*1.

(** The final messages a reminder went out for, oldest reminder first. *)
Definition reminded (w : World) : list (string * Z) := omap sent_about (outbox w).

(** Stream ids are fresh and reminded messages are gone. *)
Record tidy (w : World) : Prop := mkTidy {
  tidy_bound : ∀ c id, id ∈ final_ids w c -> id <= last_stream_id w;
  tidy_nodup : ∀ c, NoDup (final_ids w c);
  tidy_reminded_bound : ∀ c id, (c, id) ∈ reminded w -> id <= last_stream_id w;
  tidy_reminded_gone : ∀ c id, (c, id) ∈ reminded w -> id ∉ final_ids w c;
  tidy_once : NoDup (reminded w)
}.

(** The computation [m] keeps the world tidy, whether it returns or raises. *)
Definition tame {A} (m : M A) : Prop := ∀ w, tidy w -> tidy (m w).2.

(** The operations of the service, as the threads of the process run them. *)
Inductive op : Type :=
| Incoming (now : Z) (p : payload)
| Process (now : Z) (chat_id messages_id user_id username user_type text : string)
    (window_seconds : option Z)
| Flush (now : Z) (chat_id : string) (current_time : option Z)
| Tick (now : Z) (max_batch : option Z)
| Monitor (now : Z).

Definition step (env : Env) (o : op) (w : World) : World :=
  match o with
  | Incoming now p => (process_incoming_message env now p w).2
  | Process now c mid uid un ut tx ws => (process_message now c mid uid un ut tx ws w).2
  | Flush now c ct => (_flush_series now c ct w).2
  | Tick now mb => (scheduler_tick now mb w).2
  | Monitor now => (_check_pending_messages env now w).2
  end.

Definition run (env : Env) (ops : list op) (w : World) : World :=
  fold_left (fun w o => step env o w) ops w.

(** [world2] with the worker of the chat running. *)
Definition world3 : World := (start_worker "c1" world2).2.

(** ** RedisClient: forced flushes, shutdown and clean-up *)

Definition foREDIS_CLIENTe_flush_chat (now : Z) (chat_id : string) : M (option Z) :=
  _flush_series now chat_id None.

(** The loop of [_flush_all]; [results] is the dictionary it fills. *)
Fixpoint flush_each (now : Z) (chats : list string)
    (results : list (string * option Z)) : M (list (string * option Z)) :=
  match chats with
  | [] => ret results
  | chat_id :: rest =>
      let* r := _flush_series now chat_id None in
      flush_each now rest (results ++ [(chat_id, r)])
  end.

Definition _flush_all (now : Z) : M (list (string * option Z)) :=
  let* all_chats := gets (fun w => zrange_all (sched_zset w)) in
  flush_each now all_chats [].

(** [del d[k]] on the keys of an in-memory dictionary. *)
Definition del_key (k : string) (keys : list string) : list string :=
  filter (fun x => x ≠ k) keys.

Definition stop_worker (chat_id : string) : M unit :=
  let* running := gets (fun w => bool_decide (chat_id ∈ _stop_events w)) in
  if negb running then ret tt
  else
    modify (set_stop_events (del_key chat_id)) >>
    let* locked := gets (fun w => bool_decide (chat_id ∈ _flush_locks w)) in
    if locked then modify (set_flush_locks (del_key chat_id)) else ret tt.

(** The scheduler thread is registered under the key ["scheduler"] of the
    same dictionary as the workers. *)
Definition start_scheduler : M unit :=
  let* running := gets (fun w => bool_decide ("scheduler" ∈ _stop_events w)) in
  if running then ret tt
  else modify (set_stop_events (fun l => l ++ ["scheduler"])).

Definition stop_scheduler : M unit :=
  let* running := gets (fun w => bool_decide ("scheduler" ∈ _stop_events w)) in
  if negb running then ret tt
  else modify (set_stop_events (del_key "scheduler")).

Definition stop_all (now : Z) : M unit :=
  _flush_all now >>
  modify (set_stop_events (fun _ => [])) >>
  modify (set_flush_locks (fun _ => [])).

Definition get_raw_messages (chat_id : string) (count : nat)
  : M (list (Z * gmap string string)) :=
  gets (fun w => xrevrange (raw_stream w) chat_id count).

Definition reset_metrics (chat_id : string) : M unit :=
  modify (set_metrics_hash (delete chat_id)).

Definition cleanup_chat (now : Z) (chat_id : string) : M unit :=
  let* running := gets (fun w => bool_decide (chat_id ∈ _stop_events w)) in
  (if running then stop_worker chat_id else ret tt) >>
  foREDIS_CLIENTe_flush_chat now chat_id >>
  modify (set_raw_stream (delete chat_id)) >>
  modify (set_final_stream (delete chat_id)) >>
  modify (set_agg_hash (delete chat_id)) >>
  modify (set_conf_hash (delete chat_id)) >>
  modify (set_metrics_hash (delete chat_id)) >>
  modify (set_sched_zset (delete chat_id)).

(** ** The per-chat worker ([_chat_worker])

    The consumer group of a raw stream: the id of the last entry delivered
    to a consumer and the ids delivered but not yet acknowledged. *)
Record group : Type := mkGroup {
  last_delivered : Z;
  pending : list Z
}.

(** [XGROUP CREATE stream group 0-0]; an existing group is left alone. *)
Definition _ensure_consumer_group (g : option group) : group :=
  match g with
  | Some g => g
  | None => mkGroup 0 []
  end.

(** [XREADGROUP ... streams={raw: ">"} count=n]: the first [n] entries
    never delivered before; they become pending. *)
Definition xreadgroup (count : nat) (stream : list (Z * gmap string string))
    (g : group) : list (Z * gmap string string) * group :=
  let entries :=
    take count (filter (fun e : Z * gmap string string => last_delivered g < e.1)
                  stream) in
  (entries,
   mkGroup (List.last entries.*1 (last_delivered g)) (pending g ++ entries.*1)).

(** What one pass of the worker did with its batch. *)
Record worker_pass : Type := mkPass {
  attempted : list Z;      (* ids handed to [process_message] *)
  acked : list Z;          (* ids acknowledged *)
  pass_world : World;
  pass_group : group
}.

(** The loop over the entries of a batch; [now id] is the clock reading
    when the entry [id] is processed.  An exception ends the pass. *)
Fixpoint worker_entries (now : Z -> Z) (chat_id : string)
    (entries : list (Z * gmap string string)) (w : World) (g : group)
  : worker_pass :=
  match entries with
  | [] => mkPass [] [] w g
  | (message_id, fields) :: rest =>
      let user_id := dict_get fields "user_id" EmptyString in
      let messages_id := dict_get fields "messages_id" EmptyString in
      let username := dict_get fields "username" EmptyString in
      let user_type := dict_get fields "user_type" EmptyString in
      let text := dict_get fields "text" EmptyString in
      match process_message (now message_id) chat_id messages_id user_id username
              user_type text None w with
      | (Ok _, w') =>
          let g' := mkGroup (last_delivered g)
                      (filter (fun x => x ≠ message_id) (pending g)) in
          let p := worker_entries now chat_id rest w' g' in
          mkPass (message_id :: attempted p) (message_id :: acked p)
            (pass_world p) (pass_group p)
      | (Exc _, w') => mkPass [message_id] [] w' g
      end
  end.

(** One turn of the loop of [_chat_worker]. *)
Definition worker_turn (now : Z -> Z) (chat_id : string) (w : World) (g : group)
  : worker_pass :=
  let '(entries, g') := xreadgroup 64 (default [] (raw_stream w !! chat_id)) g in
  worker_entries now chat_id entries w g'.

(** The turns of a worker; between two turns the other threads change the
    world, so each turn finds the world given for it. *)
Fixpoint worker_turns (now : Z -> Z) (chat_id : string) (worlds : list World)
    (g : group) : list Z :=
  match worlds with
  | [] => []
  | w :: rest =>
      let p := worker_turn now chat_id w g in
      attempted p ++ worker_turns now chat_id rest (pass_group p)
  end.

(** ** Bursts of messages *)

(** A raw event of one author, with the clock reading at which the worker
    processes it. *)
Record event : Type := mkEvent {
  ev_now : Z;
  ev_messages_id : string;
  ev_username : string;
  ev_user_type : string;
  ev_text : string
}.

(** [process_message] on the events of the author [user_id], in turn. *)
Fixpoint process_all (chat_id user_id : string) (window_seconds : option Z)
    (es : list event) (w : World) : World :=
  match es with
  | [] => w
  | e :: es' =>
      process_all chat_id user_id window_seconds es'
        (process_message (ev_now e) chat_id (ev_messages_id e) user_id
           (ev_username e) (ev_user_type e) (ev_text e) window_seconds w).2
  end.

(** Each event comes at most [win] seconds after the one before it, the
    first at most [win] seconds after [last]. *)
Fixpoint within_window (win : Z) (last : Z) (es : list event) : Prop :=
  match es with
  | [] => True
  | e :: es' => ev_now e - last <= seconds win ∧ within_window win (ev_now e) es'
  end.

(** Three messages of one merchant within two seconds of each other. *)
Definition demo_burst : list event :=
  [mkEvent (seconds 10) "m1" "alice" "merchant" "a";
   mkEvent (seconds 11) "m2" "alice" "merchant" "b";
   mkEvent (seconds 11 + 500000) "m3" "alice" "merchant" "c"].

(** ** Final streams that only grow, or only shrink *)

(** Every run of [m] takes a world to one related to it by [R], whether it
    returns or raises. *)
Definition steps {A} (R : World -> World -> Prop) (m : M A) : Prop :=
  ∀ w, R w (m w).2.

(** From [w] to [w'] final messages were only appended: what a final stream
    held is still there, in the same place, and no stream id was taken
    back. *)
Definition finals_grow (w w' : World) : Prop :=
  (∀ c, default [] (final_stream w !! c) `prefix_of` default [] (final_stream w' !! c))
  ∧ last_stream_id w <= last_stream_id w'.

(** From [w] to [w'] final messages were only deleted. *)
Definition finals_shrink (w w' : World) : Prop :=
  ∀ c, default [] (final_stream w' !! c) `sublist_of` default [] (final_stream w !! c).

(** * Properties *)

(** ** Conversions *)

Lemma py_float_str (z : Z) : py_float (py_str z) = Ok z.
Proof.
  unfold py_float, py_str.
  rewrite NilZero.isi.
  - by rewrite DecimalZ.of_to.
  - destruct z; simpl; try discriminate.
    intros [= H]. by apply DecimalPos.Unsigned.to_uint_nonnil in H.
  - destruct z; simpl; try discriminate.
    intros [= H]. by apply DecimalPos.Unsigned.to_uint_nonnil in H.
Qed.

Lemma num_field_insert_eq h k z : num_field (<[k := py_str z]> h) k = Some z.
Proof. unfold num_field. by rewrite lookup_insert_eq, py_float_str. Qed.

Lemma num_field_insert_ne h k k' v : k' ≠ k -> num_field (<[k' := v]> h) k = num_field h k.
Proof. intros. unfold num_field. by rewrite lookup_insert_ne. Qed.

Lemma series_of_fields h s :
  series_of h = Some s ->
  h !! "user_id" = Some (s_user_id s) ∧
  h !! "messages_id" = Some (s_messages_id s) ∧
  h !! "username" = Some (s_username s) ∧
  h !! "user_type" = Some (s_user_type s) ∧
  h !! "text" = Some (s_text s) ∧
  num_field h "start_ts" = Some (s_start_ts s) ∧
  num_field h "last_ts" = Some (s_last_ts s) ∧
  num_field h "count" = Some (s_count s).
Proof.
  unfold series_of. intros H.
  repeat match type of H with
         | context [match ?o with _ => _ end] => destruct o; try discriminate
         end.
  by injection H as <-.
Qed.

Lemma series_of_nonempty h s : series_of h = Some s -> h ≠ ∅.
Proof.
  intros H ->. unfold series_of in H. by rewrite lookup_empty in H.
Qed.

Lemma num_field_float h k z dflt :
  num_field h k = Some z -> float_field h k dflt = Ok z.
Proof.
  unfold num_field, float_field. destruct (h !! k); [|done].
  by destruct (py_float s); intros [= ->].
Qed.

Lemma num_field_int h k z dflt :
  num_field h k = Some z -> py_int (dict_get h k dflt) = Ok z.
Proof.
  unfold num_field, dict_get, py_int. destruct (h !! k); [|done]. simpl.
  by destruct (py_float s); intros [= ->].
Qed.

(** ** Flushing a series *)

Lemma flush_no_series w now chat_id current_time :
  hgetall (agg_hash w) chat_id = ∅ ->
  _flush_series now chat_id current_time w
  = (Ok None, set_flush_locks (lock_taken chat_id) w).
Proof.
  intros H. unfold _flush_series, ensure_flush_lock, bind, modify, gets. simpl.
  by rewrite H.
Qed.

Lemma flush_a_series w now chat_id current_time s :
  series_of (hgetall (agg_hash w) chat_id) = Some s ->
  _flush_series now chat_id current_time w
  = (Ok (Some (last_stream_id w + 1)), flushed chat_id s w).
Proof.
  intros H.
  pose proof (series_of_nonempty _ _ H) as Hne.
  destruct (series_of_fields _ _ H) as (Hu & Hm & Hn & Ht & Hx & Ha & Hb & Hc).
  unfold _flush_series, ensure_flush_lock, bind, modify, gets. simpl.
  rewrite bool_decide_eq_false_2 by done.
  rewrite (num_field_float _ _ _ _ Ha), (num_field_float _ _ _ _ Hb).
  rewrite (num_field_int _ _ _ _ Hc).
  unfold dict_get. rewrite Hu, Hm, Hn, Ht, Hx. reflexivity.
Qed.

(** ** Processing a message *)

Lemma get_window_state chat_id w : (get_window chat_id w).2 = w.
Proof.
  unfold get_window, bind, gets, lift.
  destruct (hgetall (conf_hash w) chat_id !! "window_s") as [v|]; [|done].
  by destruct (truthy v).
Qed.

Lemma resolve_window w chat_id window_seconds win :
  window_is w chat_id window_seconds win ->
  match window_seconds with
  | None => get_window chat_id
  | Some x => ret x
  end w = (Ok win, w).
Proof.
  destruct window_seconds as [x|]; simpl.
  - by intros ->.
  - intros H. pose proof (get_window_state chat_id w) as Hs.
    destruct (get_window chat_id w) as [r w']. simpl in *. by subst.
Qed.

Lemma process_message_no_series w now chat_id mid uid uname utype text ws win :
  window_is w chat_id ws win ->
  hgetall (agg_hash w) chat_id = ∅ ->
  process_message now chat_id mid uid uname utype text ws w
  = (Ok tt, stored chat_id (new_series_data now mid uid uname utype text)
              (now + seconds win) w).
Proof.
  intros Hw H. unfold process_message, bind at 1.
  rewrite (resolve_window _ _ _ _ Hw).
  unfold bind, gets, modify, _schedule_deadline. simpl.
  by rewrite H.
Qed.

Lemma process_message_extend w now chat_id mid uid uname utype text ws win s :
  window_is w chat_id ws win ->
  series_of (hgetall (agg_hash w) chat_id) = Some s ->
  s_user_id s = uid -> now - s_last_ts s <= seconds win ->
  process_message now chat_id mid uid uname utype text ws w
  = (Ok tt, stored chat_id (update_data s text now) (now + seconds win) w).
Proof.
  intros Hw H Hu Hin.
  pose proof (series_of_nonempty _ _ H) as Hne.
  destruct (series_of_fields _ _ H) as (Hu' & _ & _ & _ & Hx & _ & Hb & Hc).
  unfold process_message, bind at 1.
  rewrite (resolve_window _ _ _ _ Hw).
  unfold bind, gets, modify, lift, _schedule_deadline. simpl.
  rewrite bool_decide_eq_false_2 by done.
  rewrite (num_field_float _ _ _ _ Hb).
  rewrite bool_decide_eq_true_2 by congruence.
  rewrite (proj2 (Z.leb_le _ _) Hin). simpl.
  rewrite (num_field_int _ _ _ _ Hc).
  unfold dict_get. rewrite Hx. reflexivity.
Qed.

Lemma process_message_flush w now chat_id mid uid uname utype text ws win s :
  window_is w chat_id ws win ->
  series_of (hgetall (agg_hash w) chat_id) = Some s ->
  ¬ (s_user_id s = uid ∧ now - s_last_ts s <= seconds win) ->
  process_message now chat_id mid uid uname utype text ws w
  = (Ok tt, stored chat_id (new_series_data now mid uid uname utype text)
              (now + seconds win) (flushed chat_id s w)).
Proof.
  intros Hw H Hn.
  pose proof (series_of_nonempty _ _ H) as Hne.
  destruct (series_of_fields _ _ H) as (Hu' & _ & _ & _ & Hx & _ & Hb & Hc).
  unfold process_message, bind at 1.
  rewrite (resolve_window _ _ _ _ Hw).
  unfold bind at 1, gets at 1.
  rewrite bool_decide_eq_false_2 by done.
  unfold bind at 1, lift at 1.
  rewrite (num_field_float _ _ _ _ Hb).
  assert (bool_decide (hgetall (agg_hash w) chat_id !! "user_id" = Some uid)
          && (now - s_last_ts s <=? seconds win) = false) as ->.
  { apply andb_false_iff.
    destruct (decide (s_user_id s = uid)) as [He|He].
    - right. apply Z.leb_gt. apply Z.nle_gt. intros Hle. by apply Hn.
    - left. apply bool_decide_eq_false_2. congruence. }
  unfold bind at 1. rewrite (flush_a_series _ _ _ _ _ H).
  reflexivity.
Qed.

Lemma hgetall_hset_eq hs k m : hgetall (hset k m hs) k = m ∪ hgetall hs k.
Proof. unfold hset, hgetall at 1. by rewrite lookup_insert_eq. Qed.

Lemma hgetall_hset_ne hs k k' m : k ≠ k' -> hgetall (hset k m hs) k' = hgetall hs k'.
Proof. intros. unfold hset, hgetall. by rewrite lookup_insert_ne. Qed.

Lemma hgetall_delete_eq hs k : hgetall (delete k hs) k = ∅.
Proof. unfold hgetall. by rewrite lookup_delete_eq. Qed.

Lemma hgetall_delete_ne hs k k' : k ≠ k' -> hgetall (delete k hs) k' = hgetall hs k'.
Proof. intros. unfold hgetall. by rewrite lookup_delete_ne. Qed.

Lemma series_of_new now mid uid uname utype text :
  series_of (new_series_data now mid uid uname utype text)
  = Some (mkSeries uid mid uname utype text now now 1).
Proof.
  unfold series_of, num_field, new_series_data.
  simplify_map_eq. by rewrite !py_float_str.
Qed.

Lemma series_of_update s text now h :
  series_of h = Some s ->
  series_of (update_data s text now ∪ h)
  = Some (mkSeries (s_user_id s) (s_messages_id s) (s_username s) (s_user_type s)
            (join_text (s_text s) text) (s_start_ts s) now (s_count s + 1)).
Proof.
  intros H.
  destruct (series_of_fields _ _ H) as (Hu & Hm & Hn & Ht & Hx & Ha & Hb & Hc).
  assert (∀ k, update_data s text now !! k = None ->
            (update_data s text now ∪ h) !! k = h !! k) as Hr
    by (intros; by apply lookup_union_r).
  assert (∀ k v, update_data s text now !! k = Some v ->
            (update_data s text now ∪ h) !! k = Some v) as Hl
    by (intros; by apply lookup_union_Some_l).
  unfold series_of, num_field in *.
  rewrite (Hr "user_id"), (Hr "messages_id"), (Hr "username"), (Hr "user_type"),
    (Hr "start_ts") by done.
  rewrite (Hl "text" (join_text (s_text s) text)) by done.
  rewrite (Hl "last_ts" (py_str now)) by done.
  rewrite (Hl "count" (py_str (s_count s + 1))) by done.
  rewrite Hu, Hm, Hn, Ht, Ha, !py_float_str. reflexivity.
Qed.

(** ** The deadline invariant *)

Lemma Inv_empty W w : agg_hash w = ∅ -> sched_zset w = ∅ -> Inv W w.
Proof.
  intros Ha Hs c. unfold deadline_ok, hgetall. rewrite Ha, Hs, lookup_empty. simpl.
  rewrite decide_True by done. apply lookup_empty.
Qed.

Lemma Inv_series W w c :
  Inv W w -> hgetall (agg_hash w) c ≠ ∅ ->
  ∃ s, series_of (hgetall (agg_hash w) c) = Some s.
Proof.
  intros HI Hne. specialize (HI c). unfold deadline_ok in HI.
  rewrite decide_False in HI by done. destruct HI as (s & _ & ? & _). eauto.
Qed.

Lemma Inv_ext W w w' :
  agg_hash w' = agg_hash w -> sched_zset w' = sched_zset w -> Inv W w -> Inv W w'.
Proof. intros Ha Hs HI c. specialize (HI c). unfold deadline_ok in *. by rewrite Ha, Hs. Qed.

Lemma Inv_stored W w c0 h t s :
  Inv W w ->
  series_of (h ∪ hgetall (agg_hash w) c0) = Some s ->
  s_last_ts s <= t -> t <= s_last_ts s + seconds (W c0) ->
  Inv W (stored c0 h t w).
Proof.
  intros HI Hs H1 H2 c. specialize (HI c). unfold deadline_ok in *. simpl.
  destruct (decide (c0 = c)) as [<-|Hne].
  - rewrite hgetall_hset_eq, lookup_insert_eq.
    rewrite decide_False by by eapply series_of_nonempty.
    by exists s, t.
  - by rewrite hgetall_hset_ne, lookup_insert_ne.
Qed.

Lemma Inv_flushed W w c0 s : Inv W w -> Inv W (flushed c0 s w).
Proof.
  intros HI c. specialize (HI c). unfold deadline_ok in *. simpl.
  destruct (decide (c0 = c)) as [<-|Hne].
  - rewrite hgetall_delete_eq, lookup_delete_eq. by rewrite decide_True.
  - by rewrite hgetall_delete_ne, lookup_delete_ne.
Qed.

Lemma seconds_nonneg n : 0 <= n -> 0 <= seconds n.
Proof. unfold seconds, ticks_per_second. lia. Qed.

Lemma process_message_Inv W w now chat_id mid uid uname utype text ws :
  0 <= W chat_id -> window_is w chat_id ws (W chat_id) -> Inv W w ->
  Inv W (process_message now chat_id mid uid uname utype text ws w).2.
Proof.
  intros H0 Hw HI. apply seconds_nonneg in H0.
  destruct (decide (hgetall (agg_hash w) chat_id = ∅)) as [He|Hne].
  - rewrite (process_message_no_series _ _ _ _ _ _ _ _ _ _ Hw He). simpl.
    eapply Inv_stored; [done| | |].
    + rewrite He, map_union_empty. apply series_of_new.
    + simpl; lia.
    + simpl; lia.
  - destruct (Inv_series _ _ _ HI Hne) as [s Hs].
    destruct (decide (s_user_id s = uid ∧ now - s_last_ts s <= seconds (W chat_id)))
      as [[Hu Hin]|Hn].
    + rewrite (process_message_extend _ _ _ _ _ _ _ _ _ _ _ Hw Hs Hu Hin). simpl.
      eapply Inv_stored; [done| | |].
      * by apply series_of_update.
      * simpl; lia.
      * simpl; lia.
    + rewrite (process_message_flush _ _ _ _ _ _ _ _ _ _ _ Hw Hs Hn). simpl.
      eapply Inv_stored; [by apply Inv_flushed| | |].
      * simpl. rewrite hgetall_delete_eq, map_union_empty. apply series_of_new.
      * simpl; lia.
      * simpl; lia.
Qed.

Lemma flush_series_Inv W w now chat_id current_time :
  Inv W w ->
  let w' := (_flush_series now chat_id current_time w).2 in
  Inv W w' ∧ hgetall (agg_hash w') chat_id = ∅ ∧ sched_zset w' !! chat_id = None.
Proof.
  intros HI.
  destruct (decide (hgetall (agg_hash w) chat_id = ∅)) as [He|Hne].
  - rewrite (flush_no_series _ _ _ _ He). simpl. split; [|split].
    + by eapply Inv_ext.
    + done.
    + specialize (HI chat_id). unfold deadline_ok in HI. by rewrite decide_True in HI.
  - destruct (Inv_series _ _ _ HI Hne) as [s Hs].
    rewrite (flush_a_series _ _ _ _ _ Hs). simpl. split; [|split].
    + by apply Inv_flushed.
    + apply hgetall_delete_eq.
    + apply lookup_delete_eq.
Qed.

Lemma flush_expired_Inv W now chats : ∀ w n,
  Inv W w -> Inv W (flush_expired now chats n w).2.
Proof.
  induction chats as [|c chats IH]; intros w n HI; simpl; [done|].
  unfold bind.
  pose proof (flush_series_Inv W w now c (Some now) HI) as [HI' _].
  destruct (_flush_series now c (Some now) w) as [[r|e] w']; simpl in *.
  - by apply IH.
  - done.
Qed.

Lemma scheduler_tick_Inv W w now max_batch :
  Inv W w -> Inv W (scheduler_tick now max_batch w).2.
Proof.
  intros HI. unfold scheduler_tick, bind at 1.
  assert (∃ n, match max_batch with
               | None => gets worker_max_batch
               | Some n => ret n
               end w = (Ok n, w)) as [n ->]
    by (destruct max_batch; eauto).
  unfold bind, gets. by apply flush_expired_Inv.
Qed.

(** ** The claims about the aggregator *)

(** C1. [process_message] on a chat with an active series [s]: when the
    author is the series' author and [now - last_ts <= window] (the bound
    included), the series is extended in place: its text becomes
    [s.text + "\n" + text] (no line feed after an empty text), its [last_ts]
    becomes [now], its count grows by one, the other fields stay, nothing is
    flushed, and the deadline is [now + window].  Otherwise the old series
    is flushed to the final stream and a fresh series with count 1 and
    [start_ts = last_ts = now] takes its place, with deadline
    [now + window]. *)
Theorem process_message_active_series
    w now chat_id mid uid uname utype text ws win s :
  window_is w chat_id ws win ->
  series_of (hgetall (agg_hash w) chat_id) = Some s ->
  let out := process_message now chat_id mid uid uname utype text ws w in
  out.1 = Ok tt ∧
  (s_user_id s = uid ∧ now - s_last_ts s <= seconds win ->
     series_of (hgetall (agg_hash out.2) chat_id)
     = Some (mkSeries (s_user_id s) (s_messages_id s) (s_username s)
               (s_user_type s) (join_text (s_text s) text) (s_start_ts s)
               now (s_count s + 1))
     ∧ sched_zset out.2 !! chat_id = Some (now + seconds win)
     ∧ final_stream out.2 = final_stream w) ∧
  (¬ (s_user_id s = uid ∧ now - s_last_ts s <= seconds win) ->
     final_stream out.2
     = xadd chat_id (last_stream_id w + 1) (final_message_of s) (final_stream w)
     ∧ series_of (hgetall (agg_hash out.2) chat_id)
       = Some (mkSeries uid mid uname utype text now now 1)
     ∧ sched_zset out.2 !! chat_id = Some (now + seconds win)).
Proof.
  intros Hw Hs out.
  destruct (decide (s_user_id s = uid ∧ now - s_last_ts s <= seconds win))
    as [[Hu Hin]|Hn].
  - subst out.
    rewrite (process_message_extend _ _ _ _ _ _ _ _ _ _ _ Hw Hs Hu Hin). simpl.
    split; [done|]. split; [|tauto]. intros _.
    rewrite hgetall_hset_eq, lookup_insert_eq.
    split; [by apply series_of_update|done].
  - subst out.
    rewrite (process_message_flush _ _ _ _ _ _ _ _ _ _ _ Hw Hs Hn). simpl.
    split; [done|]. split; [tauto|]. intros _.
    rewrite hgetall_hset_eq, hgetall_delete_eq, map_union_empty, lookup_insert_eq.
    split; [done|]. split; [apply series_of_new|done].
Qed.

(** A second message of the same author exactly [window] seconds later. *)
Lemma process_message_active_series_witness :
  window_is world1 "c1" (Some 2) 2 ∧
  series_of (hgetall (agg_hash world1) "c1") = Some series1 ∧
  let out := process_message (seconds 12) "c1" "m2" "u1" "alice" "merchant" "b"
               (Some 2) world1 in
  series_of (hgetall (agg_hash out.2) "c1")
  = Some (mkSeries "u1" "m1" "alice" "merchant" ("a" +:+ NL +:+ "b")
            (seconds 10) (seconds 12) 2).
Proof.
  split; [reflexivity|]. split; [vm_compute; reflexivity|].
  pose proof (process_message_active_series world1 (seconds 12) "c1" "m2" "u1"
                "alice" "merchant" "b" (Some 2) 2 series1 eq_refl
                ltac:(vm_compute; reflexivity)) as (_ & H & _).
  apply H. split; [reflexivity|]. vm_compute. discriminate.
Defined.

Lemma final_message_of_fields s :
  let f := final_message_of s in
  f !! "user_id" = Some (s_user_id s) ∧ f !! "messages_id" = Some (s_messages_id s) ∧
  f !! "username" = Some (s_username s) ∧ f !! "user_type" = Some (s_user_type s) ∧
  f !! "text" = Some (s_text s) ∧ num_field f "start_ts" = Some (s_start_ts s) ∧
  num_field f "end_ts" = Some (s_last_ts s) ∧ num_field f "count" = Some (s_count s) ∧
  f !! "type" = Some "long".
Proof.
  unfold final_message_of, num_field. simplify_map_eq.
  by rewrite !py_float_str.
Qed.

(** C2. [_flush_series] on a chat: without an active series it returns
    [None] and leaves the store as it is; with a series [s] it appends one
    entry to the chat's final stream, with the series' [user_id],
    [messages_id], [username], [user_type] and [text], [start_ts] the
    series' [start_ts], [end_ts] its [last_ts], [count] its count and
    [type] "long", deletes the series hash, removes the chat's deadline and
    returns the id of the new final entry. *)
Theorem flush_series_spec w now chat_id current_time :
  let out := _flush_series now chat_id current_time w in
  (hgetall (agg_hash w) chat_id = ∅ ->
     out.1 = Ok None ∧ same_store w out.2) ∧
  (∀ s, series_of (hgetall (agg_hash w) chat_id) = Some s ->
     let id := last_stream_id w + 1 in
     out.1 = Ok (Some id)
     ∧ final_stream out.2 !! chat_id
       = Some (default [] (final_stream w !! chat_id) ++ [(id, final_message_of s)])
     ∧ (∀ c, c ≠ chat_id -> final_stream out.2 !! c = final_stream w !! c)
     ∧ hgetall (agg_hash out.2) chat_id = ∅
     ∧ sched_zset out.2 !! chat_id = None
     ∧ final_message_of s !! "type" = Some "long"
     ∧ num_field (final_message_of s) "start_ts" = Some (s_start_ts s)
     ∧ num_field (final_message_of s) "end_ts" = Some (s_last_ts s)
     ∧ num_field (final_message_of s) "count" = Some (s_count s)).
Proof.
  intros out. split.
  - intros He. subst out. rewrite (flush_no_series _ _ _ _ He). simpl.
    split; [done|]. by repeat split.
  - intros s Hs id. subst out. rewrite (flush_a_series _ _ _ _ _ Hs). simpl.
    destruct (final_message_of_fields s) as (_ & _ & _ & _ & _ & Ha & Hb & Hc & Ht).
    split; [done|]. split; [by unfold xadd; rewrite lookup_insert_eq|].
    split; [by intros c Hc'; unfold xadd; rewrite lookup_insert_ne|].
    split; [apply hgetall_delete_eq|]. split; [apply lookup_delete_eq|done].
Qed.

(** The series of [world1] is flushed; a second flush finds nothing. *)
Lemma flush_series_spec_witness :
  series_of (hgetall (agg_hash world1) "c1") = Some series1 ∧
  (_flush_series (seconds 13) "c1" None world1).1 = Ok (Some 1) ∧
  hgetall (agg_hash (_flush_series (seconds 13) "c1" None world1).2) "c1" = ∅ ∧
  (_flush_series (seconds 14) "c1" None
     (_flush_series (seconds 13) "c1" None world1).2).1 = Ok None.
Proof.
  split; [vm_compute; reflexivity|].
  pose proof (flush_series_spec world1 (seconds 13) "c1" None) as [_ H].
  destruct (H series1 ltac:(vm_compute; reflexivity)) as (H1 & _ & _ & H2 & _).
  split; [exact H1|]. split; [exact H2|].
  pose proof (flush_series_spec (_flush_series (seconds 13) "c1" None world1).2
                (seconds 14) "c1" None) as [H' _].
  exact (proj1 (H' H2)).
Defined.

(** C3. The deadline invariant is kept by [process_message],
    [_flush_series] and [scheduler_tick]: for every chat with an active
    series there is a deadline [t] in the scheduler's sorted set (which
    holds one score per chat) with [last_ts <= t <= last_ts + window], and a
    chat without a series has no deadline; in particular after a flush the
    chat has neither a series nor a deadline. *)
Theorem deadline_invariant (W : string -> Z) w :
  (∀ c, 0 <= W c) -> Inv W w ->
  (∀ now chat_id mid uid uname utype text ws,
     window_is w chat_id ws (W chat_id) ->
     Inv W (process_message now chat_id mid uid uname utype text ws w).2) ∧
  (∀ now chat_id current_time,
     let w' := (_flush_series now chat_id current_time w).2 in
     Inv W w' ∧ hgetall (agg_hash w') chat_id = ∅ ∧ sched_zset w' !! chat_id = None) ∧
  (∀ now max_batch, Inv W (scheduler_tick now max_batch w).2).
Proof.
  intros HW HI. split; [|split].
  - intros. by apply process_message_Inv.
  - intros. by apply flush_series_Inv.
  - intros. by apply scheduler_tick_Inv.
Qed.

Lemma deadline_invariant_witness :
  (∀ c, 0 <= demo_windows c) ∧ Inv demo_windows world0 ∧
  Inv demo_windows world1 ∧
  Inv demo_windows (scheduler_tick (seconds 13) None world1).2.
Proof.
  assert (∀ c, 0 <= demo_windows c) as HW by (intros; unfold demo_windows; lia).
  assert (Inv demo_windows world0) as H0 by (by apply Inv_empty).
  pose proof (deadline_invariant demo_windows world0 HW H0) as (H1 & _ & _).
  assert (Inv demo_windows world1) as HI1
    by (apply (H1 (seconds 10) "c1" "m1" "u1" "alice" "merchant" "a" (Some 2));
        reflexivity).
  pose proof (deadline_invariant demo_windows world1 HW HI1) as (_ & _ & H3).
  split; [exact HW|]. split; [exact H0|]. split; [exact HI1|apply H3].
Defined.

(** ** The LLM reply parser *)

(** C10. [_parse_llm_json] is total: whatever the reply ([None], blank,
    fenced, wrapped in backticks, a null/none literal, JSON or not) and
    however [json.loads] behaves on it, the parser returns, and what it
    returns is [None] or a value [json.loads] produced; it never raises. *)
Theorem parse_llm_json_total env raw_content :
  ∃ v, _parse_llm_json env raw_content = Ok v
       ∧ (v = PNone ∨ ∃ content, json_loads env content = Ok v).
Proof.
  unfold _parse_llm_json. destruct raw_content as [raw|]; [|by eauto].
  destruct (negb (truthy (strip raw))); [by eauto|].
  match goal with |- context [if ?b then _ else _] => destruct b end; [by eauto|].
  match goal with |- context [json_loads env ?c] =>
    destruct (json_loads env c) as [v|e] eqn:E end; simpl; eauto.
Qed.

Lemma parse_llm_json_None env : _parse_llm_json env None = Ok PNone.
Proof. reflexivity. Qed.

Lemma parse_llm_json_blank env raw :
  strip raw = EmptyString -> _parse_llm_json env (Some raw) = Ok PNone.
Proof. intros H. unfold _parse_llm_json. by rewrite H. Qed.

Lemma parse_llm_json_not_json env raw :
  (∀ content, json_loads env content = Exc JSONDecodeError) ->
  _parse_llm_json env (Some raw) = Ok PNone.
Proof.
  intros H. unfold _parse_llm_json.
  destruct (negb (truthy (strip raw))); [done|].
  match goal with |- context [if ?b then _ else _] => destruct b end; [done|].
  by rewrite H.
Qed.

Example parse_llm_json_fenced :
  _parse_llm_json (demo_env [] true)
    (Some ("```json" +:+ NL +:+ "{" +:+ q "matched_message_id" +:+ ": 7}" +:+ NL +:+ "```"))
  = Ok (PDict [("matched_message_id", PInt 7)]).
Proof. vm_compute. reflexivity. Qed.

Example parse_llm_json_backticks :
  _parse_llm_json (demo_env [] true) (Some "`[1, 2]`") = Ok (PList [PInt 1; PInt 2]).
Proof. vm_compute. reflexivity. Qed.

Example parse_llm_json_literals :
  _parse_llm_json (demo_env [] true) (Some " NULL ") = Ok PNone ∧
  _parse_llm_json (demo_env [] true) (Some "None") = Ok PNone ∧
  _parse_llm_json (demo_env [] true) (Some "```nOnE```") = Ok PNone ∧
  _parse_llm_json (demo_env [] true) (Some "no json here") = Ok PNone.
Proof. vm_compute. repeat split. Qed.

Ltac lower_char_cases :=
  let c := fresh "c" in
  let H := fresh "H" in
  intros c; destruct c as [[] [] [] [] [] [] [] []]; vm_compute; intros H;
  first [discriminate H | by left | by right].

Lemma lower_char_n c : lower_char c = "n"%char -> c = "n"%char ∨ c = "N"%char.
Proof. revert c. lower_char_cases. Qed.

Lemma lower_char_u c : lower_char c = "u"%char -> c = "u"%char ∨ c = "U"%char.
Proof. revert c. lower_char_cases. Qed.

Lemma lower_char_l c : lower_char c = "l"%char -> c = "l"%char ∨ c = "L"%char.
Proof. revert c. lower_char_cases. Qed.

Lemma lower_char_o c : lower_char c = "o"%char -> c = "o"%char ∨ c = "O"%char.
Proof. revert c. lower_char_cases. Qed.

Lemma lower_char_e c : lower_char c = "e"%char -> c = "e"%char ∨ c = "E"%char.
Proof. revert c. lower_char_cases. Qed.

(** The literals [null] and [none], in any letter case, give [None]. *)
Lemma parse_llm_json_null_literal env raw :
  lower raw = "null" ∨ lower raw = "none" ->
  _parse_llm_json env (Some raw) = Ok PNone.
Proof.
  intros [H|H];
    destruct raw as [|c1 [|c2 [|c3 [|c4 [|c5 r]]]]]; try discriminate H;
    cbn [lower] in H; injection H as H1 H2 H3 H4.
  - apply lower_char_n in H1 as [-> | ->]; apply lower_char_u in H2 as [-> | ->];
      apply lower_char_l in H3 as [-> | ->]; apply lower_char_l in H4 as [-> | ->];
      reflexivity.
  - apply lower_char_n in H1 as [-> | ->]; apply lower_char_o in H2 as [-> | ->];
      apply lower_char_n in H3 as [-> | ->]; apply lower_char_e in H4 as [-> | ->];
      reflexivity.
Qed.

(** ** Classification replies *)

Lemma from_first_skip c pre t :
  has_char c pre = false ->
  from_first c (pre +:+ String c t) = Some (String c t).
Proof.
  induction pre as [|a pre IH]; simpl.
  - by rewrite Ascii.eqb_refl.
  - intros H. apply orb_false_iff in H as [Ha Hp]. rewrite Ha. by apply IH.
Qed.

Lemma from_first_none c s : has_char c s = false -> from_first c s = None.
Proof.
  induction s as [|a s IH]; simpl; [done|].
  intros H. apply orb_false_iff in H as [Ha Hp]. rewrite Ha. by apply IH.
Qed.

Lemma upto_last_none c s : has_char c s = false -> upto_last c s = None.
Proof.
  induction s as [|a s IH]; simpl; [done|].
  intros H. apply orb_false_iff in H as [Ha Hp]. by rewrite IH, Ha.
Qed.

Lemma upto_last_stop c body post :
  has_char c post = false ->
  upto_last c (body +:+ String c post) = Some (body +:+ String c EmptyString).
Proof.
  intros H. induction body as [|a body IH]; simpl.
  - by rewrite upto_last_none, Ascii.eqb_refl.
  - by rewrite IH.
Qed.

Lemma append_cons x (a b : string) : String x a +:+ b = String x (a +:+ b).
Proof. reflexivity. Qed.

Lemma append_assoc (a b c : string) : (a +:+ b) +:+ c = a +:+ (b +:+ c).
Proof. induction a as [|x a IH]; [done|]. rewrite !append_cons. by f_equal. Qed.

Lemma brace_span_object pre mid post :
  brace_free pre -> brace_free post ->
  brace_span (pre +:+ ("{" +:+ mid +:+ "}") +:+ post) = Some ("{" +:+ mid +:+ "}").
Proof.
  intros [Hpre _] [_ Hpost]. unfold brace_span.
  change ("{" +:+ mid +:+ "}") with (String "{"%char (mid +:+ "}")).
  change (String "{"%char (mid +:+ "}") +:+ post)
    with (String "{"%char ((mid +:+ "}") +:+ post)).
  rewrite from_first_skip by done.
  rewrite (append_assoc mid "}" post).
  change (String "{"%char (mid +:+ "}" +:+ post))
    with (String "{"%char mid +:+ String "}"%char post).
  by rewrite upto_last_stop.
Qed.

Lemma brace_span_none raw : brace_free raw -> brace_span raw = None.
Proof. intros [H _]. unfold brace_span. by rewrite from_first_none. Qed.

(** C9, as stated, fails: the reply [none] is a none literal, and
    [classify_text] raises on it. *)
Lemma classify_text_none_raises :
  lower "none" = "none" ∧
  (classify_text (demo_env [Some "none"] true) "hello" world0).1
  = Exc JSONDecodeError.
Proof. vm_compute. by split. Qed.

(** C9, amended.  [classify_text] hands [json.loads] the reply cut down to
    the span from its first opening brace to its last closing brace, or the
    whole reply when there is no such span.  So a reply that holds one JSON
    object, raw or wrapped in a fenced code block (or in other text without
    braces), is parsed without raising; a reply without braces, such as a
    literal, is parsed as it is, so that [null] gives a null result while
    [none] and other spellings that are not JSON raise. *)
Theorem classify_text_parses env text w raw :
  chat_completion env (length (llm_log w)) (system_prompt env) (classify_prompt text)
  = Ok (Some raw) ->
  (∀ pre mid post v,
     raw = pre +:+ ("{" +:+ mid +:+ "}") +:+ post ->
     brace_free pre -> brace_free post ->
     json_loads env ("{" +:+ mid +:+ "}") = Ok v ->
     (classify_text env text w).1 = Ok v) ∧
  (brace_free raw -> (classify_text env text w).1 = json_loads env raw).
Proof.
  intros Hr. unfold classify_text, bind, chat_completions_create. rewrite Hr.
  split.
  - intros pre mid post v -> Hpre Hpost Hv.
    rewrite brace_span_object by done. unfold lift. simpl. by rewrite Hv.
  - intros Hb. by rewrite brace_span_none.
Qed.

(** A fenced object is parsed; the literal [null] gives [None]. *)
Lemma classify_text_parses_witness :
  (classify_text
     (demo_env [Some ("```json" +:+ NL +:+ "{" +:+ q "class" +:+ ": 1}" +:+ NL +:+ "```")] true)
     "hello" world0).1
  = Ok (PDict [("class", PInt 1)]) ∧
  (classify_text (demo_env [Some "null"] true) "hello" world0).1 = Ok PNone.
Proof.
  split.
  - pose proof (classify_text_parses
        (demo_env [Some ("```json" +:+ NL +:+ "{" +:+ q "class" +:+ ": 1}" +:+ NL +:+ "```")] true)
        "hello" world0 _ eq_refl) as [H _].
    apply (H ("```json" +:+ NL) (q "class" +:+ ": 1") (NL +:+ "```"));
      [reflexivity| split; reflexivity | split; reflexivity | vm_compute; reflexivity].
  - pose proof (classify_text_parses (demo_env [Some "null"] true) "hello" world0
                  _ eq_refl) as [_ H].
    rewrite H; [vm_compute; reflexivity | split; reflexivity].
Defined.

(** ** Matching an answer to a question *)









(** ** Appending to the last long message *)

Lemma find_first {A} (f : A -> bool) pre x post :
  Forall (fun y => f y = false) pre -> f x = true ->
  List.find f (pre ++ x :: post) = Some x.
Proof.
  intros Hpre Hx. induction Hpre as [|y pre Hy _ IH]; simpl.
  - by rewrite Hx.
  - by rewrite Hy.
Qed.

Lemma find_none {A} (f : A -> bool) l :
  Forall (fun y => f y = false) l -> List.find f l = None.
Proof.
  intros H. induction H as [|y l Hy _ IH]; simpl; [done|]. by rewrite Hy.
Qed.

Lemma merchant_final_of_bool user_id e :
  bool_decide (e.2 !! "user_type" = Some "merchant")
  && bool_decide (e.2 !! "user_id" = Some user_id) = true
  <-> merchant_final_of user_id e.
Proof.
  unfold merchant_final_of. rewrite andb_true_iff, !bool_decide_eq_true. tauto.
Qed.

(** C7, as stated, fails: when the old final message has an empty text the
    combined text is the new text alone, not the line feed and the text. *)
Lemma append_to_last_long_empty_text :
  let out := _append_to_last_long_for_user (seconds 20) "c1" "u1" "alice" "b"
               world_empty_text in
  (∃ old, final_stream world_empty_text !! "c1" = Some [(1, old)]
          ∧ old !! "text" = Some EmptyString
          ∧ merchant_final_of "u1" (1, old)) ∧
  (∃ new, final_stream out.2 !! "c1" = Some [(2, new)]
          ∧ new !! "text" = Some "b"
          ∧ new !! "text" ≠ Some (EmptyString +:+ NL +:+ "b")).
Proof.
  split.
  - eexists. split; [vm_compute; reflexivity|]. by vm_compute.
  - eexists. split; [vm_compute; reflexivity|]. by vm_compute.
Qed.

(** C7, amended.  [_append_to_last_long_for_user] looks at the (at most)
    100 newest final messages of the chat, newest first.  When none of them
    is a merchant message of the user it returns [None] and changes nothing.
    Otherwise, for the first such message [old] it appends a record with
    text [old.text + "\n" + text] (no line feed when [old.text] is empty),
    [start_ts] of [old], [end_ts = now] and count [old.count + 1], deletes
    the old entry and returns the new id. *)
Theorem append_to_last_long_spec now chat_id user_id username text w :
  let finals := xrevrange (final_stream w) chat_id 100 in
  let out := _append_to_last_long_for_user now chat_id user_id username text w in
  (length finals <= 100)%nat ∧
  (Forall (fun e => ¬ merchant_final_of user_id e) finals -> out = (Ok None, w)) ∧
  (∀ pre old_id old post,
     finals = pre ++ (old_id, old) :: post ->
     Forall (fun e => ¬ merchant_final_of user_id e) pre ->
     merchant_final_of user_id (old_id, old) ->
     let new_id := last_stream_id w + 1 in
     ∃ new,
       out.1 = Ok (Some new_id)
       ∧ final_stream out.2
         = xdel chat_id old_id (xadd chat_id new_id new (final_stream w))
       ∧ new !! "text" = Some (join_text (dict_get old "text" EmptyString) text)
       ∧ new !! "start_ts" = Some (fmt (old !! "start_ts"))
       ∧ num_field new "end_ts" = Some now
       ∧ (∀ c, num_field old "count" = Some c -> num_field new "count" = Some (c + 1))
       ∧ new !! "user_id" = Some user_id
       ∧ new !! "user_type" = Some "merchant"
       ∧ new !! "type" = Some "long").
Proof.
  intros finals out. split; [|split].
  - unfold finals, xrevrange. rewrite length_take. lia.
  - intros Hnone. subst out.
    unfold _append_to_last_long_for_user, bind, get_final_messages, gets.
    fold finals. rewrite find_none; [done|].
    eapply Forall_impl; [exact Hnone|]. intros e He. simpl in He.
    apply not_true_is_false. intros Hb. by apply He, merchant_final_of_bool.
  - intros pre old_id old post Hf Hpre Hold new_id.
    assert (out = (Ok (Some new_id),
                   set_final_stream (xdel chat_id old_id)
                     (set_final_stream
                        (xadd chat_id new_id
                           (combined_entry now user_id username text old))
                        (set_last_stream_id (fun _ => new_id) w)))) as ->.
    { subst out.
      unfold _append_to_last_long_for_user, bind at 1, get_final_messages, gets.
      fold finals. rewrite Hf, find_first; [done| |by apply merchant_final_of_bool].
      eapply Forall_impl; [exact Hpre|]. intros e He. simpl in He.
      apply not_true_is_false. intros Hb. by apply He, merchant_final_of_bool. }
    exists (combined_entry now user_id username text old).
    split; [done|]. split; [done|].
    split; [by unfold combined_entry, join_text; simplify_map_eq|].
    split; [by unfold combined_entry; simplify_map_eq|].
    split; [unfold combined_entry;
            by rewrite !num_field_insert_ne, num_field_insert_eq by done|].
    split; [|by unfold combined_entry; simplify_map_eq].
    intros c Hc. unfold combined_entry.
    rewrite !num_field_insert_ne, num_field_insert_eq by done.
    by rewrite (num_field_int _ _ _ _ Hc).
Qed.

(** The message [a] of [world2] gets the text [b] appended. *)
Lemma append_to_last_long_spec_witness :
  let out := _append_to_last_long_for_user (seconds 20) "c1" "u1" "alice" "b" world2 in
  xrevrange (final_stream world2) "c1" 100 = [] ++ (1, final_message_of series1) :: [] ∧
  merchant_final_of "u1" (1, final_message_of series1) ∧
  ∃ new, out.1 = Ok (Some 2)
         ∧ new !! "text" = Some ("a" +:+ NL +:+ "b")
         ∧ num_field new "count" = Some 2.
Proof.
  intros out.
  assert (xrevrange (final_stream world2) "c1" 100
          = [] ++ (1, final_message_of series1) :: []) as Hf
    by (vm_compute; reflexivity).
  assert (merchant_final_of "u1" (1, final_message_of series1)) as Hm
    by (split; vm_compute; reflexivity).
  split; [exact Hf|]. split; [exact Hm|].
  destruct (append_to_last_long_spec (seconds 20) "c1" "u1" "alice" "b" world2)
    as (_ & _ & H).
  destruct (H [] 1 (final_message_of series1) [] Hf (List.Forall_nil _) Hm)
    as (new & H1 & _ & H3 & _ & _ & H6 & _).
  exists new. split; [exact H1|]. split; [exact H3|].
  apply (H6 1). vm_compute. reflexivity.
Defined.

(** ** Frames: what a computation leaves alone *)

Lemma keeps_ret {A B} (f : World -> B) (a : A) : keeps f (ret a).
Proof. by intros w. Qed.

Lemma keeps_raise {A B} (f : World -> B) e : keeps f (@raise A e).
Proof. by intros w. Qed.

Lemma keeps_lift {A B} (f : World -> B) (r : res A) : keeps f (lift r).
Proof. by intros w. Qed.

Lemma keeps_gets {A B} (f : World -> B) (g : World -> A) : keeps f (gets g).
Proof. by intros w. Qed.

Lemma keeps_modify {B} (f : World -> B) g :
  (∀ w, f (g w) = f w) -> keeps f (modify g).
Proof. intros H w. apply H. Qed.

Lemma keeps_bind {A B C} (f : World -> C) (m : M A) (k : A -> M B) :
  keeps f m -> (∀ a, keeps f (k a)) -> keeps f (bind m k).
Proof.
  intros Hm Hk w. unfold bind. specialize (Hm w).
  destruct (m w) as [[a|e] w1]; simpl in *; [|done].
  by rewrite Hk.
Qed.

Lemma keeps_try_except {A C} (f : World -> C) (m : M A) h :
  keeps f m -> (∀ e, keeps f (h e)) -> keeps f (try_except m h).
Proof.
  intros Hm Hh w. unfold try_except. specialize (Hm w).
  destruct (m w) as [[a|e] w1]; simpl in *; [done|].
  by rewrite Hh.
Qed.

Lemma keeps_for_each {A C} (f : World -> C) (xs : list A) body :
  (∀ x, keeps f (body x)) -> keeps f (for_each xs body).
Proof.
  intros H. induction xs as [|x xs IH]; simpl; [apply keeps_ret|].
  apply keeps_bind; [apply H|done].
Qed.

Lemma returns_ret {A} (P : A -> Prop) a : P a -> returns P (ret a).
Proof. intros H w a' w' [= <- _]. done. Qed.

Lemma returns_raise {A} (P : A -> Prop) e : returns P (raise e).
Proof. by intros w a w'. Qed.

Lemma returns_bind {A B} (P : B -> Prop) (m : M A) (k : A -> M B) :
  (∀ a, returns P (k a)) -> returns P (bind m k).
Proof.
  intros Hk w b w'. unfold bind.
  destruct (m w) as [[a|e] w1]; [|done]. apply Hk.
Qed.

Create HintDb keeps.

Ltac keeps_step :=
  first
    [ apply keeps_ret | apply keeps_raise | apply keeps_lift | apply keeps_gets
    | apply keeps_modify; intros; reflexivity
    | solve [auto with keeps]
    | apply keeps_bind; [|intros]
    | apply keeps_try_except; [|intros]
    | apply keeps_for_each; intros
    | match goal with
      | |- keeps _ (match ?x with _ => _ end) => destruct x
      | |- keeps _ (if ?b then _ else _) => destruct b
      end ].

Ltac keeps_tac := repeat keeps_step.

Ltac returns_step :=
  first
    [ apply returns_raise
    | apply returns_ret; simpl; tauto
    | apply returns_bind; intros
    | match goal with
      | |- returns _ (match ?x with _ => _ end) => destruct x
      | |- returns _ (if ?b then _ else _) => destruct b
      end ].

(** *** The silence clock is written by the router's refresh only *)

Lemma config_of_silence c : keeps last_silence_notification (config_of c).
Proof. intros w. unfold config_of. by destruct (CONFIG_CHATS w !! c). Qed.

Lemma redis_xadd_raw_silence c fs : keeps last_silence_notification (redis_xadd_raw c fs).
Proof. by intros w. Qed.

Lemma redis_xadd_final_silence c fs :
  keeps last_silence_notification (redis_xadd_final c fs).
Proof. by intros w. Qed.

Lemma chat_completions_create_silence env s u :
  keeps last_silence_notification (chat_completions_create env s u).
Proof. by intros w. Qed.

#[local] Hint Resolve config_of_silence redis_xadd_raw_silence
  redis_xadd_final_silence chat_completions_create_silence : keeps.

Lemma add_message_silence now c mid uid un ut tx ts :
  keeps last_silence_notification (add_message now c mid uid un ut tx ts).
Proof. unfold add_message, _increment_metric. keeps_tac. Qed.

Lemma ensure_worker_silence c : keeps last_silence_notification (_ensure_worker_for_chat c).
Proof.
  unfold _ensure_worker_for_chat, set_window, get_chat_status, start_worker.
  keeps_tac.
Qed.

Lemma get_chat_status_silence c : keeps last_silence_notification (get_chat_status c).
Proof. unfold get_chat_status. keeps_tac. Qed.

Lemma append_to_last_long_silence now c uid un tx :
  keeps last_silence_notification (_append_to_last_long_for_user now c uid un tx).
Proof. unfold _append_to_last_long_for_user, get_final_messages. keeps_tac. Qed.

Lemma reply_exist_silence c rid parent :
  keeps last_silence_notification (process_message_if_reply_exist c rid parent).
Proof. unfold process_message_if_reply_exist, get_final_messages. keeps_tac. Qed.

Lemma match_attempts_silence env attempts : ∀ u last,
  keeps last_silence_notification (match_attempts env attempts u last).
Proof.
  induction attempts as [|i rest IH]; intros u last; simpl; keeps_tac; apply IH.
Qed.

#[local] Hint Resolve add_message_silence ensure_worker_silence
  get_chat_status_silence append_to_last_long_silence reply_exist_silence
  match_attempts_silence : keeps.

Lemma pp_response_silence env c rid un tx :
  keeps last_silence_notification (process_message_with_pp_response env c rid un tx).
Proof.
  unfold process_message_with_pp_response, _get_merchant_messages,
    get_final_messages, match_answer_to_question.
  keeps_tac.
Qed.

Lemma classify_text_silence env tx : keeps last_silence_notification (classify_text env tx).
Proof. unfold classify_text. keeps_tac. Qed.

#[local] Hint Resolve pp_response_silence classify_text_silence : keeps.

Lemma refresh_then {A} chat now (k : unit -> M A) w :
  keeps last_silence_notification (k tt) ->
  last_silence_notification
    (bind (modify (set_last_silence_notification <[chat := now]>)) k w).2
  !! chat = Some now.
Proof.
  intros K. unfold bind, modify. rewrite K. simpl. apply lookup_insert_eq.
Qed.

(** ** The ingress router *)

(** C5, as stated, fails: an event that the working-hours gate blocks
    leaves the silence clock of its chat untouched, although the chat's
    silencer is enabled. *)
Lemma time_blocked_event_keeps_silence_clock :
  let out := process_incoming_message (demo_env [] true) (seconds 50)
               demo_saturday_event world0 in
  (∃ cfg, CONFIG_CHATS world0 !! "c1" = Some cfg
          ∧ silencer_enabled (silencer cfg) = true) ∧
  out.1 = Ok (Reason "blocked" "time_blocked") ∧
  last_silence_notification out.2 !! "c1" ≠ Some (seconds 50).
Proof.
  split; [eexists; split; vm_compute; reflexivity|].
  split; [vm_compute; reflexivity|]. by vm_compute.
Qed.

(** C5, amended.  For every inbound event on a known chat whose silencer is
    enabled, that passes the working-hours gate and is not an edit, the
    router sets [last_silence_notification[chat]] to the current time,
    whatever becomes of the event afterwards (operator or merchant,
    [bot_disabled], [no_response_needed], or an error on the way).  An event
    that is time-blocked or an edit leaves the clock as it was. *)
Theorem silence_clock_refresh env now p w cfg :
  CONFIG_CHATS w !! messages__chat_id p = Some cfg ->
  silencer_enabled (silencer cfg) = true ->
  let out := process_incoming_message env now p w in
  (should_process_message_by_time env (messages__date p) (pinger cfg) = Ok true ->
   text_histories__change_id p = None ->
   last_silence_notification out.2 !! messages__chat_id p = Some now) ∧
  (should_process_message_by_time env (messages__date p) (pinger cfg) = Ok false
   ∨ text_histories__change_id p ≠ None ->
   last_silence_notification out.2 = last_silence_notification w).
Proof.
  intros Hcfg Hsil out. split.
  - intros Ht Hc. unfold out, process_incoming_message.
    unfold bind at 1, gets at 1. rewrite Hcfg.
    unfold bind at 1, lift at 1. rewrite Ht, Hc, Hsil.
    change (negb true) with false. cbv iota.
    apply refresh_then. keeps_tac.
  - intros H. unfold out, process_incoming_message.
    unfold bind at 1, gets at 1. rewrite Hcfg.
    unfold bind at 1, lift at 1.
    destruct H as [-> | Hch]; [done|].
    destruct (should_process_message_by_time _ _ _) as [[]|]; try done.
    change (negb true) with false. cbv iota.
    by destruct (text_histories__change_id p).
Qed.

Lemma silence_clock_refresh_witness :
  CONFIG_CHATS world0 !! messages__chat_id demo_pp_event = Some demo_config ∧
  silencer_enabled (silencer demo_config) = true ∧
  last_silence_notification
    (process_incoming_message (demo_env [] true) (seconds 50) demo_pp_event world0).2
  !! "c1" = Some (seconds 50).
Proof.
  split; [vm_compute; reflexivity|]. split; [reflexivity|].
  apply (silence_clock_refresh (demo_env [] true) (seconds 50) demo_pp_event world0
           demo_config);
    [vm_compute; reflexivity | reflexivity | vm_compute; reflexivity | reflexivity].
Defined.

(** C6, as stated, fails: the status of an accepted event is the string
    "in processing", with a space, which is none of [in_processing],
    [ignored], [blocked]. *)
Lemma accepted_event_status :
  ∃ id,
    (process_incoming_message (demo_env [] true) (seconds 50) demo_pp_event world0).1
    = Ok (MessageId "in processing" id)
    ∧ "in processing" ∉ ["in_processing"; "ignored"; "blocked"].
Proof.
  exists 1. split; [vm_compute; reflexivity|].
  rewrite !elem_of_cons, elem_of_nil. intros [H|[H|[H|[]]]]; discriminate.
Qed.

(** C6, amended.  Every dictionary [process_incoming_message] returns has a
    status, which is one of the strings "in processing", "ignored",
    "blocked". *)
Theorem ingress_status env now p w r w' :
  process_incoming_message env now p w = (Ok r, w') ->
  status_of r = "in processing" ∨ status_of r = "ignored" ∨ status_of r = "blocked".
Proof.
  revert w r w'.
  change (returns (fun r => status_of r = "in processing" ∨ status_of r = "ignored"
                            ∨ status_of r = "blocked")
            (process_incoming_message env now p)).
  unfold process_incoming_message. repeat returns_step.
Qed.

Lemma ingress_status_witness :
  process_incoming_message (demo_env [] true) (seconds 50) demo_saturday_event world0
  = (Ok (Reason "blocked" "time_blocked"), world0) ∧
  status_of (Reason "blocked" "time_blocked") = "blocked".
Proof.
  assert (process_incoming_message (demo_env [] true) (seconds 50)
            demo_saturday_event world0
          = (Ok (Reason "blocked" "time_blocked"), world0)) as H
    by (vm_compute; reflexivity).
  split; [exact H|].
  destruct (ingress_status _ _ _ _ _ _ H) as [H'|[H'|H']];
    [discriminate H' | discriminate H' | exact H'].
Defined.

(** ** The reminder branch of the escalation monitor *)

Lemma overdue_whole_seconds cfg now m e :
  end_ts_of m = Some e ->
  0 <= default 30 (message_timeout (pinger cfg)) ->
  overdue cfg now m = true
  <-> seconds (default 30 (message_timeout (pinger cfg)) + 1) <= now - e.
Proof.
  intros He H0. unfold overdue. rewrite He, Z.ltb_lt.
  unfold int_seconds, seconds, ticks_per_second.
  set (T := default 30 (message_timeout (pinger cfg))) in *.
  set (d := now - e). clearbody T d.
  pose proof (Z.quot_rem' d 1000000) as Hq.
  destruct (Z_lt_le_dec d 0) as [Hd|Hd].
  - pose proof (Z.quot_opp_l d 1000000 ltac:(lia)) as Ho.
    pose proof (Z.quot_pos (- d) 1000000 ltac:(lia) ltac:(lia)). lia.
  - pose proof (Z.rem_bound_pos d 1000000 Hd ltac:(lia)). nia.
Qed.

Lemma remind_one_run env now chat_id cfg m w e :
  CONFIG_CHATS w !! chat_id = Some cfg ->
  end_ts_of m = Some e ->
  remind_one env now chat_id m w
  = (Ok tt,
     if overdue cfg now m
     then set_final_stream (xdel chat_id (redis_stream_id m))
            (set_outbox
               (fun l => l ++ [reminder_of env cfg now chat_id (length (outbox w)) m])
               w)
     else w).
Proof.
  intros Hcfg He. unfold overdue, reminder_of. rewrite He. simpl default.
  unfold end_ts_of in He. destruct (mm_end_ts m) as [s|] eqn:Es; [|done].
  destruct (py_float s) as [z|] eqn:Ez; [|done]. injection He as ->.
  unfold remind_one. rewrite Es.
  unfold bind at 1, lift at 1. rewrite Ez.
  unfold bind at 1, config_of at 1. rewrite Hcfg.
  destruct (_ <? _); [|done].
  unfold send_message, bind at 1, config_of at 1. rewrite Hcfg.
  unfold bind, try_except, post_httpx_request, modify, ret.
  by destruct (http_post _ _ _ _).
Qed.

Lemma reminder_branch_run env now chat_id cfg : ∀ msgs w,
  CONFIG_CHATS w !! chat_id = Some cfg ->
  Forall (fun m => is_Some (end_ts_of m)) msgs ->
  ∃ w', reminder_branch env now chat_id msgs w = (Ok tt, w')
        ∧ outbox w'
          = outbox w ++ reminders_of env cfg now chat_id (length (outbox w))
                          (List.filter (overdue cfg now) msgs)
        ∧ final_stream w'
          = fold_left (fun fs m => xdel chat_id (redis_stream_id m) fs)
              (List.filter (overdue cfg now) msgs) (final_stream w).
Proof.
  unfold reminder_branch.
  induction msgs as [|m msgs IH]; intros w Hcfg Hall.
  - exists w. simpl. by rewrite app_nil_r.
  - apply Forall_cons in Hall as [[e He] Hall]. simpl for_each. unfold bind.
    rewrite (remind_one_run _ _ _ _ _ _ _ Hcfg He). simpl List.filter.
    destruct (overdue cfg now m).
    + edestruct IH as (w' & -> & Ho & Hf); [|exact Hall|]; [exact Hcfg|].
      exists w'. split; [done|]. rewrite Ho, Hf. simpl.
      rewrite length_app, <- app_assoc. simpl.
      by rewrite Nat.add_1_r.
    + by apply IH.
Qed.

(** ** Tidy worlds: fresh stream ids, one reminder per final message *)

Lemma tidy_ext w w' :
  final_stream w' = final_stream w -> last_stream_id w' = last_stream_id w ->
  outbox w' = outbox w -> tidy w -> tidy w'.
Proof.
  intros Hf Hl Ho [H1 H2 H3 H4 H5].
  constructor; unfold final_ids, reminded in *; rewrite ?Hf, ?Hl, ?Ho; done.
Qed.

Lemma tame_ret {A} (a : A) : tame (ret a).
Proof. by intros w. Qed.

Lemma tame_raise {A} e : tame (@raise A e).
Proof. by intros w. Qed.

Lemma tame_lift {A} (r : res A) : tame (lift r).
Proof. by intros w. Qed.

Lemma tame_gets {A} (g : World -> A) : tame (gets g).
Proof. by intros w. Qed.

Lemma tame_bind {A B} (m : M A) (k : A -> M B) :
  tame m -> (∀ a, tame (k a)) -> tame (bind m k).
Proof.
  intros Hm Hk w Hw. unfold bind. specialize (Hm w Hw).
  destruct (m w) as [[a|e] w1]; simpl in *; [|done].
  by apply Hk.
Qed.

Lemma tame_try_except {A} (m : M A) h :
  tame m -> (∀ e, tame (h e)) -> tame (try_except m h).
Proof.
  intros Hm Hh w Hw. unfold try_except. specialize (Hm w Hw).
  destruct (m w) as [[a|e] w1]; simpl in *; [done|].
  by apply Hh.
Qed.

Lemma tame_for_each {A} (xs : list A) body :
  (∀ x, tame (body x)) -> tame (for_each xs body).
Proof.
  intros H. induction xs as [|x xs IH]; simpl; [apply tame_ret|].
  apply tame_bind; [apply H|done].
Qed.

Lemma tame_modify_frame g :
  (∀ w, final_stream (g w) = final_stream w) ->
  (∀ w, last_stream_id (g w) = last_stream_id w) ->
  (∀ w, outbox (g w) = outbox w) ->
  tame (modify g).
Proof. intros Hf Hl Ho w Hw. simpl. eapply tidy_ext; [apply Hf|apply Hl|apply Ho|done]. Qed.

Lemma final_ids_xadd c id fs w c' :
  final_ids (set_final_stream (xadd c id fs) w) c'
  = if decide (c' = c) then final_ids w c ++ [id] else final_ids w c'.
Proof.
  unfold final_ids, xadd. simpl. destruct (decide (c' = c)) as [->|Hne].
  - rewrite lookup_insert_eq. simpl. by rewrite fmap_app.
  - by rewrite lookup_insert_ne.
Qed.

Lemma fst_filter_ne (l : list (Z * gmap string string)) id :
  (filter (fun e => e.1 ≠ id) l).*1 = filter (fun x => x ≠ id) (l.*1).
Proof.
  induction l as [|[x h] l IH]; [done|].
  rewrite fmap_cons. simpl. destruct (decide (x ≠ id)) as [Hx|Hx].
  - rewrite !filter_cons_True by done. rewrite fmap_cons. simpl. by rewrite IH.
  - rewrite !filter_cons_False by done. done.
Qed.

Lemma ids_xdel c id (fs : gmap string (list (Z * gmap string string))) c' :
  (default [] (xdel c id fs !! c')).*1
  = if decide (c' = c) then filter (fun x => x ≠ id) (default [] (fs !! c)).*1
    else (default [] (fs !! c')).*1.
Proof.
  unfold xdel.
  destruct (fs !! c) as [l|] eqn:El.
  - destruct (decide (c' = c)) as [->|Hne].
    + rewrite lookup_insert_eq. simpl. apply fst_filter_ne.
    + by rewrite lookup_insert_ne.
  - destruct (decide (c' = c)) as [->|Hne]; [|done]. by rewrite El.
Qed.

Lemma final_ids_xdel c id w c' :
  final_ids (set_final_stream (xdel c id) w) c'
  = if decide (c' = c) then filter (fun x => x ≠ id) (final_ids w c)
    else final_ids w c'.
Proof. apply ids_xdel. Qed.

Lemma tame_xadd_final c fs : tame (redis_xadd_final c fs).
Proof.
  intros w [H1 H2 H3 H4 H5]. unfold redis_xadd_final. simpl.
  constructor; simpl.
  - intros c' id. rewrite final_ids_xadd. unfold final_ids at 1 2. simpl.
    destruct (decide (c' = c)) as [->|].
    + rewrite elem_of_app, list_elem_of_singleton. intros [Hi| ->]; [|lia].
      specialize (H1 _ _ Hi). lia.
    + intros Hi. specialize (H1 _ _ Hi). lia.
  - intros c'. rewrite final_ids_xadd. unfold final_ids at 1 2. simpl.
    destruct (decide (c' = c)) as [->|]; [|apply H2].
    apply NoDup_app. split; [apply H2|]. split; [|apply NoDup_singleton].
    intros x Hx ->%list_elem_of_singleton. specialize (H1 _ _ Hx). lia.
  - intros c' id Hr. specialize (H3 _ _ Hr). lia.
  - intros c' id Hr. rewrite final_ids_xadd. unfold final_ids at 1 2. simpl.
    destruct (decide (c' = c)) as [->|]; [|by apply H4].
    rewrite elem_of_app, list_elem_of_singleton. intros [Hi| ->].
    + by apply (H4 _ _ Hr).
    + specialize (H3 _ _ Hr). lia.
  - apply H5.
Qed.

Lemma tame_xadd_raw c fs : tame (redis_xadd_raw c fs).
Proof.
  intros w [H1 H2 H3 H4 H5]. unfold redis_xadd_raw. simpl.
  constructor; simpl; try done.
  - intros c' id Hi. specialize (H1 _ _ Hi). lia.
  - intros c' id Hr. specialize (H3 _ _ Hr). lia.
Qed.

Lemma tame_xdel_final c id : tame (modify (set_final_stream (xdel c id))).
Proof.
  intros w [H1 H2 H3 H4 H5]. simpl.
  constructor; simpl; try done.
  - intros c' id'. rewrite final_ids_xdel.
    destruct (decide (c' = c)) as [->|]; [|apply H1].
    intros [_ Hi]%list_elem_of_filter. by apply H1 in Hi.
  - intros c'. rewrite final_ids_xdel.
    destruct (decide (c' = c)) as [->|]; [|apply H2].
    apply NoDup_filter, H2.
  - intros c' id' Hr. rewrite final_ids_xdel.
    destruct (decide (c' = c)) as [->|]; [|by apply H4].
    intros [_ Hi]%list_elem_of_filter. by apply (H4 _ _ Hr).
Qed.

Lemma reminded_post w about c t ok :
  reminded (set_outbox (fun l => l ++ [mkSent about c t ok]) w)
  = reminded w ++ match about with Some x => [x] | None => [] end.
Proof. unfold reminded. simpl. rewrite omap_app. simpl. by destruct about. Qed.

Lemma tame_post_none env c t : tame (post_httpx_request env None c t).
Proof.
  intros w [H1 H2 H3 H4 H5]. unfold post_httpx_request. simpl.
  constructor; try done; rewrite reminded_post, app_nil_r; done.
Qed.

Lemma tame_config_of c : tame (config_of c).
Proof. intros w Hw. unfold config_of. by destruct (CONFIG_CHATS w !! c). Qed.

Lemma tame_chat_completions_create env s u : tame (chat_completions_create env s u).
Proof. intros w Hw. simpl. by eapply tidy_ext; [| | |exact Hw]. Qed.

Create HintDb tame.

#[local] Hint Resolve tame_xadd_final tame_xadd_raw tame_xdel_final tame_post_none
  tame_config_of tame_chat_completions_create : tame.

Ltac tame_step :=
  first
    [ apply tame_ret | apply tame_raise | apply tame_lift | apply tame_gets
    | solve [auto with tame]
    | apply tame_modify_frame; intros; reflexivity
    | apply tame_bind; [|intros]
    | apply tame_try_except; [|intros]
    | apply tame_for_each; intros
    | match goal with
      | |- tame (match ?x with _ => _ end) => destruct x
      | |- tame (if ?b then _ else _) => destruct b
      end ].

Ltac tame_tac := repeat tame_step.

Lemma tame_add_message now c mid uid un ut tx ts :
  tame (add_message now c mid uid un ut tx ts).
Proof. unfold add_message, _increment_metric. tame_tac. Qed.

Lemma tame_flush_series now c ct : tame (_flush_series now c ct).
Proof.
  unfold _flush_series, ensure_flush_lock, _increment_metric. tame_tac.
Qed.

Lemma tame_get_window c : tame (get_window c).
Proof. unfold get_window. tame_tac. Qed.

#[local] Hint Resolve tame_add_message tame_flush_series tame_get_window : tame.

Lemma tame_process_message now c mid uid un ut tx ws :
  tame (process_message now c mid uid un ut tx ws).
Proof. unfold process_message, _schedule_deadline. tame_tac. Qed.

Lemma tame_flush_expired now chats : ∀ n, tame (flush_expired now chats n).
Proof.
  induction chats as [|c chats IH]; intros n; simpl; tame_tac; apply IH.
Qed.

#[local] Hint Resolve tame_process_message tame_flush_expired : tame.

Lemma tame_scheduler_tick now mb : tame (scheduler_tick now mb).
Proof. unfold scheduler_tick. tame_tac. Qed.

Lemma tame_get_statuses chats : tame (get_statuses chats).
Proof.
  induction chats as [|c chats IH]; simpl; unfold get_chat_status; tame_tac.
Qed.

Lemma tame_ensure_worker c : tame (_ensure_worker_for_chat c).
Proof.
  unfold _ensure_worker_for_chat, set_window, get_chat_status, start_worker.
  tame_tac.
Qed.

Lemma tame_append_to_last_long now c uid un tx :
  tame (_append_to_last_long_for_user now c uid un tx).
Proof. unfold _append_to_last_long_for_user, get_final_messages. tame_tac. Qed.

Lemma tame_reply_exist c rid parent : tame (process_message_if_reply_exist c rid parent).
Proof. unfold process_message_if_reply_exist, get_final_messages. tame_tac. Qed.

Lemma tame_match_attempts env attempts : ∀ u last,
  tame (match_attempts env attempts u last).
Proof.
  induction attempts as [|i rest IH]; intros u last; simpl; tame_tac; apply IH.
Qed.

#[local] Hint Resolve tame_scheduler_tick tame_get_statuses tame_ensure_worker
  tame_append_to_last_long tame_reply_exist tame_match_attempts : tame.

Lemma tame_pp_response env c rid un tx :
  tame (process_message_with_pp_response env c rid un tx).
Proof.
  unfold process_message_with_pp_response, _get_merchant_messages,
    get_final_messages, match_answer_to_question.
  tame_tac.
Qed.

Lemma tame_classify_text env tx : tame (classify_text env tx).
Proof. unfold classify_text. tame_tac. Qed.

#[local] Hint Resolve tame_pp_response tame_classify_text : tame.

Lemma tame_process_incoming_message env now p :
  tame (process_incoming_message env now p).
Proof. unfold process_incoming_message, get_chat_status. tame_tac. Qed.

Lemma tame_silence_branch env now c msgs : tame (silence_branch env now c msgs).
Proof. unfold silence_branch, send_silence_notification. tame_tac. Qed.

Lemma send_message_run env c m age w cfg :
  CONFIG_CHATS w !! c = Some cfg ->
  ∃ t ok,
    send_message env c m age w
    = (Ok tt,
       set_final_stream (xdel c (redis_stream_id m))
         (set_outbox
            (fun l => l ++ [mkSent (Some (c, redis_stream_id m))
                              (pinger_output_chat_id (pinger cfg)) t ok]) w)).
Proof.
  intros Hcfg. unfold send_message, bind at 1, config_of at 1. rewrite Hcfg.
  unfold bind, try_except, post_httpx_request, modify, ret.
  exists (reminder_text cfg (fmt (mm_username m)) (fmt (mm_text m)) age),
    (http_post env (length (outbox w)) (pinger_output_chat_id (pinger cfg))
       (reminder_text cfg (fmt (mm_username m)) (fmt (mm_text m)) age)).
  by destruct (http_post _ _ _ _).
Qed.

(** A reminder for a message that is still in the final stream. *)
Lemma send_message_tidy env c m age w :
  tidy w -> redis_stream_id m ∈ final_ids w c ->
  tidy (send_message env c m age w).2
  ∧ ∀ id, id ∈ final_ids w c -> id ≠ redis_stream_id m ->
          id ∈ final_ids (send_message env c m age w).2 c.
Proof.
  intros Hw Hin. pose proof Hw as [H1 H2 H3 H4 H5].
  destruct (CONFIG_CHATS w !! c) as [cfg|] eqn:Hcfg.
  2: { unfold send_message, bind, config_of. rewrite Hcfg. by split. }
  destruct (send_message_run env c m age w cfg Hcfg) as (t & ok & ->). simpl.
  split.
  - constructor.
    + intros c' id. rewrite final_ids_xdel.
      destruct (decide (c' = c)) as [->|]; [|apply H1].
      intros [_ Hi]%list_elem_of_filter. by apply H1 in Hi.
    + intros c'. rewrite final_ids_xdel.
      destruct (decide (c' = c)) as [->|]; [|apply H2].
      apply NoDup_filter, H2.
    + intros c' id. unfold reminded. simpl. rewrite omap_app. simpl.
      rewrite elem_of_app, list_elem_of_singleton. intros [Hr|[= -> ->]].
      * by apply (H3 c').
      * by apply (H1 c).
    + intros c' id. unfold reminded. simpl outbox. rewrite omap_app. simpl.
      rewrite elem_of_app, list_elem_of_singleton, final_ids_xdel.
      intros [Hr|[= -> ->]].
      * destruct (decide (c' = c)) as [->|]; [|by apply H4].
        intros [_ Hi]%list_elem_of_filter. by apply (H4 _ _ Hr).
      * rewrite decide_True by done. by intros [Hne _]%list_elem_of_filter.
    + unfold reminded. simpl. rewrite omap_app. simpl.
      apply NoDup_app. split; [apply H5|]. split; [|apply NoDup_singleton].
      intros [c' id] Hr [= -> ->]%list_elem_of_singleton. by apply (H4 _ _ Hr).
  - intros id Hi Hne. rewrite final_ids_xdel, decide_True by done.
    by apply list_elem_of_filter.
Qed.

Lemma remind_one_cases env now c m w :
  (∃ r, remind_one env now c m w = (r, w))
  ∨ (∃ age, remind_one env now c m w = send_message env c m age w).
Proof.
  unfold remind_one, bind, lift, raise, config_of.
  destruct (mm_end_ts m) as [s|]; [|by left; eexists].
  destruct (py_float s) as [e|]; [|by left; eexists].
  destruct (CONFIG_CHATS w !! c) as [cfg|]; [|by left; eexists].
  destruct (_ <? _); [|by left; eexists]. right. by eexists.
Qed.

Lemma remind_one_tidy env now c m w :
  tidy w -> redis_stream_id m ∈ final_ids w c ->
  tidy (remind_one env now c m w).2
  ∧ ∀ id, id ∈ final_ids w c -> id ≠ redis_stream_id m ->
          id ∈ final_ids (remind_one env now c m w).2 c.
Proof.
  intros Hw Hin.
  destruct (remind_one_cases env now c m w) as [[r ->]|[age ->]]; [by split|].
  by apply send_message_tidy.
Qed.

Lemma reminder_branch_tidy env now c : ∀ msgs w,
  tidy w -> NoDup (map redis_stream_id msgs) ->
  (∀ m, m ∈ msgs -> redis_stream_id m ∈ final_ids w c) ->
  tidy (reminder_branch env now c msgs w).2.
Proof.
  unfold reminder_branch.
  induction msgs as [|m msgs IH]; intros w Hw Hnd Hin; [done|].
  simpl for_each. unfold bind.
  apply NoDup_cons in Hnd as [Hm Hnd].
  destruct (remind_one_tidy env now c m w Hw) as [Ht Hkeep].
  { apply Hin. by left. }
  destruct (remind_one env now c m w) as [[[]|e] w1]; simpl in *; [|done].
  apply IH; [done|done|]. intros m' Hm'. apply Hkeep.
  - apply Hin. by right.
  - intros Heq. apply Hm. rewrite <- Heq. apply list_elem_of_fmap. by exists m'.
Qed.

Lemma merchant_ids_sublist (l : list (Z * gmap string string)) :
  map redis_stream_id
    (omap (fun e : Z * gmap string string =>
             let '(stream_id, fields) := e in
             if bool_decide (fields !! "user_type" = Some "merchant")
             then Some (mkMerchantMessage (fields !! "messages_id")
                          (fields !! "user_id") (fields !! "username")
                          (fields !! "text") (fields !! "end_ts")
                          (fields !! "start_ts") stream_id)
             else None) l)
  `sublist_of` l.*1.
Proof.
  induction l as [|[id h] l IH]; simpl; [done|].
  destruct (bool_decide _); simpl.
  - by apply sublist_skip.
  - by apply sublist_cons.
Qed.

Lemma get_merchant_messages_run c w :
  ∃ msgs, _get_merchant_messages c w = (Ok msgs, w)
          ∧ map redis_stream_id msgs `sublist_of` take 50 (reverse (final_ids w c)).
Proof.
  unfold _get_merchant_messages, get_final_messages, bind, gets, ret.
  eexists. split; [reflexivity|].
  unfold final_ids, xrevrange. rewrite <- fmap_reverse, <- fmap_take.
  apply merchant_ids_sublist.
Qed.

Lemma config_of_final c : keeps final_stream (config_of c).
Proof. intros w. unfold config_of. by destruct (CONFIG_CHATS w !! c). Qed.

Lemma post_final env about c t : keeps final_stream (post_httpx_request env about c t).
Proof. by intros w. Qed.

#[local] Hint Resolve config_of_final post_final : keeps.

Lemma silence_branch_final env now c msgs :
  keeps final_stream (silence_branch env now c msgs).
Proof. unfold silence_branch, send_silence_notification. keeps_tac. Qed.

Lemma tame_check_pending_chat env now entry : tame (check_pending_chat env now entry).
Proof.
  destruct entry as [c st]. intros w Hw. unfold check_pending_chat.
  destruct (negb (worker_running st)); [done|].
  destruct (get_merchant_messages_run c w) as (msgs & Hm & Hsub).
  unfold bind at 1. rewrite Hm. unfold bind.
  pose proof (tame_silence_branch env now c msgs w Hw) as Hs.
  pose proof (silence_branch_final env now c msgs w) as Hf.
  destruct (silence_branch env now c msgs w) as [[[]|e] w1]; simpl in *; [|done].
  assert (final_ids w1 c = final_ids w c) as Hids by (unfold final_ids; by rewrite Hf).
  apply reminder_branch_tidy; [done| |].
  - eapply sublist_NoDup; [|exact Hsub].
    eapply sublist_NoDup; [|apply sublist_take].
    rewrite reverse_Permutation. apply Hw.
  - intros m Hin. rewrite Hids. apply elem_of_reverse.
    eapply elem_of_sublist; [|apply sublist_take].
    eapply elem_of_sublist; [|exact Hsub].
    apply list_elem_of_fmap. by exists m.
Qed.

Lemma tame_check_pending_messages env now : tame (_check_pending_messages env now).
Proof.
  unfold _check_pending_messages, get_all_chats_status.
  apply tame_bind; [tame_tac|]. intros chats.
  apply tame_for_each. intros entry. apply tame_check_pending_chat.
Qed.

Lemma step_tidy env o w : tidy w -> tidy (step env o w).
Proof.
  intros Hw. destruct o; simpl.
  - by apply tame_process_incoming_message.
  - by apply tame_process_message.
  - by apply tame_flush_series.
  - by apply tame_scheduler_tick.
  - by apply tame_check_pending_messages.
Qed.

Lemma run_tidy env ops : ∀ w, tidy w -> tidy (run env ops w).
Proof.
  unfold run. induction ops as [|o ops IH]; intros w Hw; simpl; [done|].
  by apply IH, step_tidy.
Qed.

Lemma tidy_fresh w :
  final_stream w = ∅ -> outbox w = [] -> tidy w.
Proof.
  intros Hf Ho.
  constructor; unfold final_ids, reminded; rewrite ?Hf, ?Ho, ?lookup_empty; simpl.
  - by intros c id ?%elem_of_nil.
  - intros c. apply NoDup_nil_2.
  - by intros c id ?%elem_of_nil.
  - by intros c id ?%elem_of_nil.
  - apply NoDup_nil_2.
Qed.

Lemma ids_fold_xdel chat_id (due : list merchant_message) :
  ∀ (fs : gmap string (list (Z * gmap string string))) x,
    x ∈ (default []
           (fold_left (fun fs m => xdel chat_id (redis_stream_id m) fs) due fs
            !! chat_id)).*1 ->
    x ∈ (default [] (fs !! chat_id)).*1 ∧ x ∉ map redis_stream_id due.
Proof.
  induction due as [|m due IH]; intros fs x Hx; simpl in *.
  - split; [done|]. apply not_elem_of_nil.
  - apply IH in Hx as [Hx Hn]. rewrite ids_xdel, decide_True in Hx by done.
    apply list_elem_of_filter in Hx as [Hne Hx].
    split; [done|]. by apply not_elem_of_cons.
Qed.

(** C4, as stated, fails: half a second past the timeout the age of the
    message already exceeds [message_timeout], yet the monitor sends no
    reminder and keeps the message: it compares the age in whole seconds. *)
Lemma reminder_waits_for_whole_second :
  let now := seconds 40 + 500000 in
  let out := _check_pending_messages (demo_env [] true) now world3 in
  (∃ m e cfg, (_get_merchant_messages "c1" world3).1 = Ok [m]
              ∧ end_ts_of m = Some e
              ∧ CONFIG_CHATS world3 !! "c1" = Some cfg
              ∧ seconds (default 30 (message_timeout (pinger cfg))) < now - e) ∧
  out.1 = Ok tt ∧ outbox out.2 = [] ∧ final_ids out.2 "c1" = [1].
Proof.
  split.
  - do 3 eexists. split; [vm_compute; reflexivity|].
    split; [vm_compute; reflexivity|]. split; [vm_compute; reflexivity|].
    by vm_compute.
  - split; [vm_compute; reflexivity|]. split; vm_compute; reflexivity.
Qed.

(** C4, amended.  In the reminder branch, for the merchant final messages
    [msgs] of a monitored chat, a reminder is emitted exactly for those
    whose age in whole seconds, [int(now - end_ts)], exceeds
    [message_timeout], that is when [now - end_ts >= message_timeout + 1]
    seconds.  Each of them gets one reminder attempt and is then deleted
    from the final stream, also when the HTTP call fails (the outcome of the
    call appears only in the log of requests).  And over any run of the
    service's operations from a tidy store no final message is reminded of
    twice. *)
Theorem reminders_spec env :
  (∀ now chat_id cfg msgs w,
     CONFIG_CHATS w !! chat_id = Some cfg ->
     0 <= default 30 (message_timeout (pinger cfg)) ->
     Forall (fun m => is_Some (end_ts_of m)) msgs ->
     let out := reminder_branch env now chat_id msgs w in
     let due := List.filter (overdue cfg now) msgs in
     out.1 = Ok tt
     ∧ outbox out.2
       = outbox w ++ reminders_of env cfg now chat_id (length (outbox w)) due
     ∧ final_stream out.2
       = fold_left (fun fs m => xdel chat_id (redis_stream_id m) fs) due
           (final_stream w)
     ∧ (∀ m e, end_ts_of m = Some e ->
          (overdue cfg now m = true
           <-> seconds (default 30 (message_timeout (pinger cfg)) + 1) <= now - e))
     ∧ (∀ m, m ∈ due -> redis_stream_id m ∉ final_ids out.2 chat_id)) ∧
  (∀ ops w, tidy w -> NoDup (reminded (run env ops w))).
Proof.
  split.
  - intros now chat_id cfg msgs w Hcfg H0 Hall out due.
    destruct (reminder_branch_run env now chat_id cfg msgs w Hcfg Hall)
      as (w' & Hrun & Ho & Hf).
    subst out. rewrite Hrun. simpl.
    split; [done|]. split; [exact Ho|]. split; [exact Hf|]. split.
    + intros m e He. by apply overdue_whole_seconds.
    + intros m Hm Hin. unfold final_ids in Hin. rewrite Hf in Hin.
      apply ids_fold_xdel in Hin as [_ Hn]. apply Hn.
      apply list_elem_of_fmap. by exists m.
  - intros ops w Hw. by apply run_tidy.
Qed.

Lemma world3_tidy : tidy world3.
Proof.
  assert (tame (start_worker "c1")) as Hs by (unfold start_worker; tame_tac).
  apply Hs, tame_flush_series, tame_process_message. by apply tidy_fresh.
Qed.

(** One second later the reminder goes out, and although the gateway fails
    the message is deleted; a second pass of the monitor sends nothing. *)
Lemma reminders_spec_witness :
  let env := demo_env [] false in
  let now := seconds 41 in
  let m := mkMerchantMessage (Some "m1") (Some "u1") (Some "alice") (Some "a")
             (Some (py_str (seconds 10))) (Some (py_str (seconds 10))) 1 in
  let out := reminder_branch env now "c1" [m] world3 in
  (_get_merchant_messages "c1" world3).1 = Ok [m] ∧
  CONFIG_CHATS world3 !! "c1" = Some demo_config ∧
  map sent_ok (outbox out.2) = [false] ∧
  final_ids out.2 "c1" = [] ∧
  NoDup (reminded (run env [Monitor now; Monitor (seconds 42)] world3)).
Proof.
  intros env now m out.
  destruct (reminders_spec env) as [H1 H2].
  assert (CONFIG_CHATS world3 !! "c1" = Some demo_config) as Hcfg
    by (vm_compute; reflexivity).
  assert (Forall (fun m => is_Some (end_ts_of m)) [m]) as Hall.
  { apply Forall_cons. split; [|apply List.Forall_nil].
    exists (seconds 10). vm_compute. reflexivity. }
  destruct (H1 now "c1" demo_config [m] world3 Hcfg ltac:(vm_compute; discriminate)
              Hall) as (_ & Ho & _ & _ & _).
  split; [vm_compute; reflexivity|]. split; [exact Hcfg|].
  split; [fold out in Ho; rewrite Ho; vm_compute; reflexivity|].
  split; [vm_compute; reflexivity|].
  apply H2, world3_tidy.
Defined.

(** * Further properties of the code *)

(** ** Frames, for any component of the world *)

Lemma keeps_config_of {B} (f : World -> B) c : keeps f (config_of c).
Proof. intros w. unfold config_of. by destruct (CONFIG_CHATS w !! c). Qed.

Lemma keeps_xadd_raw {B} (f : World -> B) c fs :
  (∀ g h w, f (set_raw_stream g (set_last_stream_id h w)) = f w) ->
  keeps f (redis_xadd_raw c fs).
Proof. intros H w. apply H. Qed.

Lemma keeps_xadd_final {B} (f : World -> B) c fs :
  (∀ g h w, f (set_final_stream g (set_last_stream_id h w)) = f w) ->
  keeps f (redis_xadd_final c fs).
Proof. intros H w. apply H. Qed.

Lemma keeps_chat_completions_create {B} (f : World -> B) env s u :
  (∀ g w, f (set_llm_log g w) = f w) ->
  keeps f (chat_completions_create env s u).
Proof. intros H w. apply H. Qed.

Lemma keeps_post {B} (f : World -> B) env about c t :
  (∀ g w, f (set_outbox g w) = f w) ->
  keeps f (post_httpx_request env about c t).
Proof. intros H w. apply H. Qed.

Ltac frame_step :=
  first
    [ apply keeps_ret | apply keeps_raise | apply keeps_lift | apply keeps_gets
    | apply keeps_config_of
    | apply keeps_modify; intros; reflexivity
    | apply keeps_xadd_raw; intros; reflexivity
    | apply keeps_xadd_final; intros; reflexivity
    | apply keeps_chat_completions_create; intros; reflexivity
    | apply keeps_post; intros; reflexivity
    | assumption
    | apply keeps_bind; [|intros]
    | apply keeps_try_except; [|intros]
    | apply keeps_for_each; intros
    | match goal with
      | |- keeps _ (match ?x with _ => _ end) => destruct x
      | |- keeps _ (if ?b then _ else _) => destruct b
      end ].

Ltac frame_tac := repeat frame_step.

Ltac unfold_client :=
  unfold process_message, _flush_series, ensure_flush_lock, _schedule_deadline,
    get_window, _increment_metric, add_message, set_window, get_chat_status,
    start_worker, get_final_messages in *.

(** ** The aggregation window of a chat *)

Lemma truthy_py_str z : truthy (py_str z) = true.
Proof.
  unfold py_str. destruct z as [|p|p]; [done| |done]. simpl.
  pose proof (DecimalPos.Unsigned.to_uint_nonnil p) as H.
  unfold NilZero.string_of_uint. destruct (Pos.to_uint p); done.
Qed.

(** X1. The window [set_window] stores for a chat is the one [get_window]
    reads back, whatever the number; the windows of the other chats are not
    affected; a chat without configuration hash has the default window. *)
Theorem window_round_trip w chat_id n :
  (get_window chat_id (set_window chat_id n w).2).1 = Ok n ∧
  (∀ c, c ≠ chat_id ->
     (get_window c (set_window chat_id n w).2).1 = (get_window c w).1) ∧
  (conf_hash w !! chat_id = None ->
     (get_window chat_id w).1 = Ok (window_seconds_default w)).
Proof.
  split; [|split].
  - unfold get_window, set_window, bind, gets, modify, lift. simpl.
    rewrite hgetall_hset_eq.
    rewrite (lookup_union_Some_l _ _ _ (py_str n)) by apply lookup_singleton_eq.
    rewrite truthy_py_str. unfold py_int. by rewrite py_float_str.
  - intros c Hc. unfold get_window, set_window, bind, gets, modify. simpl.
    rewrite hgetall_hset_ne by done.
    destruct (hgetall (conf_hash w) c !! "window_s") as [v|]; [|done].
    by destruct (truthy v).
  - intros H. unfold get_window, bind, gets, hgetall. by rewrite H.
Qed.

Lemma window_round_trip_witness :
  conf_hash world0 !! "c1" = None ∧ (get_window "c1" world0).1 = Ok 2.
Proof.
  split; [reflexivity|].
  destruct (window_round_trip world0 "c1" 5) as (_ & _ & H). by apply H.
Defined.

(** ** The first message and bursts *)

Lemma window_is_ext w w' c ws win :
  conf_hash w' = conf_hash w -> window_seconds_default w' = window_seconds_default w ->
  window_is w c ws win -> window_is w' c ws win.
Proof.
  intros Hc Hd. destruct ws as [x|]; simpl; [done|].
  unfold get_window, bind, gets. rewrite Hc.
  destruct (hgetall (conf_hash w) c !! "window_s") as [v|]; simpl; [|by rewrite Hd].
  destruct (truthy v); simpl; [done|by rewrite Hd].
Qed.

(** The first message of a series. *)
Lemma process_message_fresh w now chat_id mid uid uname utype text ws win :
  window_is w chat_id ws win ->
  hgetall (agg_hash w) chat_id = ∅ ->
  let out := process_message now chat_id mid uid uname utype text ws w in
  out.1 = Ok tt
  ∧ series_of (hgetall (agg_hash out.2) chat_id)
    = Some (mkSeries uid mid uname utype text now now 1)
  ∧ sched_zset out.2 !! chat_id = Some (now + seconds win)
  ∧ final_stream out.2 = final_stream w
  ∧ (∀ c, c ≠ chat_id ->
       hgetall (agg_hash out.2) c = hgetall (agg_hash w) c
       ∧ sched_zset out.2 !! c = sched_zset w !! c).
Proof.
  intros Hw He out. subst out.
  rewrite (process_message_no_series _ _ _ _ _ _ _ _ _ _ Hw He). simpl.
  split; [done|]. rewrite hgetall_hset_eq, He, map_union_empty, lookup_insert_eq.
  split; [apply series_of_new|]. split; [done|]. split; [done|].
  intros c Hc. by rewrite hgetall_hset_ne, lookup_insert_ne.
Qed.

(** X2. On a chat without an active series [process_message] starts one:
    count 1, [start_ts = last_ts = now], the fields of the message, and
    the deadline [now + window]; nothing goes to the final stream, and the
    series and deadlines of the other chats stay as they are. *)
Theorem process_message_first w now chat_id mid uid uname utype text ws win :
  window_is w chat_id ws win ->
  hgetall (agg_hash w) chat_id = ∅ ->
  let out := process_message now chat_id mid uid uname utype text ws w in
  out.1 = Ok tt
  ∧ series_of (hgetall (agg_hash out.2) chat_id)
    = Some (mkSeries uid mid uname utype text now now 1)
  ∧ sched_zset out.2 !! chat_id = Some (now + seconds win)
  ∧ final_stream out.2 = final_stream w
  ∧ (∀ c, c ≠ chat_id ->
       hgetall (agg_hash out.2) c = hgetall (agg_hash w) c
       ∧ sched_zset out.2 !! c = sched_zset w !! c).
Proof. apply process_message_fresh. Qed.

Lemma process_message_first_witness :
  window_is world0 "c1" None 2 ∧ hgetall (agg_hash world0) "c1" = ∅ ∧
  series_of
    (hgetall
       (agg_hash (process_message (seconds 10) "c1" "m1" "u1" "alice" "merchant" "a"
                    None world0).2) "c1")
  = Some series1.
Proof.
  split; [reflexivity|]. split; [reflexivity|].
  by destruct (process_message_first world0 (seconds 10) "c1" "m1" "u1" "alice"
                 "merchant" "a" None 2 eq_refl eq_refl) as (_ & H & _).
Defined.

Lemma last_cons {A} (l : list A) : ∀ x d, List.last (x :: l) d = List.last l x.
Proof.
  induction l as [|y l IH]; intros x d; [done|].
  change (List.last (x :: y :: l) d) with (List.last (y :: l) d).
  by rewrite !IH.
Qed.

Lemma process_all_extend chat_id uid ws win : ∀ es w s,
  window_is w chat_id ws win ->
  series_of (hgetall (agg_hash w) chat_id) = Some s ->
  s_user_id s = uid ->
  within_window win (s_last_ts s) es ->
  let w' := process_all chat_id uid ws es w in
  series_of (hgetall (agg_hash w') chat_id)
  = Some (mkSeries uid (s_messages_id s) (s_username s) (s_user_type s)
            (fold_left join_text (map ev_text es) (s_text s)) (s_start_ts s)
            (List.last (map ev_now es) (s_last_ts s))
            (s_count s + Z.of_nat (length es)))
  ∧ final_stream w' = final_stream w
  ∧ last_stream_id w' = last_stream_id w
  ∧ sched_zset w' !! chat_id
    = match es with
      | [] => sched_zset w !! chat_id
      | _ => Some (List.last (map ev_now es) (s_last_ts s) + seconds win)
      end.
Proof.
  induction es as [|e es IH]; intros w s Hw Hs Hu Hin w'.
  - subst w'. simpl. rewrite Z.add_0_r. destruct s. simpl in *. by subst.
  - destruct Hin as [He Hin]. subst w'. cbn [process_all].
    rewrite (process_message_extend _ _ _ _ _ _ _ _ _ _ _ Hw Hs Hu He). cbn [snd].
    set (w1 := stored chat_id (update_data s (ev_text e) (ev_now e))
                 (ev_now e + seconds win) w).
    assert (series_of (hgetall (agg_hash w1) chat_id)
            = Some (mkSeries (s_user_id s) (s_messages_id s) (s_username s)
                      (s_user_type s) (join_text (s_text s) (ev_text e))
                      (s_start_ts s) (ev_now e) (s_count s + 1))) as Hs1.
    { subst w1. simpl. rewrite hgetall_hset_eq. by apply series_of_update. }
    assert (window_is w1 chat_id ws win) as Hw1
      by (by apply (window_is_ext w)).
    destruct (IH w1 _ Hw1 Hs1 Hu Hin) as (H1 & H2 & H3 & H4). simpl in H1, H4.
    split; [|split; [|split]].
    + rewrite H1. cbn [map fold_left length].
      rewrite last_cons.
      do 2 f_equal. lia.
    + by rewrite H2.
    + by rewrite H3.
    + rewrite H4. cbn [map].
      rewrite last_cons.
      destruct es as [|e' es]; [|done].
      subst w1. simpl. by rewrite lookup_insert_eq.
Qed.

(** X3. Burst fusion.  When the worker processes the messages of one author
    on a chat without a series, each at most [window] seconds after the one
    before, they end up in one series: the texts joined by line feeds (an
    empty accumulated text takes no line feed), the count their number,
    [start_ts] the time of the first and [last_ts] the time of the last,
    the [messages_id], [username] and [user_type] those of the first
    message; nothing reaches the final stream before the flush, and the
    flush writes exactly this series as one final message. *)
Theorem burst_fusion w chat_id uid ws win e es :
  window_is w chat_id ws win ->
  hgetall (agg_hash w) chat_id = ∅ ->
  within_window win (ev_now e) es ->
  let w' := process_all chat_id uid ws (e :: es) w in
  let s := mkSeries uid (ev_messages_id e) (ev_username e) (ev_user_type e)
             (fold_left join_text (map ev_text es) (ev_text e)) (ev_now e)
             (List.last (map ev_now es) (ev_now e))
             (Z.of_nat (length (e :: es))) in
  series_of (hgetall (agg_hash w') chat_id) = Some s
  ∧ final_stream w' = final_stream w
  ∧ sched_zset w' !! chat_id = Some (s_last_ts s + seconds win)
  ∧ ∀ now current_time,
      final_stream (_flush_series now chat_id current_time w').2 !! chat_id
      = Some (default [] (final_stream w !! chat_id)
              ++ [(last_stream_id w + 1, final_message_of s)]).
Proof.
  intros Hw He Hin w' s.
  destruct (process_message_fresh w (ev_now e) chat_id (ev_messages_id e) uid
              (ev_username e) (ev_user_type e) (ev_text e) ws win Hw He)
    as (_ & Hs1 & Hd1 & Hf1 & _).
  set (w1 := (process_message (ev_now e) chat_id (ev_messages_id e) uid
                (ev_username e) (ev_user_type e) (ev_text e) ws w).2) in *.
  assert (window_is w1 chat_id ws win) as Hw1.
  { subst w1. rewrite (process_message_no_series _ _ _ _ _ _ _ _ _ _ Hw He).
    by apply (window_is_ext w). }
  assert (last_stream_id w1 = last_stream_id w) as Hl1.
  { subst w1. by rewrite (process_message_no_series _ _ _ _ _ _ _ _ _ _ Hw He). }
  destruct (process_all_extend chat_id uid ws win es w1 _ Hw1 Hs1 eq_refl Hin)
    as (H1 & H2 & Hl & H3).
  change (process_all chat_id uid ws es w1) with w' in H1, H2, Hl, H3.
  simpl in H1, H3. rewrite Hl1 in Hl.
  assert (series_of (hgetall (agg_hash w') chat_id) = Some s) as Hs.
  { rewrite H1. unfold s. do 2 f_equal. simpl length. lia. }
  split; [done|]. split; [by rewrite H2|]. split.
  - rewrite H3. destruct es; [|done]. simpl. exact Hd1.
  - intros now ct. rewrite (flush_a_series _ _ _ _ _ Hs). simpl.
    unfold xadd. rewrite lookup_insert_eq. by rewrite H2, Hf1, Hl.
Qed.

(** The series of the sample deployment after the three messages of
    [demo_burst]: one series with text [a], [b], [c] on three lines. *)
Lemma burst_fusion_witness :
  window_is world0 "c1" None 2 ∧ hgetall (agg_hash world0) "c1" = ∅ ∧
  within_window 2 (seconds 10) (tl demo_burst) ∧
  series_of (hgetall (agg_hash (process_all "c1" "u1" None demo_burst world0)) "c1")
  = Some (mkSeries "u1" "m1" "alice" "merchant" ("a" +:+ NL +:+ "b" +:+ NL +:+ "c")
            (seconds 10) (seconds 11 + 500000) 3).
Proof.
  assert (within_window 2 (seconds 10) (tl demo_burst)) as Hin
    by (simpl; repeat split; vm_compute; discriminate).
  split; [reflexivity|]. split; [reflexivity|]. split; [exact Hin|].
  by destruct (burst_fusion world0 "c1" "u1" None 2
                 (mkEvent (seconds 10) "m1" "alice" "merchant" "a") (tl demo_burst)
                 eq_refl eq_refl Hin) as (H & _).
Defined.

(** ** The scheduler *)

Lemma zset_hits_elem (z : gmap string Z) (P : string * Z -> Prop)
    `{!∀ e, Decision (P e)} c :
  c ∈ (merge_sort zset_le (filter P (map_to_list z))).*1
  <-> ∃ t, z !! c = Some t ∧ P (c, t).
Proof.
  rewrite merge_sort_Permutation, list_elem_of_fmap. split.
  - intros ([c' t] & -> & [HP Hin%elem_of_map_to_list]%list_elem_of_filter). eauto.
  - intros (t & Hz & HP). exists (c, t). split; [done|].
    apply list_elem_of_filter. split; [done|]. by apply elem_of_map_to_list.
Qed.

Lemma zset_hits_NoDup (z : gmap string Z) (P : string * Z -> Prop)
    `{!∀ e, Decision (P e)} :
  NoDup (merge_sort zset_le (filter P (map_to_list z))).*1.
Proof.
  rewrite merge_sort_Permutation.
  eapply sublist_NoDup; [apply (NoDup_fst_map_to_list z)|].
  apply fmap_sublist, sublist_filter.
Qed.

Lemma zrangebyscore_elem z lo hi num c :
  c ∈ zrangebyscore z lo hi num -> ∃ t, z !! c = Some t ∧ lo <= t ∧ t <= hi.
Proof.
  unfold zrangebyscore. intros H.
  assert (c ∈ (merge_sort zset_le
                 (filter (fun e : string * Z => lo <= e.2 ∧ e.2 <= hi)
                    (map_to_list z))).*1) as H'.
  { destruct (num <? 0); [done|]. eapply elem_of_sublist; [exact H|apply sublist_take]. }
  apply zset_hits_elem in H' as (t & Hz & HP). eauto.
Qed.

Lemma zrangebyscore_all z lo hi num c t :
  num < 0 -> z !! c = Some t -> lo <= t -> t <= hi ->
  c ∈ zrangebyscore z lo hi num.
Proof.
  intros Hn Hz H1 H2. unfold zrangebyscore.
  rewrite (proj2 (Z.ltb_lt _ _) Hn). apply zset_hits_elem. eauto.
Qed.

Lemma zrangebyscore_NoDup z lo hi num : NoDup (zrangebyscore z lo hi num).
Proof.
  unfold zrangebyscore. destruct (num <? 0); [apply zset_hits_NoDup|].
  eapply sublist_NoDup; [|apply sublist_take]. apply zset_hits_NoDup.
Qed.

(** A flush leaves the other chats' series, deadlines and final messages. *)
Lemma flush_series_other now c ct w c' :
  c' ≠ c ->
  let w' := (_flush_series now c ct w).2 in
  hgetall (agg_hash w') c' = hgetall (agg_hash w) c'
  ∧ sched_zset w' !! c' = sched_zset w !! c'
  ∧ final_stream w' !! c' = final_stream w !! c'.
Proof.
  intros Hne. unfold _flush_series, ensure_flush_lock, bind, modify, gets, lift,
    redis_xadd_final, _increment_metric, ret. simpl.
  destruct (bool_decide _); [done|].
  destruct (float_field _ "start_ts" _); [|done].
  destruct (float_field _ "last_ts" _); [|done].
  destruct (py_int _); [|done]. simpl.
  rewrite hgetall_delete_ne, lookup_delete_ne by done.
  unfold xadd. by rewrite lookup_insert_ne.
Qed.

Lemma flush_expired_spec W now : ∀ l w n,
  Inv W w -> NoDup l -> (∀ c, c ∈ l -> hgetall (agg_hash w) c ≠ ∅) ->
  let out := flush_expired now l n w in
  out.1 = Ok (n + Z.of_nat (length l))
  ∧ (∀ c, c ∈ l ->
       hgetall (agg_hash out.2) c = ∅ ∧ sched_zset out.2 !! c = None
       ∧ ∃ id s, series_of (hgetall (agg_hash w) c) = Some s
                 ∧ final_stream out.2 !! c
                   = Some (default [] (final_stream w !! c)
                           ++ [(id, final_message_of s)]))
  ∧ (∀ c, c ∉ l ->
       hgetall (agg_hash out.2) c = hgetall (agg_hash w) c
       ∧ sched_zset out.2 !! c = sched_zset w !! c
       ∧ final_stream out.2 !! c = final_stream w !! c).
Proof.
  induction l as [|c l IH]; intros w n HI Hnd Hser out.
  - subst out. simpl. split; [f_equal; lia|]. split; [|done].
    by intros c ?%elem_of_nil.
  - apply NoDup_cons in Hnd as [Hc Hnd].
    destruct (Inv_series _ _ _ HI (Hser c ltac:(by left))) as [s Hs].
    subst out. cbn [flush_expired]. unfold bind.
    pose proof (flush_series_other now c (Some now) w) as Hoth.
    pose proof (flush_series_Inv W w now c (Some now) HI) as (HI1 & Hagg & Hsch).
    rewrite (flush_a_series _ _ _ _ _ Hs) in *. cbn [fst snd] in *.
    set (w1 := flushed c s w) in *.
    destruct (IH w1 (n + 1) HI1 Hnd) as (Hr & Hin & Hout).
    { intros c' Hc'. destruct (Hoth c') as (-> & _); [by intros ->|].
      apply Hser. by right. }
    split; [rewrite Hr; f_equal; simpl length; lia|]. split.
    + intros c' [->|Hc']%elem_of_cons.
      * destruct (Hout c Hc) as (-> & -> & ->).
        split; [done|]. split; [done|]. exists (last_stream_id w + 1), s.
        split; [done|]. subst w1. simpl. unfold xadd. by rewrite lookup_insert_eq.
      * destruct (Hin c' Hc') as (H1 & H2 & id & s' & H3 & H4).
        destruct (Hoth c') as (Ha & _ & Hf); [by intros ->|].
        split; [done|]. split; [done|]. exists id, s'.
        rewrite <- Ha, <- Hf. by split.
    + intros c' Hc'. apply not_elem_of_cons in Hc' as [Hne Hc'].
      destruct (Hout c' Hc') as (-> & -> & ->). by apply Hoth.
Qed.

Lemma Inv_deadline_series W w c t :
  Inv W w -> sched_zset w !! c = Some t -> hgetall (agg_hash w) c ≠ ∅.
Proof.
  intros HI Hz He. specialize (HI c). unfold deadline_ok in HI.
  rewrite decide_True in HI by done. congruence.
Qed.

(** X4. One scheduler tick, in a store where [Inv] holds (every deadline
    belongs to a series): the tick returns the number of chats of its batch
    (the chats with a deadline between 0 and now, at most [max_batch] of them
    when that is not negative); each chat of the batch loses its series and
    its deadline and gets exactly one new final message, the message of its
    series; a chat outside the batch keeps its series, deadline and final
    messages, in particular every chat whose deadline is in the future; and
    with a negative [max_batch] every chat that is due is in the batch. *)
Theorem scheduler_tick_spec W w now max_batch :
  Inv W w ->
  let out := scheduler_tick now max_batch w in
  let batch := zrangebyscore (sched_zset w) 0 now
                 (default (worker_max_batch w) max_batch) in
  out.1 = Ok (Z.of_nat (length batch))
  ∧ (∀ c, c ∈ batch ->
       hgetall (agg_hash out.2) c = ∅ ∧ sched_zset out.2 !! c = None
       ∧ ∃ id s, series_of (hgetall (agg_hash w) c) = Some s
                 ∧ final_stream out.2 !! c
                   = Some (default [] (final_stream w !! c)
                           ++ [(id, final_message_of s)]))
  ∧ (∀ c, c ∉ batch ->
       hgetall (agg_hash out.2) c = hgetall (agg_hash w) c
       ∧ sched_zset out.2 !! c = sched_zset w !! c
       ∧ final_stream out.2 !! c = final_stream w !! c)
  ∧ (∀ c t, sched_zset w !! c = Some t -> now < t -> c ∉ batch)
  ∧ (∀ c t, default (worker_max_batch w) max_batch < 0 ->
       sched_zset w !! c = Some t -> 0 <= t -> t <= now -> c ∈ batch).
Proof.
  intros HI out batch.
  assert (out = flush_expired now batch 0 w) as ->.
  { subst out batch. unfold scheduler_tick, bind, gets, ret.
    by destruct max_batch. }
  destruct (flush_expired_spec W now batch w 0 HI) as (Hr & Hin & Hout).
  { apply zrangebyscore_NoDup. }
  { intros c (t & Hz & _)%zrangebyscore_elem. by eapply Inv_deadline_series. }
  split; [by rewrite Hr|]. split; [done|]. split; [done|]. split.
  - intros c t Hz Hlt (t' & Hz' & _ & Hle)%zrangebyscore_elem.
    rewrite Hz in Hz'. injection Hz' as <-. lia.
  - intros c t Hn Hz H0 H1. by eapply zrangebyscore_all.
Qed.

Lemma scheduler_tick_spec_witness :
  Inv demo_windows world1 ∧ (scheduler_tick (seconds 13) None world1).1 = Ok 1.
Proof.
  assert (Inv demo_windows world1) as HI.
  { apply process_message_Inv; [done|reflexivity|by apply Inv_empty]. }
  split; [exact HI|].
  destruct (scheduler_tick_spec demo_windows world1 (seconds 13) None HI) as (H & _).
  exact H.
Defined.

(** ** Shutdown and clean-up *)

Lemma zrange_all_elem (z : gmap string Z) c :
  c ∈ zrange_all z <-> ∃ t, z !! c = Some t.
Proof.
  unfold zrange_all. rewrite merge_sort_Permutation, list_elem_of_fmap. split.
  - intros ([c' t] & -> & Hin%elem_of_map_to_list). eauto.
  - intros (t & Hz). exists (c, t). split; [done|]. by apply elem_of_map_to_list.
Qed.

Lemma zrange_all_NoDup (z : gmap string Z) : NoDup (zrange_all z).
Proof.
  unfold zrange_all. rewrite merge_sort_Permutation. apply NoDup_fst_map_to_list.
Qed.

Lemma flush_a_series_locks w now chat_id current_time s :
  series_of (hgetall (agg_hash w) chat_id) = Some s ->
  _stop_events (_flush_series now chat_id current_time w).2 = _stop_events w.
Proof. intros H. by rewrite (flush_a_series _ _ _ _ _ H). Qed.

Lemma flush_each_spec W now : ∀ l w res,
  Inv W w -> NoDup l -> (∀ c, c ∈ l -> hgetall (agg_hash w) c ≠ ∅) ->
  let out := flush_each now l res w in
  (∃ ids, out.1 = Ok (res ++ zip l (Some <$> ids)) ∧ length ids = length l)
  ∧ Inv W out.2
  ∧ (∀ c, c ∈ l ->
       hgetall (agg_hash out.2) c = ∅ ∧ sched_zset out.2 !! c = None
       ∧ ∃ id s, series_of (hgetall (agg_hash w) c) = Some s
                 ∧ final_stream out.2 !! c
                   = Some (default [] (final_stream w !! c)
                           ++ [(id, final_message_of s)]))
  ∧ (∀ c, c ∉ l ->
       hgetall (agg_hash out.2) c = hgetall (agg_hash w) c
       ∧ sched_zset out.2 !! c = sched_zset w !! c
       ∧ final_stream out.2 !! c = final_stream w !! c).
Proof.
  induction l as [|c l IH]; intros w res HI Hnd Hser out.
  - subst out. simpl. split; [exists []; by rewrite app_nil_r|].
    split; [done|]. split; [|done]. by intros c ?%elem_of_nil.
  - apply NoDup_cons in Hnd as [Hc Hnd].
    destruct (Inv_series _ _ _ HI (Hser c ltac:(by left))) as [s Hs].
    subst out. cbn [flush_each]. unfold bind.
    pose proof (flush_series_other now c None w) as Hoth.
    pose proof (flush_series_Inv W w now c None HI) as (HI1 & Hagg & Hsch).
    rewrite (flush_a_series _ _ _ _ _ Hs) in *. cbn [fst snd] in *.
    set (w1 := flushed c s w) in *.
    destruct (IH w1 (res ++ [(c, Some (last_stream_id w + 1))]) HI1 Hnd)
      as ((ids & Hr & Hlen) & HI2 & Hin & Hout).
    { intros c' Hc'. destruct (Hoth c') as (-> & _); [by intros ->|].
      apply Hser. by right. }
    split.
    { exists (last_stream_id w + 1 :: ids). rewrite Hr. split.
      - by rewrite <- app_assoc.
      - simpl. by rewrite Hlen. }
    split; [done|]. split.
    + intros c' [->|Hc']%elem_of_cons.
      * destruct (Hout c Hc) as (-> & -> & ->).
        split; [done|]. split; [done|]. exists (last_stream_id w + 1), s.
        split; [done|]. subst w1. simpl. unfold xadd. by rewrite lookup_insert_eq.
      * destruct (Hin c' Hc') as (H1 & H2 & id & s' & H3 & H4).
        destruct (Hoth c') as (Ha & _ & Hf); [by intros ->|].
        split; [done|]. split; [done|]. exists id, s'.
        rewrite <- Ha, <- Hf. by split.
    + intros c' Hc'. apply not_elem_of_cons in Hc' as [Hne Hc'].
      destruct (Hout c' Hc') as (-> & -> & ->). by apply Hoth.
Qed.

(** X5. Shutdown.  In a store where [Inv] holds, [stop_all] returns; after
    it no chat has an active series or a deadline, every series that was
    active has become the newest final message of its chat, the chats that
    had no series keep their final messages, and no worker, scheduler or
    flush lock is registered any more. *)
Theorem stop_all_spec W w now :
  Inv W w ->
  let out := stop_all now w in
  out.1 = Ok tt
  ∧ (∀ c, hgetall (agg_hash out.2) c = ∅ ∧ sched_zset out.2 !! c = None)
  ∧ (∀ c s, series_of (hgetall (agg_hash w) c) = Some s ->
       ∃ id, final_stream out.2 !! c
             = Some (default [] (final_stream w !! c) ++ [(id, final_message_of s)]))
  ∧ (∀ c, hgetall (agg_hash w) c = ∅ ->
       final_stream out.2 !! c = final_stream w !! c)
  ∧ _stop_events out.2 = [] ∧ _flush_locks out.2 = [].
Proof.
  intros HI out.
  destruct (flush_each_spec W now (zrange_all (sched_zset w)) w [] HI)
    as ((ids & Hr & _) & HI2 & Hin & Hout).
  { apply zrange_all_NoDup. }
  { intros c (t & Hz)%zrange_all_elem. by eapply Inv_deadline_series. }
  assert (∀ c, hgetall (agg_hash w) c = ∅ -> c ∉ zrange_all (sched_zset w)) as Hno.
  { intros c He (t & Hz)%zrange_all_elem.
    by apply (Inv_deadline_series W w c t HI Hz). }
  assert (∀ c, hgetall (agg_hash w) c ≠ ∅ -> c ∈ zrange_all (sched_zset w)) as Hyes.
  { intros c Hne. apply zrange_all_elem. specialize (HI c). unfold deadline_ok in HI.
    rewrite decide_False in HI by done. destruct HI as (s & t & _ & Hz & _). eauto. }
  subst out. unfold stop_all, _flush_all, bind, gets, modify. simpl in *.
  destruct (flush_each now (zrange_all (sched_zset w)) [] w) as [r w1] eqn:E.
  simpl in *. subst r. simpl. split; [done|]. split; [|split; [|split]].
  - intros c. destruct (decide (hgetall (agg_hash w) c = ∅)) as [He|Hne].
    + destruct (Hout c (Hno c He)) as (-> & -> & _). split; [done|].
      specialize (HI c). unfold deadline_ok in HI. by rewrite decide_True in HI.
    + by destruct (Hin c (Hyes c Hne)) as (? & ? & _).
  - intros c s Hs. destruct (Hin c) as (_ & _ & id & s' & Hs' & Hf).
    { apply Hyes. by eapply series_of_nonempty. }
    exists id. congruence.
  - intros c He. by destruct (Hout c (Hno c He)) as (_ & _ & ?).
  - done.
Qed.

Lemma stop_all_spec_witness :
  Inv demo_windows world1 ∧ (stop_all (seconds 11) world1).1 = Ok tt.
Proof.
  assert (Inv demo_windows world1) as HI.
  { apply process_message_Inv; [done|reflexivity|by apply Inv_empty]. }
  split; [exact HI|].
  by destruct (stop_all_spec demo_windows world1 (seconds 11) HI) as (H & _).
Defined.

Lemma del_key_elem k keys x : x ∈ del_key k keys <-> x ∈ keys ∧ x ≠ k.
Proof. unfold del_key. rewrite list_elem_of_filter. tauto. Qed.

(** The first step of [cleanup_chat]: the worker of the chat, if one is
    registered, is unregistered; the Redis store is not touched. *)
Lemma cleanup_unregisters c w :
  ∃ w0, (if bool_decide (c ∈ _stop_events w) then stop_worker c else ret tt) w
        = (Ok tt, w0)
        ∧ same_store w w0
        ∧ (∀ x, x ∈ _stop_events w0 <-> x ∈ _stop_events w ∧ x ≠ c).
Proof.
  unfold stop_worker. unfold bind, gets, modify, ret. simpl.
  destruct (bool_decide (c ∈ _stop_events w)) eqn:E; simpl.
  - rewrite ?E. simpl. destruct (bool_decide (c ∈ _flush_locks w)); eexists; (split; [done|]);
      (split; [by repeat split|]); intros x; simpl; apply del_key_elem.
  - apply bool_decide_eq_false in E. eexists. split; [done|].
    split; [by repeat split|]. intros x. split; [|tauto]. intros Hx. split; [done|]. by intros ->.
Qed.

Lemma cleanup_chat_run now c w w0 r w1 :
  (if bool_decide (c ∈ _stop_events w) then stop_worker c else ret tt) w
  = (Ok tt, w0) ->
  _flush_series now c None w0 = (Ok r, w1) ->
  cleanup_chat now c w
  = (Ok tt, set_sched_zset (delete c) (set_metrics_hash (delete c)
              (set_conf_hash (delete c) (set_agg_hash (delete c)
                 (set_final_stream (delete c) (set_raw_stream (delete c) w1)))))).
Proof.
  intros H1 H2.
  unfold cleanup_chat, foREDIS_CLIENTe_flush_chat, bind, gets, modify.
  cbv beta. by rewrite H1, H2.
Qed.

Lemma lock_taken_elem c ls : c ∈ lock_taken c ls.
Proof.
  unfold lock_taken. case_bool_decide; [done|]. apply elem_of_app. right. by left.
Qed.

(** X6. Clean-up of a chat whose series, if it has one, is well formed:
    [cleanup_chat] returns; the chat then has no raw or final stream, no
    series, no configuration, no metrics, no deadline and no registered
    worker, while its flush lock is registered again by the forced flush;
    every other chat keeps all of these as they were. *)
Theorem cleanup_chat_spec w now c :
  (hgetall (agg_hash w) c = ∅ ∨ ∃ s, series_of (hgetall (agg_hash w) c) = Some s) ->
  let out := cleanup_chat now c w in
  out.1 = Ok tt
  ∧ (raw_stream out.2 !! c = None ∧ final_stream out.2 !! c = None
     ∧ agg_hash out.2 !! c = None ∧ conf_hash out.2 !! c = None
     ∧ metrics_hash out.2 !! c = None ∧ sched_zset out.2 !! c = None
     ∧ (c ∉ _stop_events out.2) ∧ c ∈ _flush_locks out.2)
  ∧ (∀ c', c' ≠ c ->
       raw_stream out.2 !! c' = raw_stream w !! c'
       ∧ final_stream out.2 !! c' = final_stream w !! c'
       ∧ agg_hash out.2 !! c' = agg_hash w !! c'
       ∧ conf_hash out.2 !! c' = conf_hash w !! c'
       ∧ metrics_hash out.2 !! c' = metrics_hash w !! c'
       ∧ sched_zset out.2 !! c' = sched_zset w !! c'
       ∧ (c' ∈ _stop_events out.2 <-> c' ∈ _stop_events w)).
Proof.
  intros Hs out. subst out.
  destruct (cleanup_unregisters c w) as (w0 & Hrun & Hst & Hev).
  destruct Hst as (Hraw & Hfin & Hagg & Hsch & Hconf & Hmet & Hid).
  rewrite <- Hagg in Hs.
  destruct Hs as [He|[s Hser]].
  - rewrite (cleanup_chat_run _ _ _ _ _ _ Hrun (flush_no_series _ _ _ _ He)).
    simpl. rewrite !lookup_delete_eq. split; [done|]. split.
    { repeat split; try done.
      - intros [_ ?]%Hev. done.
      - apply lock_taken_elem. }
    intros c' Hne. rewrite !lookup_delete_ne by done.
    rewrite Hraw, Hfin, Hagg, Hsch, Hconf, Hmet. repeat split; try done.
    + by intros [? _]%Hev.
    + intros ?. by apply Hev.
  - rewrite (cleanup_chat_run _ _ _ _ _ _ Hrun (flush_a_series _ _ _ _ _ Hser)).
    simpl. rewrite !lookup_delete_eq. split; [done|]. split.
    { repeat split; try done.
      - intros [_ ?]%Hev. done.
      - apply lock_taken_elem. }
    intros c' Hne. rewrite !lookup_delete_ne by done.
    unfold xadd. rewrite !lookup_insert_ne by done.
    rewrite Hraw, Hfin, Hagg, Hsch, Hconf, Hmet. repeat split; try done.
    + by intros [? _]%Hev.
    + intros ?. by apply Hev.
Qed.

Lemma cleanup_chat_spec_witness :
  (hgetall (agg_hash world1) "c1" = ∅
   ∨ ∃ s, series_of (hgetall (agg_hash world1) "c1") = Some s)
  ∧ (cleanup_chat (seconds 11) "c1" world1).1 = Ok tt.
Proof.
  assert (hgetall (agg_hash world1) "c1" = ∅
          ∨ ∃ s, series_of (hgetall (agg_hash world1) "c1") = Some s) as H
    by (right; exists series1; reflexivity).
  split; [exact H|].
  by destruct (cleanup_chat_spec world1 (seconds 11) "c1" H) as (? & _).
Defined.

(** ** Which component of the service writes what *)

Lemma keeps_match_attempts {B} (f : World -> B) env :
  (∀ g w, f (set_llm_log g w) = f w) ->
  ∀ attempts u last, keeps f (match_attempts env attempts u last).
Proof.
  intros H attempts. induction attempts as [|i rest IH]; intros u last; simpl.
  - apply keeps_ret.
  - apply keeps_bind; [by apply keeps_chat_completions_create|]. intros raw.
    apply keeps_bind; [apply keeps_lift|]. intros [| | | | | |d]; try exact (IH _ _).
    destruct (_ || _); [apply keeps_ret|exact (IH _ _)].
Qed.

Lemma keeps_flush_expired {B} (f : World -> B) now :
  (∀ c ct, keeps f (_flush_series now c ct)) ->
  ∀ chats n, keeps f (flush_expired now chats n).
Proof.
  intros H chats. induction chats as [|c chats IH]; intros n; simpl.
  - apply keeps_ret.
  - apply keeps_bind; [apply H|]. intros r. apply IH.
Qed.

Lemma keeps_get_statuses {B} (f : World -> B) chats : keeps f (get_statuses chats).
Proof.
  induction chats as [|c chats IH]; simpl; [apply keeps_ret|].
  unfold get_chat_status. frame_tac.
Qed.

Lemma keeps_match_answer {B} (f : World -> B) env messages answer :
  (∀ g w, f (set_llm_log g w) = f w) ->
  keeps f (match_answer_to_question env messages answer).
Proof. intros H. by apply keeps_match_attempts. Qed.

Ltac unfold_producer :=
  unfold process_incoming_message, _ensure_worker_for_chat,
    process_message_if_reply_exist, process_message_with_pp_response,
    _append_to_last_long_for_user, _get_merchant_messages, classify_text,
    _check_pending_messages, check_pending_chat,
    silence_branch, reminder_branch, remind_one, send_message,
    send_silence_notification, get_all_chats_status in *.

Ltac service_frame :=
  unfold_producer; unfold_client;
  repeat first
    [ apply keeps_match_answer; intros; reflexivity
    | apply keeps_get_statuses
    | frame_step ].

(** X7. The router writes neither series nor deadlines and sends nothing:
    whatever the event and whatever the LLM answers, also when the run ends
    in an exception, [process_incoming_message] leaves the active series of
    every chat, the deadlines, the flush locks, the configuration table and
    the log of outbound requests as they were. *)
Theorem router_frame env now p w :
  let out := process_incoming_message env now p w in
  agg_hash out.2 = agg_hash w ∧ sched_zset out.2 = sched_zset w
  ∧ outbox out.2 = outbox w ∧ CONFIG_CHATS out.2 = CONFIG_CHATS w
  ∧ _flush_locks out.2 = _flush_locks w.
Proof.
  assert (keeps agg_hash (process_incoming_message env now p)) as H1 by service_frame.
  assert (keeps sched_zset (process_incoming_message env now p)) as H2 by service_frame.
  assert (keeps outbox (process_incoming_message env now p)) as H3 by service_frame.
  assert (keeps CONFIG_CHATS (process_incoming_message env now p)) as H4 by service_frame.
  assert (keeps _flush_locks (process_incoming_message env now p)) as H5 by service_frame.
  simpl. by rewrite (H1 w), (H2 w), (H3 w), (H4 w), (H5 w).
Qed.

(** ** What the aggregator and the monitor do to the final streams *)

Lemma steps_bind {A B} R `{!Transitive R} (m : M A) (k : A -> M B) :
  steps R m -> (∀ a, steps R (k a)) -> steps R (bind m k).
Proof.
  intros Hm Hk w. unfold bind. specialize (Hm w).
  destruct (m w) as [[a|e] w1]; simpl in *; [|done].
  etrans; [exact Hm|apply Hk].
Qed.

Lemma steps_try_except {A} R `{!Transitive R} (m : M A) h :
  steps R m -> (∀ e, steps R (h e)) -> steps R (try_except m h).
Proof.
  intros Hm Hh w. unfold try_except. specialize (Hm w).
  destruct (m w) as [[a|e] w1]; simpl in *; [done|].
  etrans; [exact Hm|apply Hh].
Qed.

Lemma steps_for_each {A} R `{!PreOrder R} (xs : list A) body :
  (∀ x, steps R (body x)) -> steps R (for_each xs body).
Proof.
  intros H. induction xs as [|x xs IH]; simpl; [by intros w|].
  apply steps_bind; [apply _|apply H|done].
Qed.

#[local] Instance finals_grow_preorder : PreOrder finals_grow.
Proof.
  split.
  - intros w. split; [done|lia].
  - intros w1 w2 w3 [H1 L1] [H2 L2]. split; [|lia].
    intros c. etrans; [apply H1|apply H2].
Qed.

#[local] Instance finals_shrink_preorder : PreOrder finals_shrink.
Proof.
  split.
  - by intros w c.
  - intros w1 w2 w3 H1 H2 c. etrans; [apply H2|apply H1].
Qed.

Lemma grow_of_keeps {A} (m : M A) :
  keeps final_stream m -> keeps last_stream_id m -> steps finals_grow m.
Proof. intros H1 H2 w. split; [by rewrite H1|]. rewrite H2. lia. Qed.

Lemma shrink_of_keeps {A} (m : M A) : keeps final_stream m -> steps finals_shrink m.
Proof. intros H w c. by rewrite H. Qed.

Lemma grow_xadd_final c fs : steps finals_grow (redis_xadd_final c fs).
Proof.
  intros w. split; [|simpl; lia]. intros c'. simpl. unfold xadd.
  destruct (decide (c = c')) as [<-|Hne].
  - rewrite lookup_insert_eq. simpl. by apply prefix_app_r.
  - by rewrite lookup_insert_ne.
Qed.

Lemma shrink_xdel c id :
  steps finals_shrink (modify (set_final_stream (xdel c id))).
Proof.
  intros w c'. simpl. unfold xdel.
  destruct (final_stream w !! c) as [l|] eqn:E; [|done].
  destruct (decide (c = c')) as [<-|Hne].
  - rewrite lookup_insert_eq, E. simpl. apply sublist_filter.
  - by rewrite lookup_insert_ne.
Qed.

Ltac grow_tac :=
  repeat first
    [ apply grow_of_keeps; solve [service_frame]
    | apply grow_xadd_final
    | apply steps_bind; [apply _| |intros]
    | match goal with
      | |- steps _ (match ?x with _ => _ end) => destruct x
      | |- steps _ (if ?b then _ else _) => destruct b
      end ].

Lemma grow_flush_series now c ct : steps finals_grow (_flush_series now c ct).
Proof. unfold _flush_series. grow_tac. Qed.

Lemma grow_flush_expired now : ∀ chats n, steps finals_grow (flush_expired now chats n).
Proof.
  induction chats as [|c chats IH]; intros n; simpl; [by intros w|].
  apply steps_bind; [apply _|apply grow_flush_series|]. intros r. apply IH.
Qed.

Lemma grow_flush_each now : ∀ chats res, steps finals_grow (flush_each now chats res).
Proof.
  induction chats as [|c chats IH]; intros n; simpl; [by intros w|].
  apply steps_bind; [apply _|apply grow_flush_series|]. intros r. apply IH.
Qed.

Lemma keeps_flush_each {B} (f : World -> B) now :
  (∀ c ct, keeps f (_flush_series now c ct)) ->
  ∀ chats res, keeps f (flush_each now chats res).
Proof.
  intros H chats. induction chats as [|c chats IH]; intros n; simpl.
  - apply keeps_ret.
  - apply keeps_bind; [apply H|]. intros r. apply IH.
Qed.

(** X8. The aggregator only appends.  [process_message], [scheduler_tick]
    and [stop_all], on any store and also when they raise, leave the raw
    streams, the window configuration, the silence clocks, the LLM log and
    the log of outbound requests as they were; every final stream keeps the
    messages it had, in place, new ones come after them; and no stream id is
    taken back. *)
Theorem aggregator_only_appends now chat_id messages_id user_id username user_type
    text window_seconds max_batch w :
  let kept w' :=
    raw_stream w' = raw_stream w ∧ conf_hash w' = conf_hash w
    ∧ last_silence_notification w' = last_silence_notification w
    ∧ llm_log w' = llm_log w ∧ outbox w' = outbox w
    ∧ finals_grow w w' in
  kept (process_message now chat_id messages_id user_id username user_type
          text window_seconds w).2
  ∧ kept (scheduler_tick now max_batch w).2
  ∧ kept (stop_all now w).2.
Proof.
  intros kept.
  enough (∀ w', w' = (process_message now chat_id messages_id user_id username
                        user_type text window_seconds w).2
                ∨ w' = (scheduler_tick now max_batch w).2
                ∨ w' = (stop_all now w).2 -> kept w') as Hall.
  { split; [|split]; apply Hall; auto. }
  subst kept. cbv beta.
  assert (∀ {B} (f : World -> B),
            (∀ g w, f (set_flush_locks g w) = f w) ->
            (∀ g w, f (set_final_stream g w) = f w) ->
            (∀ g w, f (set_last_stream_id g w) = f w) ->
            (∀ g w, f (set_agg_hash g w) = f w) ->
            (∀ g w, f (set_sched_zset g w) = f w) ->
            (∀ g w, f (set_metrics_hash g w) = f w) ->
            ∀ c ct, keeps f (_flush_series now c ct)) as Hflush.
  { intros B f H1 H2 H3 H4 H5 H6 c ct. unfold _flush_series, ensure_flush_lock,
      redis_xadd_final, _increment_metric.
    repeat first
      [ apply keeps_ret | apply keeps_lift | apply keeps_gets
      | apply keeps_modify; intros; first [apply H1|apply H4|apply H5|apply H6]
      | apply keeps_bind; [|intros]
      | match goal with
        | |- keeps _ (if ?b then _ else _) => destruct b
        end ].
    intros w0. simpl. by rewrite H2, H3. }
  intros w' Hw'.
  assert (∀ {B} (f : World -> B),
            (∀ g w, f (set_flush_locks g w) = f w) ->
            (∀ g w, f (set_final_stream g w) = f w) ->
            (∀ g w, f (set_last_stream_id g w) = f w) ->
            (∀ g w, f (set_agg_hash g w) = f w) ->
            (∀ g w, f (set_sched_zset g w) = f w) ->
            (∀ g w, f (set_metrics_hash g w) = f w) ->
            (∀ g w, f (set_stop_events g w) = f w) ->
            f w' = f w) as Hkeep.
  { intros B f H1 H2 H3 H4 H5 H6 H7.
    pose proof (Hflush B f H1 H2 H3 H4 H5 H6) as Hf.
    destruct Hw' as [->|[->| ->]].
    - assert (keeps f (process_message now chat_id messages_id user_id username
                         user_type text window_seconds)) as H; [|apply H].
      unfold process_message, get_window, _schedule_deadline.
      repeat first
        [ apply Hf | apply keeps_ret | apply keeps_lift | apply keeps_gets
        | apply keeps_modify; intros; first [apply H4|apply H5]
        | apply keeps_bind; [|intros]
        | match goal with
          | |- keeps _ (match ?x with _ => _ end) => destruct x
          | |- keeps _ (if ?b then _ else _) => destruct b
          end ].
    - assert (keeps f (scheduler_tick now max_batch)) as H; [|apply H].
      unfold scheduler_tick.
      repeat first
        [ by apply keeps_flush_expired | apply keeps_ret | apply keeps_gets
        | apply keeps_bind; [|intros]
        | match goal with
          | |- keeps _ (match ?x with _ => _ end) => destruct x
          end ].
    - assert (keeps f (stop_all now)) as H; [|apply H].
      unfold stop_all, _flush_all.
      repeat first
        [ by apply keeps_flush_each | apply keeps_ret | apply keeps_gets
        | apply keeps_modify; intros; first [apply H1|apply H7]
        | apply keeps_bind; [|intros] ]. }
  split; [by apply Hkeep|]. split; [by apply Hkeep|]. split; [by apply Hkeep|].
  split; [by apply Hkeep|]. split; [by apply Hkeep|].
  destruct Hw' as [->|[->| ->]].
  - assert (steps finals_grow (process_message now chat_id messages_id user_id
                                 username user_type text window_seconds)) as H;
      [|apply H].
    unfold process_message.
    repeat first
      [ apply grow_flush_series
      | apply grow_of_keeps; solve [service_frame]
      | apply steps_bind; [apply _| |intros]
      | match goal with
        | |- steps _ (match ?x with _ => _ end) => destruct x
        | |- steps _ (if ?b then _ else _) => destruct b
        end ].
  - assert (steps finals_grow (scheduler_tick now max_batch)) as H; [|apply H].
    unfold scheduler_tick.
    apply steps_bind; [apply _|destruct max_batch; by intros w0|]. intros n.
    apply steps_bind; [apply _|by intros w0|]. intros l. apply grow_flush_expired.
  - assert (steps finals_grow (stop_all now)) as H; [|apply H].
    unfold stop_all, _flush_all.
    apply steps_bind; [apply _| |intros r].
    + apply steps_bind; [apply _|by intros w0|]. intros l. apply grow_flush_each.
    + apply steps_bind; [apply _|by intros w0|]. intros. by intros w0.
Qed.

Ltac shrink_tac :=
  repeat first
    [ apply shrink_of_keeps; solve [service_frame]
    | apply shrink_xdel
    | apply steps_for_each; [apply _|intros]
    | apply steps_bind; [apply _| |intros]
    | match goal with
      | |- steps _ (match ?x with _ => _ end) => destruct x
      | |- steps _ (if ?b then _ else _) => destruct b
      | |- steps _ (let '(_, _) := ?x in _) => destruct x
      end ].

(** X9. The monitor only deletes.  One pass of [_check_pending_messages],
    on any store, whatever the HTTP calls do and also when the pass ends in
    an exception, leaves the raw streams, the active series, the deadlines,
    the windows, the metrics, the registered workers and the LLM log as they
    were, allocates no stream id, and adds no final message: what each final
    stream holds afterwards is part of what it held before, in the same
    order. *)
Theorem monitor_only_deletes env now w :
  let w' := (_check_pending_messages env now w).2 in
  raw_stream w' = raw_stream w ∧ agg_hash w' = agg_hash w
  ∧ sched_zset w' = sched_zset w ∧ conf_hash w' = conf_hash w
  ∧ metrics_hash w' = metrics_hash w ∧ _stop_events w' = _stop_events w
  ∧ llm_log w' = llm_log w ∧ last_stream_id w' = last_stream_id w
  ∧ finals_shrink w w'.
Proof.
  assert (keeps raw_stream (_check_pending_messages env now)) as H1 by service_frame.
  assert (keeps agg_hash (_check_pending_messages env now)) as H2 by service_frame.
  assert (keeps sched_zset (_check_pending_messages env now)) as H3 by service_frame.
  assert (keeps conf_hash (_check_pending_messages env now)) as H4 by service_frame.
  assert (keeps metrics_hash (_check_pending_messages env now)) as H5 by service_frame.
  assert (keeps _stop_events (_check_pending_messages env now)) as H6 by service_frame.
  assert (keeps llm_log (_check_pending_messages env now)) as H7 by service_frame.
  assert (keeps last_stream_id (_check_pending_messages env now)) as H8 by service_frame.
  assert (steps finals_shrink (_check_pending_messages env now)) as H9.
  { unfold _check_pending_messages, check_pending_chat, reminder_branch, remind_one,
      send_message.
    shrink_tac. }
  simpl. rewrite (H1 w), (H2 w), (H3 w), (H4 w), (H5 w), (H6 w), (H7 w), (H8 w).
  repeat split; try done.
Qed.

(** ** The router: workers, operators and merchants *)

Lemma bind_ok {A B} (m : M A) (k : A -> M B) w a w1 :
  m w = (Ok a, w1) -> bind m k w = k a w1.
Proof. intros H. unfold bind. by rewrite H. Qed.

Lemma bind_exc {A B} (m : M A) (k : A -> M B) w e w1 :
  m w = (Exc e, w1) -> bind m k w = (Exc e, w1).
Proof. intros H. unfold bind. by rewrite H. Qed.

(** The world after [_ensure_worker_for_chat]: the window of a configured
    chat is written, the worker is registered if it was not. *)
Lemma ensure_worker_run c w :
  _ensure_worker_for_chat c w
  = (Ok tt,
     set_stop_events
       (fun l => if bool_decide (c ∈ l) then l else l ++ [c])
       (match CONFIG_CHATS w !! c with
        | Some cfg =>
            set_conf_hash
              (hset c {["window_s" :=
                          py_str (default 20 (redis_buffer_window (pinger cfg)))]}) w
        | None => w
        end)).
Proof.
  unfold _ensure_worker_for_chat, try_except, config_of, set_window, get_chat_status,
    start_worker, bind, gets, modify, ret.
  destruct (CONFIG_CHATS w !! c) as [cfg|]; simpl;
    destruct (bool_decide (c ∈ _stop_events w)) eqn:E; simpl;
    destruct w; unfold set_stop_events, set_conf_hash; simpl in *; by rewrite ?E.
Qed.


Lemma bind_ret_snd {A B} (m : M A) (b : B) w :
  (bind m (fun _ => ret b) w).2 = (m w).2
  ∧ ∀ r, (bind m (fun _ => ret b) w).1 = Ok r -> r = b.
Proof.
  unfold bind, ret. destruct (m w) as [[a|e] w1]; simpl; split; try done.
  by intros r [= <-].
Qed.

Lemma filter_all {A} (P : A -> Prop) `{!∀ x, Decision (P x)} (l : list A) :
  (∀ x, x ∈ l -> P x) -> filter P l = l.
Proof.
  induction l as [|x l IH]; intros Hall; [done|].
  rewrite filter_cons_True by (apply Hall; by left).
  f_equal. apply IH. intros y Hy. apply Hall. by right.
Qed.

Lemma xdel_xadd_fresh c id fs (ss : gmap string (list (Z * gmap string string))) :
  (∀ e, e ∈ default [] (ss !! c) -> e.1 ≠ id) ->
  xdel c id (xadd c id fs ss) = <[c := default [] (ss !! c)]> ss.
Proof.
  intros Hfresh. unfold xdel, xadd. rewrite lookup_insert_eq, insert_insert_eq.
  f_equal. rewrite filter_app, filter_cons_False, filter_nil, app_nil_r.
  - apply filter_all. intros e He. by apply Hfresh.
  - simpl. by intros H.
Qed.

Lemma modify_then {A} f (m : M A) w : (modify f >> m) w = m (f w).
Proof. reflexivity. Qed.

Lemma reply_exist_raw c id parent w :
  let w' := (process_message_if_reply_exist c id parent w).2 in
  raw_stream w' = xdel c id (raw_stream w)
  ∧ last_stream_id w' = last_stream_id w ∧ finals_shrink w w'.
Proof.
  unfold process_message_if_reply_exist. rewrite modify_then.
  match goal with
  | |- context [(?m (set_raw_stream ?f w)).2] =>
      assert (keeps raw_stream m) as H1 by service_frame;
      assert (keeps last_stream_id m) as H2 by service_frame;
      assert (steps finals_shrink m) as H3 by shrink_tac;
      pose proof (H1 (set_raw_stream f w)) as E1;
      pose proof (H2 (set_raw_stream f w)) as E2;
      pose proof (H3 (set_raw_stream f w)) as E3
  end.
  cbv zeta. rewrite E1, E2. by repeat split.
Qed.

Lemma pp_response_raw env c id username text w :
  let w' := (process_message_with_pp_response env c id username text w).2 in
  raw_stream w' = xdel c id (raw_stream w)
  ∧ last_stream_id w' = last_stream_id w ∧ finals_shrink w w'.
Proof.
  unfold process_message_with_pp_response. rewrite modify_then.
  match goal with
  | |- context [(?m (set_raw_stream ?f w)).2] =>
      assert (keeps raw_stream m) as H1 by service_frame;
      assert (keeps last_stream_id m) as H2 by service_frame;
      assert (steps finals_shrink m) as H3 by shrink_tac;
      pose proof (H1 (set_raw_stream f w)) as E1;
      pose proof (H2 (set_raw_stream f w)) as E2;
      pose proof (H3 (set_raw_stream f w)) as E3
  end.
  cbv zeta. rewrite E1, E2. by repeat split.
Qed.

Lemma add_message_run now c mid uid un ut tx ts w :
  ∃ fs w1,
    add_message now c mid uid un ut tx ts w = (Ok (last_stream_id w + 1), w1)
    ∧ raw_stream w1 = xadd c (last_stream_id w + 1) fs (raw_stream w)
    ∧ last_stream_id w1 = last_stream_id w + 1
    ∧ final_stream w1 = final_stream w
    ∧ fs !! "user_type" = Some ut ∧ fs !! "text" = Some tx
    ∧ fs !! "user_id" = Some uid ∧ fs !! "messages_id" = Some mid
    ∧ fs !! "type" = Some "short"
    ∧ llm_log w1 = llm_log w.
Proof.
  unfold add_message, redis_xadd_raw, _increment_metric, bind, modify, ret.
  do 2 eexists. split; [reflexivity|]. simpl. repeat split; by simplify_map_eq.
Qed.

(** The operator path of the router. *)
Lemma pp_path_raw env now c mid uid un tx parent w :
  let out :=
    (let* redis_message_id := add_message now c mid uid un "pp" tx None in
     match parent with
     | Some parent =>
         process_message_if_reply_exist c redis_message_id parent >>
         ret (MessageId "in processing" redis_message_id)
     | None =>
         process_message_with_pp_response env c redis_message_id un tx >>
         ret (MessageId "in processing" redis_message_id)
     end) w in
  (∀ e, e ∈ default [] (raw_stream w !! c) -> e.1 <= last_stream_id w) ->
  raw_stream out.2 = <[c := default [] (raw_stream w !! c)]> (raw_stream w)
  ∧ last_stream_id out.2 = last_stream_id w + 1
  ∧ finals_shrink w out.2
  ∧ ∀ r, out.1 = Ok r -> r = MessageId "in processing" (last_stream_id w + 1).
Proof.
  intros out Hfresh. subst out.
  destruct (add_message_run now c mid uid un "pp" tx None w)
    as (fs & w1 & Hrun & Hraw & Hid & Hfin & _).
  rewrite (bind_ok _ _ _ _ _ Hrun).
  assert (xdel c (last_stream_id w + 1) (raw_stream w1)
          = <[c := default [] (raw_stream w !! c)]> (raw_stream w)) as Hdel.
  { rewrite Hraw. apply xdel_xadd_fresh. intros e He%Hfresh. lia. }
  assert (∀ w', finals_shrink w1 w' -> finals_shrink w w') as Hsh.
  { intros w' H c'. specialize (H c'). by rewrite Hfin in H. }
  destruct parent as [parent|].
  - destruct (bind_ret_snd
                (process_message_if_reply_exist c (last_stream_id w + 1) parent)
                (MessageId "in processing" (last_stream_id w + 1)) w1) as [-> Hr].
    destruct (reply_exist_raw c (last_stream_id w + 1) parent w1) as (-> & -> & H3).
    rewrite Hdel, Hid. repeat split; auto.
  - destruct (bind_ret_snd
                (process_message_with_pp_response env c (last_stream_id w + 1) un tx)
                (MessageId "in processing" (last_stream_id w + 1)) w1) as [-> Hr].
    destruct (pp_response_raw env c (last_stream_id w + 1) un tx w1) as (-> & -> & H3).
    rewrite Hdel, Hid. repeat split; auto.
Qed.

(** The world in which the router dispatches an accepted event: the silence
    clock of the chat is refreshed when its silencer is enabled, the window
    is written and the worker registered. *)
Lemma accepted_frame now c cfg w :
  let w1 := if silencer_enabled (silencer cfg)
            then set_last_silence_notification <[c := now]> w else w in
  let w2 := (_ensure_worker_for_chat c w1).2 in
  raw_stream w2 = raw_stream w ∧ final_stream w2 = final_stream w
  ∧ agg_hash w2 = agg_hash w ∧ last_stream_id w2 = last_stream_id w
  ∧ llm_log w2 = llm_log w ∧ DEFAULT_USER_ID_BOT w2 = DEFAULT_USER_ID_BOT w
  ∧ metrics_hash w2 = metrics_hash w.
Proof.
  intros w1 w2. subst w1 w2. rewrite ensure_worker_run. cbn [snd].
  destruct (silencer_enabled (silencer cfg)); simpl;
    destruct (CONFIG_CHATS w !! c); done.
Qed.

Lemma ensure_worker_ok c w :
  _ensure_worker_for_chat c w = (Ok tt, (_ensure_worker_for_chat c w).2).
Proof. by rewrite ensure_worker_run. Qed.

Lemma silence_refresh_ok (b : bool) c now w :
  (if b then modify (set_last_silence_notification <[c := now]>) else ret tt) w
  = (Ok tt, if b then set_last_silence_notification <[c := now]> w else w).
Proof. by destruct b. Qed.

Ltac router_prefix Hcfg Ht Hc :=
  unfold process_incoming_message;
  erewrite bind_ok by (unfold gets; rewrite Hcfg; reflexivity);
  cbv beta iota;
  erewrite bind_ok by (unfold lift; rewrite Ht; reflexivity);
  cbv beta iota; change (negb true) with false; cbv iota; rewrite Hc;
  rewrite (bind_ok _ _ _ _ _ (silence_refresh_ok _ _ _ _));
  rewrite (bind_ok _ _ _ _ _ (ensure_worker_ok _ _));
  erewrite bind_ok by reflexivity.

(** X11. An operator's message does not stay in the raw stream.  For an
    accepted event (known chat, inside working hours, not an edit) of a
    whitelisted user, or of the bot user where the bot is enabled, on a chat
    whose raw entries carry ids the store has handed out: the router adds
    the message to the raw stream and deletes it again, so that after the
    run the raw stream of the chat holds what it held before, whatever the
    LLM and Redis calls of the run did and also when it raised; one stream
    id is used up; the other chats' raw streams are untouched; final
    messages were at most deleted; and the answer, when there is one, is
    [in processing] with the id of the deleted entry. *)
Theorem operator_event_leaves_no_raw env now p w cfg :
  CONFIG_CHATS w !! messages__chat_id p = Some cfg ->
  should_process_message_by_time env (messages__date p) (pinger cfg) = Ok true ->
  text_histories__change_id p = None ->
  ("@" +:+ py_or (messages__username p) "unknown") ∈ whitelist (pinger cfg)
  ∨ (messages__user_id p = DEFAULT_USER_ID_BOT w ∧ bot_enabled (pinger cfg) = true) ->
  (∀ e, e ∈ default [] (raw_stream w !! messages__chat_id p) ->
        e.1 <= last_stream_id w) ->
  let out := process_incoming_message env now p w in
  default [] (raw_stream out.2 !! messages__chat_id p)
  = default [] (raw_stream w !! messages__chat_id p)
  ∧ (∀ c, c ≠ messages__chat_id p -> raw_stream out.2 !! c = raw_stream w !! c)
  ∧ last_stream_id out.2 = last_stream_id w + 1
  ∧ finals_shrink w out.2
  ∧ ∀ r, out.1 = Ok r -> r = MessageId "in processing" (last_stream_id w + 1).
Proof.
  intros Hcfg Ht Hc Hop Hfresh out. subst out.
  router_prefix Hcfg Ht Hc.
  destruct (accepted_frame now (messages__chat_id p) cfg w)
    as (Hraw & Hfin & _ & Hid & _ & Hbot & _).
  cbv zeta in Hraw, Hfin, Hid, Hbot.
  set (w2 := (_ensure_worker_for_chat _ _).2) in *.
  match goal with
  | |- context [(if bool_decide ?P then ?pp else ?other) w2] =>
      assert ((if bool_decide P then pp else other) w2 = pp w2) as ->
  end.
  { destruct Hop as [H|[H1 H2]].
    - by rewrite bool_decide_eq_true_2.
    - case_bool_decide; [done|].
      by rewrite Hbot, <- H1, String.eqb_refl, H2. }
  destruct (pp_path_raw env now (messages__chat_id p) (messages__id p)
              (messages__user_id p) (py_or (messages__username p) "unknown")
              (py_or (text_histories__text p) EmptyString)
              (messages__parent_message_id p) w2)
    as (H1 & H2 & H3 & H4).
  { rewrite Hraw, Hid. exact Hfresh. }
  rewrite Hraw, Hid in *. split; [|split; [|split; [|split]]].
  - rewrite H1. by rewrite lookup_insert_eq.
  - intros c Hne. rewrite H1. by rewrite lookup_insert_ne.
  - exact H2.
  - intros c. specialize (H3 c). by rewrite Hfin in H3.
  - exact H4.
Qed.

Lemma operator_event_leaves_no_raw_witness :
  let out := process_incoming_message (demo_env [] true) (seconds 50) demo_pp_event
               world0 in
  CONFIG_CHATS world0 !! "c1" = Some demo_config
  ∧ default [] (raw_stream out.2 !! "c1") = []
  ∧ last_stream_id out.2 = 1.
Proof.
  assert (CONFIG_CHATS world0 !! messages__chat_id demo_pp_event = Some demo_config)
    as Hcfg by reflexivity.
  split; [exact Hcfg|].
  destruct (operator_event_leaves_no_raw (demo_env [] true) (seconds 50)
              demo_pp_event world0 demo_config Hcfg)
    as (H1 & _ & H2 & _).
  - vm_compute. reflexivity.
  - reflexivity.
  - left. apply list_elem_of_singleton. vm_compute. reflexivity.
  - intros e He. by apply elem_of_nil in He.
  - split; [exact H1|exact H2].
Defined.
